(** * Bracket closing for CodeMirror: a shallow embedding of [closebrackets.ts]

    The development follows [src/closebrackets.ts].  JavaScript strings are
    lists of UTF-16 code units and document positions are integers.  The
    editor library the package is written against ([@codemirror/text],
    [@codemirror/state], [@codemirror/rangeset]) is not part of the package;
    the modules [JS], [Text], [Change] and [RangeSet] and the definitions on
    selections and transactions model the part of it the package calls,
    after the 0.19 releases of the library, which the package is written
    for: change sets are mapped, composed and built from ranges by the
    library's own loops over their sections. *)

From Stdlib Require Import ZArith List Bool Lia.
Import ListNotations.
Open Scope Z_scope.

(* ================================================================== *)
(** ** JavaScript strings and the code point helpers of [@codemirror/text] *)

Module JS.

(** A string is its sequence of UTF-16 code units. *)
Definition str := list Z.

Definition length (s : str) : Z := Z.of_nat (List.length s).

(** [s.charCodeAt(i)]; [None] stands for [NaN]. *)
Definition charCodeAt (s : str) (i : Z) : option Z :=
  if i <? 0 then None else nth_error s (Z.to_nat i).

(** [a == b] on strings. *)
Fixpoint eqb (a b : str) : bool :=
  match a, b with
  | [], [] => true
  | x :: a', y :: b' => (x =? y) && eqb a' b'
  | _, _ => false
  end.

(** Index normalisation of [String.prototype.slice]: a negative index counts
    from the end, and every index is clamped to the string. *)
Definition relIndex (len i : Z) : Z :=
  if i <? 0 then Z.max (len + i) 0 else Z.min i len.

(** [s.slice(from, to)]. *)
Definition slice (s : str) (from to : Z) : str :=
  let f := relIndex (length s) from in
  let t := relIndex (length s) to in
  firstn (Z.to_nat (t - f)) (skipn (Z.to_nat f) s).

(** [s.slice(from)]. *)
Definition sliceFrom (s : str) (from : Z) : str := slice s from (length s).

Fixpoint isPrefix (p s : str) : bool :=
  match p, s with
  | [], _ => true
  | x :: p', y :: s' => (x =? y) && isPrefix p' s'
  | _ :: _, [] => false
  end.

Fixpoint indexOfFrom (s sub : str) (i : Z) : Z :=
  if isPrefix sub s then i
  else match s with
       | [] => -1
       | _ :: s' => indexOfFrom s' sub (i + 1)
       end.

(** [s.indexOf(sub)]: the first offset at which [sub] occurs, or [-1]. *)
Definition indexOf (s sub : str) : Z := indexOfFrom s sub 0.

(** [arr.indexOf(x) > -1] on an array of strings. *)
Definition arrayIncludes (arr : list str) (x : str) : bool :=
  existsb (eqb x) arr.

(** The code units matched by the regular expression class [\s]. *)
Definition isSpaceUnit (c : Z) : bool :=
  ((9 <=? c) && (c <=? 13)) || (c =? 32) || (c =? 160) || (c =? 5760) ||
  ((8192 <=? c) && (c <=? 8202)) || (c =? 8232) || (c =? 8233) ||
  (c =? 8239) || (c =? 8287) || (c =? 12288) || (c =? 65279).

(** [/\s/.test(s)]. *)
Definition testSpace (s : str) : bool := existsb isSpaceUnit s.

Definition surrogateLow (ch : Z) : bool := (56320 <=? ch) && (ch <? 57344).
Definition surrogateHigh (ch : Z) : bool := (55296 <=? ch) && (ch <? 56320).

(** [codePointAt(str, pos)] of [@codemirror/text]; [None] is [NaN] (the
    position is outside the string). *)
Definition codePointAt (s : str) (pos : Z) : option Z :=
  match charCodeAt s pos with
  | None => None
  | Some code0 =>
      if negb (surrogateHigh code0) || (pos + 1 =? length s) then Some code0
      else match charCodeAt s (pos + 1) with
           | None => Some code0
           | Some code1 =>
               if negb (surrogateLow code1) then Some code0
               else Some (Z.shiftl (code0 - 55296) 10 + (code1 - 56320) + 65536)
           end
  end.

(** [codePointSize(code)]: [code < 0x10000 ? 1 : 2]; the comparison is false
    on [NaN]. *)
Definition codePointSize (code : option Z) : Z :=
  match code with
  | Some c => if c <? 65536 then 1 else 2
  | None => 2
  end.

(** [String.fromCharCode] keeps the low sixteen bits of its argument. *)
Definition fromCharCode (c : Z) : Z := c mod 65536.

(** [fromCodePoint(code)] of [@codemirror/text] (for arguments that fit a
    32-bit integer, as every code point does). *)
Definition fromCodePoint (code : Z) : str :=
  if code <=? 65535 then [fromCharCode code]
  else let c := code - 65536 in
       [fromCharCode (Z.shiftr c 10 + 55296); fromCharCode (Z.land c 1023 + 56320)].

(** [fromCodePoint(NaN)]: both comparisons and bit operations see zero. *)
Definition fromCodePointNaN : str := [55296; 56320].

End JS.

(** Strings whose elements are 16-bit code units. *)
Definition wellFormed (s : JS.str) : Prop := Forall (fun c => 0 <= c < 65536) s.

(** The code points that are characters: Unicode scalar values. *)
Definition scalarValue (c : Z) : Prop := 0 <= c < 55296 \/ 57344 <= c <= 1114111.

(* ================================================================== *)
(** ** The delimiter table *)

(** The string [()[]{}<>]. *)
Definition definedClosing : JS.str := [40; 41; 91; 93; 123; 125; 60; 62].

(** The loop of [closing]: walk the table two code units at a time. *)
Fixpoint closingLookup (table : JS.str) (ch : Z) : option JS.str :=
  match table with
  | o :: c :: rest => if o =? ch then Some [c] else closingLookup rest ch
  | _ => None
  end.

Definition closing (ch : Z) : JS.str :=
  match closingLookup definedClosing ch with
  | Some c => c
  | None => JS.fromCodePoint (if ch <? 128 then ch else ch + 1)
  end.

(** [closing(codePointAt(tok, 0))], as every caller writes it.  On the empty
    token [codePointAt] is [NaN], which matches no table entry, fails
    [ch < 128] and stays [NaN] after [+ 1]. *)
Definition closingOf (tok : JS.str) : JS.str :=
  match JS.codePointAt tok 0 with
  | Some ch => closing ch
  | None => JS.fromCodePointNaN
  end.

(* ================================================================== *)
(** ** Documents

    A document is the sequence of its code units, with code unit 10 between
    two lines (a line break counts as one position, as in [Text.length]). *)

Module Text.

Definition length (doc : JS.str) : Z := JS.length doc.

(** [doc.sliceString(from, to)]: the text between the two positions, both
    clamped to the document. *)
Definition sliceString (doc : JS.str) (from to : Z) : JS.str :=
  let f := Z.max 0 from in
  firstn (Z.to_nat (to - f)) (skipn (Z.to_nat f) doc).

(** Scan for [doc.lineAt(pos).from]: [start] is the start of the line that
    holds position [i]. *)
Fixpoint lineStartFrom (doc : JS.str) (i start pos : Z) : Z :=
  match doc with
  | [] => start
  | c :: rest =>
      if pos <=? i then start
      else lineStartFrom rest (i + 1) (if c =? 10 then i + 1 else start) pos
  end.

(** [doc.lineAt(pos).from]. *)
Definition lineStart (doc : JS.str) (pos : Z) : Z := lineStartFrom doc 0 0 pos.

End Text.

(* ================================================================== *)
(** ** Change sets and position mapping ([@codemirror/state])

    A change set is kept the way the library keeps it, as sections of kept
    and of replaced text, and [mapPos] walks them with the association side
    and the tracking mode of the caller. *)

Module Change.

(** A change [{from, to, insert}] in the coordinates of the start document. *)
Record Spec := mkSpec { from : Z; to : Z; insert : JS.str }.

(** A section [(len, ins)] covers [len] code units of the start document:
    [ins = None] keeps them, [ins = Some text] replaces them by [text]. *)
Definition Sect : Type := Z * option JS.str.

(** A change set, as its list of sections in document order. *)
Definition Set_ : Type := list Sect.

(** [addSection], on the sections gathered so far in reverse order: an
    empty section is skipped, a run of kept (or of deleted) text extends the
    previous run, and an insertion right after an insertion is joined to it. *)
Definition addSection (rev : list Sect) (len : Z) (ins : option JS.str) : list Sect :=
  match ins with
  | None =>
      if len =? 0 then rev
      else match rev with
           | (l, None) :: r => (l + len, None) :: r
           | _ => (len, None) :: rev
           end
  | Some text =>
      if (len =? 0) && (JS.length text =? 0) then rev
      else match rev with
           | (l, Some text') :: r =>
               if (JS.length text =? 0) && (JS.length text' =? 0) then (l + len, Some []) :: r
               else if (len =? 0) && (l =? 0) then (0, Some (text' ++ text)) :: r
               else (len, Some text) :: rev
           | _ => (len, Some text) :: rev
           end
  end.

(** [ChangeSet.of] on changes given in document order.  [None] when a change
    is out of range (the library raises [RangeError]) or starts before the
    end of the previous one (the library then composes the two groups; no
    function of this package produces such a list for one range). *)
Fixpoint ofFrom (specs : list Spec) (len : Z) (rev : list Sect) (pos : Z) : option Set_ :=
  match specs with
  | [] => Some (List.rev (if pos <? len then addSection rev (len - pos) None else rev))
  | s :: rest =>
      if (to s <? from s) || (from s <? 0) || (len <? to s) then None
      else if (from s =? to s) && (JS.length (insert s) =? 0) then ofFrom rest len rev pos
      else if from s <? pos then None
      else
        let rev1 := if pos <? from s then addSection rev (from s - pos) None else rev in
        ofFrom rest len (addSection rev1 (to s - from s) (Some (insert s))) (to s)
  end.

Definition ofSpecs (specs : list Spec) (len : Z) : option Set_ := ofFrom specs len [] 0.

(** [changes.apply(doc)]. *)
Fixpoint apply (cs : Set_) (doc : JS.str) : JS.str :=
  match cs with
  | [] => []
  | (len, None) :: rest => firstn (Z.to_nat len) doc ++ apply rest (skipn (Z.to_nat len) doc)
  | (len, Some text) :: rest => text ++ apply rest (skipn (Z.to_nat len) doc)
  end.

Inductive MapMode := Simple | TrackDel | TrackBefore | TrackAfter.

(** Result of [mapPos]: a position, [null] (a tracking mode found the
    position deleted), or the [RangeError] raised for a position beyond the
    change set. *)
Inductive MapResult := Mapped (pos : Z) | Deleted | OutOfRange.

(** [mode != Simple && endA >= pos && (...)]: does the replaced section
    [posA, endA) delete what the mode tracks? *)
Definition tracksDeletion (mode : MapMode) (posA endA pos : Z) : bool :=
  match mode with
  | Simple => false
  | TrackDel => (pos <=? endA) && (posA <? pos) && (pos <? endA)
  | TrackBefore => (pos <=? endA) && (posA <? pos)
  | TrackAfter => (pos <=? endA) && (pos <? endA)
  end.

(** The loop of [ChangeDesc.mapPos]. *)
Fixpoint mapPosFrom (cs : Set_) (posA posB pos assoc : Z) (mode : MapMode) : MapResult :=
  match cs with
  | [] => if posA <? pos then OutOfRange else Mapped posB
  | (len, None) :: rest =>
      let endA := posA + len in
      if pos <? endA then Mapped (posB + (pos - posA))
      else mapPosFrom rest endA (posB + len) pos assoc mode
  | (len, Some text) :: rest =>
      let endA := posA + len in
      let ins := JS.length text in
      if tracksDeletion mode posA endA pos then Deleted
      else if (pos <? endA) || ((endA =? pos) && (assoc <? 0) && (len =? 0))
      then Mapped (if (pos =? posA) || (assoc <? 0) then posB else posB + ins)
      else mapPosFrom rest endA (posB + ins) pos assoc mode
  end.

(** [changes.mapPos(pos, assoc, mode)]. *)
Definition mapPos (cs : Set_) (pos assoc : Z) (mode : MapMode) : MapResult :=
  mapPosFrom cs 0 0 pos assoc mode.

(** [ChangeSet.empty(length)]. *)
Definition emptySet (len : Z) : Set_ := if len =? 0 then [] else [(len, None)].

(** [changes.empty]: no section, or one section that keeps the document. *)
Definition isEmpty (cs : Set_) : bool :=
  match cs with
  | [] => true
  | [(_, None)] => true
  | _ => false
  end.

(** [addSection(sections, len, ins, forceJoin)] as [composeSets] calls it:
    with [forceJoin] a replacement that fits none of the joining rules is
    still added to the section before it.  ([composeSets] never forces a
    kept stretch onto a section.) *)
Definition addSectionJoin (rev : list Sect) (len : Z) (ins : option JS.str) (forceJoin : bool)
  : list Sect :=
  match ins with
  | None => addSection rev len None
  | Some text =>
      if (len =? 0) && (JS.length text =? 0) then rev
      else match rev with
           | (l, Some text') :: r =>
               if (JS.length text =? 0) && (JS.length text' =? 0) then (l + len, Some []) :: r
               else if (len =? 0) && (l =? 0) then (0, Some (text' ++ text)) :: r
               else if forceJoin then (l + len, Some (text' ++ text)) :: r
               else (len, Some text) :: rev
           | _ => (len, Some text) :: rev
           end
  end.

(** [SectionIter]: the section being read ([curIns] is [-1] for a kept
    section, the length of the inserted text for a replaced one and [-2]
    when the sections are used up), how much of it was passed already, its
    inserted text, the index [i] after it and the sections still to come. *)
Record Iter := mkIter {
  curLen : Z;
  curIns : Z;
  curOff : Z;
  curText : JS.str;
  index : Z;
  later : list Sect
}.

(** [iter.next()]. *)
Definition next (it : Iter) : Iter :=
  match later it with
  | [] => mkIter 0 (-2) 0 [] (index it) []
  | (l, None) :: r => mkIter l (-1) 0 [] (index it + 2) r
  | (l, Some text) :: r => mkIter l (JS.length text) 0 text (index it + 2) r
  end.

(** [new SectionIter(set)]. *)
Definition iter (cs : Set_) : Iter := next (mkIter 0 (-2) 0 [] 0 cs).

Definition done (it : Iter) : bool := curIns it =? -2.

(** [iter.len2]: the length of the section in the new document. *)
Definition len2 (it : Iter) : Z := if curIns it <? 0 then curLen it else curIns it.

(** [iter.forward(len)]. *)
Definition forward (it : Iter) (len : Z) : Iter :=
  if len =? curLen it then next it
  else mkIter (curLen it - len) (curIns it) (curOff it + len) (curText it) (index it) (later it).

(** [iter.forward2(len)]. *)
Definition forward2 (it : Iter) (len : Z) : Iter :=
  if curIns it =? -1 then forward it len
  else if len =? curIns it then next it
  else mkIter (curLen it) (curIns it - len) (curOff it + len) (curText it) (index it) (later it).

(** [iter.textBit(len)]. *)
Definition textBit (it : Iter) (len : Z) : JS.str :=
  firstn (Z.to_nat len) (skipn (Z.to_nat (curOff it)) (curText it)).

(** In [mapSet], the loop that passes the changes of [a] lying inside the
    change of [b] that starts at [posB] and ends before [endB]; it gives
    [a] and [posA] afterwards.  [fuel] bounds the turns of the loop. *)
Fixpoint mapCover (fuel : nat) (a : Iter) (posA posB endB : Z) : option (Iter * Z) :=
  if (posB <? posA) && negb (done a) && (posA + curLen a <? endB) then
    match fuel with
    | O => None
    | S fuel' => mapCover fuel' (next a) (posA + curLen a) posB endB
    end
  else Some (a, posA).

(** In [mapSet], the loop that measures a change of [a], which starts at
    [posA] and ends at [endA], in the document after [b]; it gives [b],
    [posB] and the length afterwards. *)
Fixpoint mapPiece (fuel : nat) (b : Iter) (posA posB endA len : Z)
  : option (Iter * Z * Z) :=
  if (0 <=? curIns b) && (posA <? posB) && (posB + curLen b <? endA) then
    match fuel with
    | O => None
    | S fuel' => mapPiece fuel' (next b) posA (posB + curLen b) endA (len + curIns b)
    end
  else if (curIns b =? -1) && (posB <? endA) then
    match fuel with
    | O => None
    | S fuel' =>
        let skip := Z.min (curLen b) (endA - posB) in
        mapPiece fuel' (forward b skip) posA (posB + skip) endA (len + skip)
    end
  else Some (b, posB, len).

(** The main loop of [mapSet(setA, setB, before, true)]; [posA] and [posB]
    are the positions the two iterators have reached in the start
    document.  [None] when the library raises [Mismatched change set
    lengths]. *)
Fixpoint mapLoop (fuel inner : nat) (a b : Iter) (posA posB : Z) (before : bool)
  (rev : list Sect) : option Set_ :=
  match fuel with
  | O => None
  | S fuel' =>
      if curIns a =? -1 then
        mapLoop fuel' inner (next a) b (posA + curLen a) posB before rev
      else if (curIns b =? -1) && (posB <? posA) then
        let skip := Z.min (curLen b) (posA - posB) in
        mapLoop fuel' inner a (forward b skip) posA (posB + skip) before
                (addSection rev skip None)
      else if (0 <=? curIns b) &&
              (done a || (posB <? posA) ||
               ((posB =? posA) &&
                ((curLen b <? curLen a) || ((curLen b =? curLen a) && negb before))))
      then
        match mapCover inner a posA posB (posB + curLen b) with
        | Some (a', posA') =>
            mapLoop fuel' inner a' (next b) posA' (posB + curLen b) before
                    (addSection rev (curIns b) None)
        | None => None
        end
      else if 0 <=? curIns a then
        match mapPiece inner b posA posB (posA + curLen a) 0 with
        | Some (b', posB', len) =>
            mapLoop fuel' inner (next a) b' (posA + curLen a) posB' before
                    (addSection rev len (Some (curText a)))
        | None => None
        end
      else if done a && done b then Some (List.rev rev)
      else None
  end.

(** Turns that suffice for the loops over two lists of sections: every
    second turn at least uses up a section of one of them. *)
Definition turns (setA setB : Set_) : nat :=
  S (S (2 * (List.length setA + List.length setB))).

(** [mapSet(setA, setB, before, true)]: [setA] made to apply to the
    document that [setB] produces. *)
Definition mapSet (setA setB : Set_) (before : bool) : option Set_ :=
  mapLoop (turns setA setB) (turns setA setB) (iter setA) (iter setB) 0 0 before [].

(** [changes.map(other, before)]. *)
Definition map (cs other : Set_) (before : bool) : option Set_ :=
  if isEmpty other then Some cs else mapSet cs other before.

(** [changes.mapDesc(other, before)], with the inserted texts kept: only
    their lengths are read from the result. *)
Definition mapDesc (cs other : Set_) (before : bool) : option Set_ :=
  if isEmpty other then Some cs else mapSet cs other before.

(** The loop of [composeSets(setA, setB, true)]; [None] when the library
    raises [Mismatched change set lengths]. *)
Fixpoint composeLoop (fuel : nat) (a b : Iter) (open : bool) (rev : list Sect)
  : option Set_ :=
  match fuel with
  | O => None
  | S fuel' =>
      if done a && done b then Some (List.rev rev)
      else if curIns a =? 0 then
        composeLoop fuel' (next a) b open (addSectionJoin rev (curLen a) (Some []) open)
      else if (curLen b =? 0) && negb (done b) then
        composeLoop fuel' a (next b) open (addSectionJoin rev 0 (Some (curText b)) open)
      else if done a || done b then None
      else
        let len := Z.min (len2 a) (curLen b) in
        let rev' :=
          if curIns a =? -1 then
            if curIns b =? -1 then addSectionJoin rev len None open
            else addSectionJoin rev len (Some (if curOff b =? 0 then curText b else [])) open
          else if curIns b =? -1 then
            addSectionJoin rev (if curOff a =? 0 then curLen a else 0) (Some (textBit a len)) open
          else
            addSectionJoin rev (if curOff a =? 0 then curLen a else 0)
                           (Some (if curOff b =? 0 then curText b else [])) open in
        let open' :=
          ((len <? curIns a) || ((0 <=? curIns b) && (len <? curLen b))) &&
          (open || (List.length rev <? List.length rev')%nat) in
        composeLoop fuel' (forward2 a len) (forward b len) open' rev'
  end.

(** [composeSets(setA, setB, true)]. *)
Definition composeSets (setA setB : Set_) : option Set_ :=
  composeLoop (turns setA setB) (iter setA) (iter setB) false [].

(** [changes.compose(other)]. *)
Definition compose (cs other : Set_) : option Set_ :=
  if isEmpty cs then Some other
  else if isEmpty other then Some cs
  else composeSets cs other.

End Change.

(* ================================================================== *)
(** ** Range sets ([@codemirror/rangeset]) holding the value [closedBracket]

    The package sets [closedBracket.startSide = 1] and
    [closedBracket.endSide = -1]: the start of a range stays after text
    inserted at it, its end stays before text inserted at it. *)

Module RangeSet.

(** A set of ranges [(from, to)], all carrying [closedBracket], whose
    [startSide] is [1] and whose [endSide] is [-1]. *)
Definition t : Type := list (Z * Z).

Definition empty : t := [].

(** Mapping of one range: the start is mapped with [startSide], the end with
    [endSide], and a range that collapsed is dropped. *)
Definition mapRange (cs : Change.Set_) (r : Z * Z) : option (Z * Z) :=
  match Change.mapPos cs (fst r) 1 Change.Simple, Change.mapPos cs (snd r) (-1) Change.Simple with
  | Change.Mapped newFrom, Change.Mapped newTo =>
      if (newTo <? newFrom) || (newFrom =? newTo) then None else Some (newFrom, newTo)
  | _, _ => None
  end.

(** [set.map(changes)]. *)
Fixpoint map (rs : t) (cs : Change.Set_) : t :=
  match rs with
  | [] => []
  | r :: rest =>
      match mapRange cs r with
      | Some r' => r' :: map rest cs
      | None => map rest cs
      end
  end.

(** [set.update({add: [closedBracket.range(from, to)]})]: the set stays
    ordered by start position. *)
Fixpoint add (rs : t) (r : Z * Z) : t :=
  match rs with
  | [] => [r]
  | x :: rest => if fst r <? fst x then r :: rs else x :: add rest r
  end.

(** [set.update({filter: f})], with [f] reading the start of a range. *)
Definition filter (f : Z -> bool) (rs : t) : t :=
  List.filter (fun r => f (fst r)) rs.

(** [set.between(from, to, f)] visits the ranges that touch [from, to]. *)
Definition between (rs : t) (from to : Z) : list (Z * Z) :=
  List.filter (fun r => (fst r <=? to) && (from <=? snd r)) rs.

End RangeSet.

(* ================================================================== *)
(** ** Selections, configuration, editor state *)

Record SelectionRange := mkRange { anchor : Z; head : Z }.

Definition rangeFrom (r : SelectionRange) : Z := Z.min (anchor r) (head r).
Definition rangeTo (r : SelectionRange) : Z := Z.max (anchor r) (head r).
Definition rangeEmpty (r : SelectionRange) : bool := rangeFrom r =? rangeTo r.

(** [EditorSelection.cursor(pos)]. *)
Definition cursor (pos : Z) : SelectionRange := mkRange pos pos.

(** A selection: its ranges and the index of the main one. *)
Record EditorSelection := mkSelection { ranges : list SelectionRange; mainIndex : nat }.

(** The merging loop of [normalized], on ranges sorted by their start: a
    range that touches or overlaps the one before it is merged into it, and
    the main index follows.  [prev] is the range before position [i],
    [range] the one at [i]. *)
Fixpoint normalizedFrom (prev : SelectionRange) (rest : list SelectionRange)
  (i mainIndex : nat) : list SelectionRange * nat :=
  match rest with
  | [] => ([prev], mainIndex)
  | range :: rest' =>
      if (if rangeEmpty range then rangeFrom range <=? rangeTo prev
          else rangeFrom range <? rangeTo prev)
      then
        let from := rangeFrom prev in
        let to := Z.max (rangeTo range) (rangeTo prev) in
        normalizedFrom (if head range <? anchor range then mkRange to from else mkRange from to)
                       rest' i
                       (if (i <=? mainIndex)%nat then (mainIndex - 1)%nat else mainIndex)
      else
        let (l, m) := normalizedFrom range rest' (S i) mainIndex in (prev :: l, m)
  end.

(** The ranges with the main one marked, so that it can be found again
    after sorting ([ranges.indexOf(main)]). *)
Fixpoint tagMain (ranges : list SelectionRange) (i mainIndex : nat)
  : list (SelectionRange * bool) :=
  match ranges with
  | [] => []
  | r :: rest => (r, Nat.eqb i mainIndex) :: tagMain rest (S i) mainIndex
  end.

(** One step of the stable sort by [from]: [x] goes after the ranges that
    start at or before its start. *)
Fixpoint insertSorted (x : SelectionRange * bool) (l : list (SelectionRange * bool))
  : list (SelectionRange * bool) :=
  match l with
  | [] => [x]
  | y :: l' =>
      if rangeFrom (fst x) <? rangeFrom (fst y) then x :: l else y :: insertSorted x l'
  end.

(** [ranges.sort((a, b) => a.from - b.from)]. *)
Definition sortByFrom (l : list (SelectionRange * bool)) : list (SelectionRange * bool) :=
  fold_left (fun acc x => insertSorted x acc) l [].

Fixpoint indexOfMain (l : list (SelectionRange * bool)) (i : nat) : option nat :=
  match l with
  | [] => None
  | (_, true) :: _ => Some i
  | (_, false) :: l' => indexOfMain l' (S i)
  end.

(** [normalized(ranges, mainIndex)]: sort, find the main range again, merge.
    (A main index beyond the ranges, which the library does not expect, is
    left as it is.) *)
Definition normalized (ranges : list SelectionRange) (mainIndex : nat) : EditorSelection :=
  let sorted := sortByFrom (tagMain ranges 0 mainIndex) in
  let m := match indexOfMain sorted 0 with Some i => i | None => mainIndex end in
  match List.map fst sorted with
  | [] => mkSelection [] m
  | r :: rest => let (l, m') := normalizedFrom r rest 1 m in mkSelection l m'
  end.

(** The test of [EditorSelection.create]: some range starts before the end
    of the one before it, or an empty one at that end ([pos], at first 0). *)
Fixpoint needsNormalizing (ranges : list SelectionRange) (pos : Z) : bool :=
  match ranges with
  | [] => false
  | r :: rest =>
      if (if rangeEmpty r then rangeFrom r <=? pos else rangeFrom r <? pos) then true
      else needsNormalizing rest (rangeTo r)
  end.

(** [EditorSelection.create(ranges, mainIndex)].  The library refuses an
    empty list of ranges; every state has at least one range. *)
Definition createSelection (ranges : list SelectionRange) (mainIndex : nat) : EditorSelection :=
  if needsNormalizing ranges 0 then normalized ranges mainIndex
  else mkSelection ranges mainIndex.

Definition main (sel : EditorSelection) : SelectionRange :=
  nth (mainIndex sel) (ranges sel) (cursor 0).

(** [CloseBracketConfig]; both fields are optional. *)
Record CloseBracketConfig := mkConfig {
  brackets : option (list JS.str);
  before : option JS.str
}.

(** [defaults]: the brackets are the three openers [( [ {], the single quote
    and the double quote; [before] holds the three closers, both quotes,
    colon, semicolon and [>]. *)
Definition defaultBrackets : list JS.str := [[40]; [91]; [123]; [39]; [34]].
Definition defaultBefore : JS.str := [41; 93; 125; 39; 34; 58; 59; 62].
Definition defaults : CloseBracketConfig :=
  mkConfig (Some defaultBrackets) (Some defaultBefore).

Inductive CharCategory := Word | Space | Other.

Definition isWord (c : CharCategory) : bool :=
  match c with Word => true | _ => false end.

(** A syntax node: its bounds and, unless it is the top node, its parent. *)
Inductive SyntaxNode :=
| TopNode (nfrom nto : Z)
| ChildNode (nfrom nto : Z) (parent : SyntaxNode).

Definition nodeFrom (n : SyntaxNode) : Z :=
  match n with TopNode f _ => f | ChildNode f _ _ => f end.
Definition nodeTo (n : SyntaxNode) : Z :=
  match n with TopNode _ t => t | ChildNode _ t _ => t end.
Definition nodeParent (n : SyntaxNode) : option SyntaxNode :=
  match n with TopNode _ _ => None | ChildNode _ _ p => Some p end.

(** What the package asks of the editor configuration, as functions of the
    document: the first [closeBrackets] language data entry at a position,
    the syntax tree's [resolveInner(pos, side)], the character categorizer
    at a position, and whether the platform is Android. *)
Record Env := mkEnv {
  languageDataAt : JS.str -> Z -> option CloseBracketConfig;
  resolveInner : JS.str -> Z -> Z -> SyntaxNode;
  charCategorizer : JS.str -> Z -> JS.str -> CharCategory;
  android : bool
}.

(** The part of [EditorState] the package reads: document, selection, the
    read-only flag, and the value of the field [bracketState]. *)
Record EditorState := mkState {
  doc : JS.str;
  selection : EditorSelection;
  readOnly : bool;
  bracketState : RangeSet.t
}.

(** [state.sliceDoc(from, to)]. *)
Definition sliceDoc (state : EditorState) (from to : Z) : JS.str :=
  Text.sliceString (doc state) from to.

(* ================================================================== *)
(** ** State effects and transactions *)

Inductive StateEffect :=
| closeBracketEffect (value : Z)
| skipBracketEffect (value : Z).

(** The [map] function given to [StateEffect.define] for
    [closeBracketEffect]; [Deleted] stands for [undefined], which drops the
    effect. *)
Definition closeBracketEffect_map (value : Z) (mapping : Change.Set_) : Change.MapResult :=
  Change.mapPos mapping value (-1) Change.TrackAfter.

(** The [map] function of [skipBracketEffect]. *)
Definition skipBracketEffect_map (value : Z) (mapping : Change.Set_) : Change.MapResult :=
  Change.mapPos mapping value (-1) Change.Simple.

Inductive UserEvent := InputType | DeleteBackward.

(** A transaction on a given start state: its changes, the selection it
    sets (if any), its effects and annotations. *)
Record Transaction := mkTransaction {
  changes : Change.Set_;
  trSelection : option EditorSelection;
  effects : list StateEffect;
  scrollIntoView : bool;
  userEvent : option UserEvent
}.

(** [range.map(changes)]: an empty range is mapped with [assoc = -1], the
    start of another with [1] and its end with [-1]. *)
Definition mapSelectionRange (cs : Change.Set_) (r : SelectionRange) : option SelectionRange :=
  if rangeEmpty r then
    match Change.mapPos cs (rangeFrom r) (-1) Change.Simple with
    | Change.Mapped p => Some (cursor p)
    | _ => None
    end
  else
    match Change.mapPos cs (rangeFrom r) 1 Change.Simple,
          Change.mapPos cs (rangeTo r) (-1) Change.Simple with
    | Change.Mapped f, Change.Mapped t =>
        Some (if anchor r <=? head r then mkRange f t else mkRange t f)
    | _, _ => None
    end.

(** [StateEffect.mapEffects]: an effect whose [map] gives [undefined] is
    dropped; [None] when a position lies beyond the mapping. *)
Fixpoint mapEffects (effs : list StateEffect) (mapping : Change.Set_) : option (list StateEffect) :=
  match effs with
  | [] => Some []
  | closeBracketEffect v :: rest =>
      match closeBracketEffect_map v mapping, mapEffects rest mapping with
      | Change.Mapped v', Some rest' => Some (closeBracketEffect v' :: rest')
      | Change.Deleted, Some rest' => Some rest'
      | _, _ => None
      end
  | skipBracketEffect v :: rest =>
      match skipBracketEffect_map v mapping, mapEffects rest mapping with
      | Change.Mapped v', Some rest' => Some (skipBracketEffect v' :: rest')
      | _, _ => None
      end
  end.

(** What the callback given to [changeByRange] returns for one range:
    changes in the coordinates of the start document, effects and the new
    range in the coordinates of the document its own changes produce. *)
Record RangeResult := mkResult {
  rrChanges : list Change.Spec;
  rrEffects : list StateEffect;
  rrRange : SelectionRange
}.

(** [ranges[j] = ranges[j].map(newMapped)] for every [j]. *)
Fixpoint mapRanges (cs : Change.Set_) (rs : list SelectionRange)
  : option (list SelectionRange) :=
  match rs with
  | [] => Some []
  | r :: rest =>
      match mapSelectionRange cs r, mapRanges cs rest with
      | Some r', Some rest' => Some (r' :: rest')
      | _, _ => None
      end
  end.

(** The loop of [changeByRange] over the results of the second and later
    ranges: the changes of a range are mapped over the changes gathered so
    far and composed with them; the ranges and effects gathered so far are
    mapped through the new changes, the new range and effects through the
    changes gathered so far. *)
Fixpoint changeByRangeLoop (len : Z) (results : list RangeResult)
  (changes : Change.Set_) (ranges : list SelectionRange) (effects : list StateEffect)
  : option (Change.Set_ * list SelectionRange * list StateEffect) :=
  match results with
  | [] => Some (changes, ranges, effects)
  | result :: rest =>
      match Change.ofSpecs (rrChanges result) len with
      | None => None
      | Some newChanges =>
          match Change.map newChanges changes false, Change.mapDesc changes newChanges true with
          | Some newMapped, Some mapBy =>
              match mapRanges newMapped ranges, mapSelectionRange mapBy (rrRange result),
                    Change.compose changes newMapped,
                    mapEffects effects newMapped, mapEffects (rrEffects result) mapBy with
              | Some ranges', Some range', Some changes', Some effects1, Some effects2 =>
                  changeByRangeLoop len rest changes' (ranges' ++ [range'])
                                    (effects1 ++ effects2)
              | _, _, _, _, _ => None
              end
          | _, _ => None
          end
      end
  end.

(** [state.changeByRange(f)] followed by [state.update(..., annotations)].
    [None] when the library raises an error: a change or a position lies
    outside the document, or two change sets do not fit each other. *)
Definition changeByRange (state : EditorState) (f : SelectionRange -> RangeResult)
  (scroll : bool) (event : option UserEvent) : option Transaction :=
  match List.map f (ranges (selection state)) with
  | [] => None
  | result1 :: rest =>
      match Change.ofSpecs (rrChanges result1) (Text.length (doc state)) with
      | None => None
      | Some changes =>
          match changeByRangeLoop (Text.length (doc state)) rest changes
                                  [rrRange result1] (rrEffects result1) with
          | Some (cs, rs, effs) =>
              Some (mkTransaction cs
                      (Some (createSelection rs (mainIndex (selection state))))
                      effs scroll event)
          | None => None
          end
      end
  end.

(* ================================================================== *)
(** ** The field [bracketState] *)

(** [lineStart != tr.changes.mapPos(prevLineStart, -1)]. *)
Definition lineStartMoved (lineStart : Z) (mappedPrev : Change.MapResult) : bool :=
  match mappedPrev with
  | Change.Mapped p => negb (lineStart =? p)
  | _ => true
  end.

(** One turn of the loop over [tr.effects]. *)
Definition applyEffect (value : RangeSet.t) (effect : StateEffect) : RangeSet.t :=
  match effect with
  | closeBracketEffect v => RangeSet.add value (v, v + 1)
  | skipBracketEffect v => RangeSet.filter (fun from => negb (from =? v)) value
  end.

(** [bracketState.update(value, tr)], with [tr.startState] and the document
    of [tr.state] passed along. *)
Definition bracketState_update (value : RangeSet.t) (startState : EditorState)
  (tr : Transaction) (newDoc : JS.str) : RangeSet.t :=
  let value1 :=
    match trSelection tr with
    | Some sel =>
        let lineStart := Text.lineStart newDoc (head (main sel)) in
        let prevLineStart := Text.lineStart (doc startState) (head (main (selection startState))) in
        if lineStartMoved lineStart (Change.mapPos (changes tr) prevLineStart (-1) Change.Simple)
        then RangeSet.empty else value
    | None => value
    end in
  let value2 := RangeSet.map value1 (changes tr) in
  fold_left applyEffect (effects tr) value2.

(** [selection.map(changes)], for a transaction that sets no selection. *)
Definition mapSelection (cs : Change.Set_) (sel : EditorSelection) : EditorSelection :=
  createSelection
    (List.map (fun r => match mapSelectionRange cs r with Some r' => r' | None => r end)
              (ranges sel))
    (mainIndex sel).

(** [tr.state]: the state a transaction produces. *)
Definition applyTransaction (state : EditorState) (tr : Transaction) : EditorState :=
  let newDoc := Change.apply (changes tr) (doc state) in
  mkState newDoc
    (match trSelection tr with
     | Some sel => sel
     | None => mapSelection (changes tr) (selection state)
     end)
    (readOnly state)
    (bracketState_update (bracketState state) state tr newDoc).

(* ================================================================== *)
(** ** The package: [closebrackets.ts] *)

(** What a handler returns: a transaction, [null], or nothing at all because
    the editor library raised an error on the way (see [changeByRange]). *)
Inductive Result :=
| Ok (tr : Transaction)
| Null
| Failed.

(** What a per-range callback does: return a result, or store the range in
    [dont] and return it unchanged. *)
Inductive Outcome :=
| Handled (r : RangeResult)
| Dont (range : SelectionRange).

Definition isDont (o : Outcome) : bool :=
  match o with Dont _ => true | Handled _ => false end.

(** The object the callback returns to [changeByRange]. *)
Definition outcomeResult (o : Outcome) : RangeResult :=
  match o with
  | Handled r => r
  | Dont range => mkResult [] [] range
  end.

(** [dont ? null : state.update(changes, {scrollIntoView, userEvent})] for a
    callback [f] run over every range by [changeByRange]. *)
Definition updateByRange (state : EditorState) (f : SelectionRange -> Outcome)
  (event : option UserEvent) : Result :=
  if existsb (fun range => isDont (f range)) (ranges (selection state)) then Null
  else match changeByRange state (fun range => outcomeResult (f range)) true event with
       | Some tr => Ok tr
       | None => Failed
       end.

(** [config(state, pos)]. *)
Definition config (E : Env) (state : EditorState) (pos : Z) : CloseBracketConfig :=
  match languageDataAt E (doc state) pos with
  | Some conf => conf
  | None => defaults
  end.

(** [conf.brackets || defaults.brackets]. *)
Definition configBrackets (conf : CloseBracketConfig) : list JS.str :=
  match brackets conf with
  | Some toks => toks
  | None => defaultBrackets
  end.

(** [conf.before || defaults.before]; the empty string is falsy. *)
Definition configBefore (conf : CloseBracketConfig) : JS.str :=
  match before conf with
  | Some (c :: s) => c :: s
  | _ => defaultBefore
  end.

Definition closedBracketAt (state : EditorState) (pos : Z) : bool :=
  existsb (fun r => fst r =? pos)
          (RangeSet.between (bracketState state) 0 (Text.length (doc state))).

Definition nextChar (doc : JS.str) (pos : Z) : JS.str :=
  let next := Text.sliceString doc pos (pos + 2) in
  JS.slice next 0 (JS.codePointSize (JS.codePointAt next 0)).

Definition prevChar (doc : JS.str) (pos : Z) : JS.str :=
  let prev := Text.sliceString doc (pos - 2) pos in
  if JS.codePointSize (JS.codePointAt prev 0) =? JS.length prev then prev
  else JS.sliceFrom prev 1.

Definition insertAt (pos : Z) (text : JS.str) : Change.Spec := Change.mkSpec pos pos text.

(** [!next || /\s/.test(next) || closeBefore.indexOf(next) > -1]. *)
Definition closesBefore (closeBefore next : JS.str) : bool :=
  match next with
  | [] => true
  | _ => JS.testSpace next || (-1 <? JS.indexOf closeBefore next)
  end.

(** The callback of [handleOpen]. *)
Definition handleOpenRange (state : EditorState) (open close closeBefore : JS.str)
  (range : SelectionRange) : Outcome :=
  if negb (rangeEmpty range) then
    Handled (mkResult [insertAt (rangeFrom range) open; insertAt (rangeTo range) close]
                      [closeBracketEffect (rangeTo range + JS.length open)]
                      (mkRange (anchor range + JS.length open) (head range + JS.length open)))
  else
    let next := nextChar (doc state) (head range) in
    if closesBefore closeBefore next then
      Handled (mkResult [insertAt (head range) (open ++ close)]
                        [closeBracketEffect (head range + JS.length open)]
                        (cursor (head range + JS.length open)))
    else Dont range.

Definition handleOpen (state : EditorState) (open close closeBefore : JS.str) : Result :=
  updateByRange state (handleOpenRange state open close closeBefore) (Some InputType).

(** The callback of [handleClose]; it returns a range only. *)
Definition handleCloseRange (state : EditorState) (close : JS.str) (range : SelectionRange)
  : Outcome :=
  if rangeEmpty range && JS.eqb (nextChar (doc state) (head range)) close
  then Handled (mkResult [] [] (cursor (head range + JS.length close)))
  else Dont range.

Definition handleClose (state : EditorState) (_open close : JS.str) : Result :=
  let outcomes := List.map (handleCloseRange state close) (ranges (selection state)) in
  if existsb isDont outcomes then Null
  else Ok (mkTransaction
             (Change.emptySet (Text.length (doc state)))
             (Some (createSelection (List.map (fun o => rrRange (outcomeResult o)) outcomes)
                                    (mainIndex (selection state))))
             (List.map (fun range => skipBracketEffect (rangeFrom range))
                       (ranges (selection state)))
             true None).

Definition nodeStart (E : Env) (state : EditorState) (pos : Z) : bool :=
  let tree := resolveInner E (doc state) (pos + 1) 0 in
  match nodeParent tree with
  | Some _ => nodeFrom tree =? pos
  | None => false
  end.

(** The loop of [probablyInString], [fuel] turns left. *)
Fixpoint probablyInStringLoop (state : EditorState) (pos : Z) (quoteToken : JS.str)
  (node : SyntaxNode) (fuel : nat) : bool :=
  match fuel with
  | O => false
  | S fuel' =>
      if JS.eqb (sliceDoc state (nodeFrom node) (nodeFrom node + JS.length quoteToken)) quoteToken
      then true
      else if nodeTo node =? pos then
        match nodeParent node with
        | Some parent => probablyInStringLoop state pos quoteToken parent fuel'
        | None => false
        end
      else false
  end.

Definition probablyInString (E : Env) (state : EditorState) (pos : Z) (quoteToken : JS.str) : bool :=
  probablyInStringLoop state pos quoteToken (resolveInner E (doc state) pos (-1)) 5.

(** The callback of [handleSame]. *)
Definition handleSameRange (E : Env) (state : EditorState) (token : JS.str) (allowTriple : bool)
  (range : SelectionRange) : Outcome :=
  let len := JS.length token in
  if negb (rangeEmpty range) then
    Handled (mkResult [insertAt (rangeFrom range) token; insertAt (rangeTo range) token]
                      [closeBracketEffect (rangeTo range + len)]
                      (mkRange (anchor range + len) (head range + len)))
  else
    let pos := head range in
    let next := nextChar (doc state) pos in
    if JS.eqb next token then
      if nodeStart E state pos then
        Handled (mkResult [insertAt pos (token ++ token)]
                          [closeBracketEffect (pos + len)]
                          (cursor (pos + len)))
      else if closedBracketAt state pos then
        let isTriple := allowTriple &&
                        JS.eqb (sliceDoc state pos (pos + len * 3)) (token ++ token ++ token) in
        Handled (mkResult [] [skipBracketEffect pos]
                          (cursor (pos + len * (if isTriple then 3 else 1))))
      else Dont range
    else if allowTriple && JS.eqb (sliceDoc state (pos - 2 * len) pos) (token ++ token) &&
            nodeStart E state (pos - 2 * len) then
      Handled (mkResult [insertAt pos (token ++ token ++ token ++ token)]
                        [closeBracketEffect (pos + len)]
                        (cursor (pos + len)))
    else if negb (isWord (charCategorizer E (doc state) pos next)) then
      let prev := sliceDoc state (pos - 1) pos in
      if negb (JS.eqb prev token) && negb (isWord (charCategorizer E (doc state) pos prev)) &&
         negb (probablyInString E state pos token)
      then Handled (mkResult [insertAt pos (token ++ token)]
                             [closeBracketEffect (pos + len)]
                             (cursor (pos + len)))
      else Dont range
    else Dont range.

Definition handleSame (E : Env) (state : EditorState) (token : JS.str) (allowTriple : bool) : Result :=
  updateByRange state (handleSameRange E state token allowTriple) (Some InputType).

(** The loop of [insertBracket] over the tokens still to try. *)
Fixpoint insertBracketLoop (E : Env) (state : EditorState) (bracket : JS.str)
  (conf : CloseBracketConfig) (tokens rest : list JS.str) : Result :=
  match rest with
  | [] => Null
  | tok :: rest' =>
      let closed := closingOf tok in
      if JS.eqb bracket tok then
        if JS.eqb closed tok
        then handleSame E state tok (JS.arrayIncludes tokens (tok ++ tok ++ tok))
        else handleOpen state tok closed (configBefore conf)
      else if JS.eqb bracket closed &&
              closedBracketAt state (rangeFrom (main (selection state)))
      then handleClose state tok closed
      else insertBracketLoop E state bracket conf tokens rest'
  end.

Definition insertBracket (E : Env) (state : EditorState) (bracket : JS.str) : Result :=
  let conf := config E state (head (main (selection state))) in
  let tokens := configBrackets conf in
  insertBracketLoop E state bracket conf tokens tokens.

(** The part of [EditorView] the input handler reads. *)
Record EditorView := mkView {
  viewState : EditorState;
  composing : bool;
  compositionStarted : bool
}.

(** [view.dispatch(tr)]. *)
Definition dispatch (view : EditorView) (tr : Transaction) : EditorView :=
  mkView (applyTransaction (viewState view) tr) (composing view) (compositionStarted view).

(** [inputHandler]: the boolean it returns and the view afterwards; [None]
    when the library raised an error. *)
Definition inputHandler (E : Env) (view : EditorView) (from to : Z) (insert : JS.str)
  : option (bool * EditorView) :=
  if (if android E then composing view else compositionStarted view) ||
     readOnly (viewState view)
  then Some (false, view)
  else
    let sel := main (selection (viewState view)) in
    if (2 <? JS.length insert) ||
       ((JS.length insert =? 2) && (JS.codePointSize (JS.codePointAt insert 0) =? 1)) ||
       negb (from =? rangeFrom sel) || negb (to =? rangeTo sel)
    then Some (false, view)
    else match insertBracket E (viewState view) insert with
         | Null => Some (false, view)
         | Ok tr => Some (true, dispatch view tr)
         | Failed => None
         end.

(** The loop over [tokens] in the callback of [deleteBracketPair]. *)
Fixpoint deleteBracketPairLoop (state : EditorState) (range : SelectionRange)
  (before : JS.str) (tokens : list JS.str) : Outcome :=
  match tokens with
  | [] => Dont range
  | token :: rest =>
      if JS.eqb token before && JS.eqb (nextChar (doc state) (head range)) (closingOf token)
      then Handled (mkResult [Change.mkSpec (head range - JS.length token)
                                            (head range + JS.length token) []]
                             []
                             (cursor (head range - JS.length token)))
      else deleteBracketPairLoop state range before rest
  end.

(** The callback of [deleteBracketPair].  The [userEvent] property it puts
    in its result is not read by [changeByRange]. *)
Definition deleteBracketPairRange (state : EditorState) (tokens : list JS.str)
  (range : SelectionRange) : Outcome :=
  if rangeEmpty range
  then deleteBracketPairLoop state range (prevChar (doc state) (head range)) tokens
  else Dont range.

(** [deleteBracketPair]: the boolean it returns and the transaction it
    dispatched, if any; [None] when the library raised an error. *)
Definition deleteBracketPair (E : Env) (state : EditorState) : option (bool * option Transaction) :=
  if readOnly state then Some (false, None)
  else
    let conf := config E state (head (main (selection state))) in
    let tokens := configBrackets conf in
    match updateByRange state (deleteBracketPairRange state tokens) None with
    | Null => Some (false, None)
    | Ok tr => Some (true, Some tr)
    | Failed => None
    end.

(* ================================================================== *)
(** ** Change sets, transactions and states named in the statements *)

(** The change set [ChangeSet.of] builds for the one change that replaces
    [a, b) by [text] in a document of length [len]. *)
Definition singleChange (a b : Z) (text : JS.str) (len : Z) : Change.Set_ :=
  Change.emptySet a ++ [(b - a, Some text)] ++ Change.emptySet (len - b).

(** The transaction that inserts [text] at a sole caret [pos] of a document
    of length [len], leaves the caret at [caret] and asks for a mark there. *)
Definition insertTransaction (pos : Z) (text : JS.str) (len caret : Z) : Transaction :=
  mkTransaction (singleChange pos pos text len) (Some (mkSelection [cursor caret] 0))
                [closeBracketEffect caret] true (Some InputType).

(** The transaction that moves a sole caret from [pos] to [caret] and
    removes the mark at [pos]. *)
Definition skipTransaction (pos len caret : Z) : Transaction :=
  mkTransaction (Change.emptySet len) (Some (mkSelection [cursor caret] 0))
                [skipBracketEffect pos] true (Some InputType).

(** The transaction [handleClose] builds when it gives up no range. *)
Definition closeTransaction (state : EditorState) (close : JS.str) : Transaction :=
  mkTransaction
    (Change.emptySet (Text.length (doc state)))
    (Some (createSelection
             (List.map (fun range => cursor (head range + JS.length close))
                       (ranges (selection state)))
             (mainIndex (selection state))))
    (List.map skipBracketEffect (List.map rangeFrom (ranges (selection state))))
    true None.

(** The same state with another value of the read-only flag. *)
Definition setReadOnly (ro : bool) (state : EditorState) : EditorState :=
  mkState (doc state) (selection state) ro (bracketState state).

(* ================================================================== *)
(** ** What an edit does to a position, in the words of the specification *)

(** The edit deletes (or replaces) the character at [pos]: some replaced
    section [posA, posA + len) contains it. *)
Fixpoint charDeletedFrom (cs : Change.Set_) (posA pos : Z) : bool :=
  match cs with
  | [] => false
  | (len, None) :: rest => charDeletedFrom rest (posA + len) pos
  | (len, Some _) :: rest =>
      ((posA <=? pos) && (pos <? posA + len)) || charDeletedFrom rest (posA + len) pos
  end.

Definition charDeleted (cs : Change.Set_) (pos : Z) : bool := charDeletedFrom cs 0 pos.

(** The length added by the changes strictly before [pos]: those that start
    before [pos] and end at or before it.  Text inserted exactly at [pos]
    does not count. *)
Fixpoint shiftBeforeFrom (cs : Change.Set_) (posA pos : Z) : Z :=
  match cs with
  | [] => 0
  | (len, None) :: rest => shiftBeforeFrom rest (posA + len) pos
  | (len, Some text) :: rest =>
      (if (posA <? pos) && (posA + len <=? pos) then JS.length text - len else 0)
      + shiftBeforeFrom rest (posA + len) pos
  end.

Definition shiftBefore (cs : Change.Set_) (pos : Z) : Z := shiftBeforeFrom cs 0 pos.

(** The length of the document a change set applies to. *)
Fixpoint lengthBefore (cs : Change.Set_) : Z :=
  match cs with
  | [] => 0
  | (len, _) :: rest => len + lengthBefore rest
  end.

(** A change set whose changes do not touch each other: kept sections are
    not empty, and kept and replaced sections alternate. *)
Fixpoint separated (cs : Change.Set_) : bool :=
  match cs with
  | [] => true
  | (len, None) :: rest => (0 <? len) && separated rest
  | (len, Some _) :: rest =>
      (0 <=? len) &&
      match rest with
      | (_, Some _) :: _ => false
      | _ => separated rest
      end
  end.

(* ================================================================== *)
(** ** Change sets that only insert, and change sets that only delete *)

(** [Q len ins] holds of every section [(len, ins)] of [cs]. *)
Definition sectionsAll (Q : Z -> option JS.str -> Prop) (cs : list Change.Sect) : Prop :=
  forall len ins, In (len, ins) cs -> Q len ins.

(** No section replaces text of the document: a section that has inserted
    text covers nothing. *)
Definition insertsOnly (cs : list Change.Sect) : Prop :=
  sectionsAll (fun len ins => 0 <= len /\ (ins <> None -> len = 0)) cs.

(** No section inserts text. *)
Definition deletesOnly (cs : list Change.Sect) : Prop :=
  sectionsAll (fun len ins => 0 <= len /\ forall text, ins = Some text -> text = []) cs.

(** The same of the section an iterator is at and of those still to come. *)
Definition insertsOnlyFrom (it : Change.Iter) : Prop :=
  0 <= Change.curLen it /\ (Change.curIns it <> -1 -> Change.curLen it = 0) /\
  insertsOnly (Change.later it).

Definition deletesOnlyFrom (it : Change.Iter) : Prop :=
  0 <= Change.curLen it /\ Change.curText it = [] /\ deletesOnly (Change.later it).

(* ================================================================== *)
(** ** How much the loops over sections have still to do *)




(* ================================================================== *)
(** ** Ancestors of a syntax node *)

(** The node reached from [node] by following [parent] [k] times, if the
    tree is that deep. *)
Fixpoint ancestor (k : nat) (node : SyntaxNode) : option SyntaxNode :=
  match k with
  | O => Some node
  | S k' =>
      match nodeParent node with
      | Some parent => ancestor k' parent
      | None => None
      end
  end.

(* ================================================================== *)
(** ** Example editors and states *)

(** The default categorizer on the characters of the examples: white space
    (or nothing) is [Space], ASCII letters, digits and [_] are [Word]. *)
Definition asciiCategory (char : JS.str) : CharCategory :=
  if negb (existsb (fun c => negb (JS.isSpaceUnit c)) char) then Space
  else if existsb (fun c => ((48 <=? c) && (c <=? 57)) || ((65 <=? c) && (c <=? 90)) ||
                            ((97 <=? c) && (c <=? 122)) || (c =? 95)) char then Word
  else Other.

(** No language data (so [defaults] apply), a syntax tree that is its top
    node only, not on Android. *)
Definition plainEnv : Env :=
  mkEnv (fun _ _ => None)
        (fun d _ _ => TopNode 0 (JS.length d))
        (fun _ _ => asciiCategory)
        false.

(** A language with the double quote and the triple double quote as
    brackets, whose syntax tree is one node over the whole document, below
    the top node: position 0 is a node start. *)
Definition oneNodeEnv : Env :=
  mkEnv (fun _ _ => Some (mkConfig (Some [[34]; [34; 34; 34]]) None))
        (fun d _ _ => ChildNode 0 (JS.length d) (TopNode 0 (JS.length d)))
        (fun _ _ => asciiCategory)
        false.

(** The same brackets, and a syntax tree that has a node over a document of
    two code units, found from position 1, and only its top node otherwise:
    position 0 becomes a node start once two quotes stand there. *)
Definition freshNodeEnv : Env :=
  mkEnv (fun _ _ => Some (mkConfig (Some [[34]; [34; 34; 34]]) None))
        (fun d pos _ =>
           if (JS.length d =? 2) && (pos =? 1)
           then ChildNode 0 2 (TopNode 0 2)
           else TopNode 0 (JS.length d))
        (fun _ _ => asciiCategory)
        false.

(** The empty document with the caret at its start. *)
Definition emptyDoc : EditorState :=
  mkState [] (mkSelection [cursor 0] 0) false [].

(** The empty document, read-only, with the caret at its start. *)
Definition emptyReadOnly : EditorState :=
  mkState [] (mkSelection [cursor 0] 0) true [].

(** The document [ab] with the caret at its end. *)
Definition caretAfterAb : EditorState :=
  mkState [97; 98] (mkSelection [cursor 2] 0) false [].

(** Typing [(] there. *)
Definition openParenAfterAb : Transaction :=
  mkTransaction [(2, None); (0, Some [40; 41])] (Some (mkSelection [cursor 3] 0))
                [closeBracketEffect 3] true (Some InputType).

(** The document [()] after [(] was typed: the caret between the two, the
    closer tracked. *)
Definition openedParen : EditorState :=
  mkState [40; 41] (mkSelection [cursor 1] 0) false [(1, 2)].

(** Typing the letter [a] at the caret of [openedParen]. *)
Definition typeLetter : Transaction :=
  mkTransaction (singleChange 1 1 [97] 2) (Some (mkSelection [cursor 2] 0)) []
                true (Some InputType).

(** The document [() )] with the first closer tracked, the main caret before
    it and a second caret before the other, untracked closer. *)
Definition twoClosers : EditorState :=
  mkState [40; 41; 32; 41] (mkSelection [cursor 1; cursor 3] 0) false [(1, 2)].

(** The document [() ()] with both closers tracked and the caret before the
    first. *)
Definition twoPairs : EditorState :=
  mkState [40; 41; 32; 40; 41] (mkSelection [cursor 1] 0) false [(1, 2); (4, 5)].

(** [twoPairs] after the first closer was skipped over. *)
Definition afterFirstSkip : EditorState :=
  mkState [40; 41; 32; 40; 41] (mkSelection [cursor 2] 0) false [(4, 5)].

(** The user puts a caret before each closer, the main one before the
    second. *)
Definition placeCarets : Transaction :=
  mkTransaction [(5, None)] (Some (mkSelection [cursor 1; cursor 4] 1)) [] false None.

(** Two lines, [a] and [b], with the caret at the start of the first and a
    mark recorded at position 1. *)
Definition twoLines : EditorState :=
  mkState [97; 10; 98] (mkSelection [cursor 0] 0) false [(1, 2)].

(** A transaction on [twoLines] that only moves the caret to position [pos]. *)
Definition moveCaret (pos : Z) : Transaction :=
  mkTransaction [(3, None)] (Some (mkSelection [cursor pos] 0)) [] false None.

(** Two double quotes with the caret after them. *)
Definition twoQuotes : EditorState :=
  mkState [34; 34] (mkSelection [cursor 2] 0) false [].

(** Three double quotes with a caret after the first and one after the
    second: each caret stands between two quotes, and the two pairs share
    the quote in the middle. *)
Definition threeQuotes : EditorState :=
  mkState [34; 34; 34] (mkSelection [cursor 1; cursor 2] 0) false [].


(** The document [a"bc] with the quote tracked, a caret before the quote and
    the selected text ["b] from the same position on. *)
Definition caretAndRange : EditorState :=
  mkState [97; 34; 98; 99] (mkSelection [cursor 1; mkRange 1 3] 0) false [(1, 2)].
(* ================================================================== *)
(** * Properties *)

(** ** Strings and slices *)

Lemma eqb_eq (a b : JS.str) : JS.eqb a b = true <-> a = b.
Proof.
  revert b; induction a as [|x a IH]; intros [|y b]; simpl; split;
    try congruence; try reflexivity.
  - intros H. apply andb_true_iff in H as [Hx Hab].
    apply Z.eqb_eq in Hx. apply IH in Hab. congruence.
  - intros H. injection H as -> ->. rewrite Z.eqb_refl. simpl. now apply IH.
Qed.

Lemma eqb_refl (a : JS.str) : JS.eqb a a = true.
Proof. now apply eqb_eq. Qed.

Lemma eqb_neq (a b : JS.str) : JS.eqb a b = false <-> a <> b.
Proof.
  split.
  - intros H E. apply eqb_eq in E. congruence.
  - intros H. destruct (JS.eqb a b) eqn:E; [|reflexivity].
    apply eqb_eq in E. contradiction.
Qed.

Lemma length_nonneg (s : JS.str) : 0 <= JS.length s.
Proof. unfold JS.length. lia. Qed.

Lemma length_app (a b : JS.str) : JS.length (a ++ b) = JS.length a + JS.length b.
Proof. unfold JS.length. rewrite List.length_app. lia. Qed.

Lemma length_cons (x : Z) (a : JS.str) : JS.length (x :: a) = 1 + JS.length a.
Proof. unfold JS.length. simpl List.length. lia. Qed.

Lemma length_nil : JS.length [] = 0.
Proof. reflexivity. Qed.

Lemma length_zero (s : JS.str) : JS.length s = 0 -> s = [].
Proof. destruct s; [reflexivity|]. rewrite length_cons. pose proof (length_nonneg s). lia. Qed.

Lemma sliceString_length (d : JS.str) (f t : Z) :
  JS.length (Text.sliceString d f t) <= Z.max 0 (t - Z.max 0 f).
Proof.
  unfold Text.sliceString, JS.length. rewrite List.length_firstn. lia.
Qed.

(** The text between the ends of [pre] and of [pre ++ s]. *)
Lemma sliceString_mid (pre s post : JS.str) :
  Text.sliceString (pre ++ s ++ post) (JS.length pre) (JS.length pre + JS.length s) = s.
Proof.
  unfold Text.sliceString, JS.length.
  rewrite Z.max_r by lia. rewrite Nat2Z.id.
  rewrite skipn_app, Nat.sub_diag, skipn_all, skipn_O. simpl.
  replace (Z.to_nat _) with (List.length s) by lia.
  rewrite firstn_app, Nat.sub_diag, firstn_all, firstn_O. apply app_nil_r.
Qed.

(** Splitting a document at a position inside it. *)
Lemma split_at (d : JS.str) (p : Z) :
  0 <= p <= JS.length d ->
  d = firstn (Z.to_nat p) d ++ skipn (Z.to_nat p) d /\
  JS.length (firstn (Z.to_nat p) d) = p.
Proof.
  intros H. split; [symmetry; apply firstn_skipn|].
  unfold JS.length in *. rewrite List.length_firstn. lia.
Qed.

(** ** The characters next to a position *)

Lemma sliceString_app_r (pre rest : JS.str) (a b : Z) :
  0 <= a ->
  Text.sliceString (pre ++ rest) (JS.length pre + a) (JS.length pre + b) =
  Text.sliceString rest a b.
Proof.
  intros Ha. unfold Text.sliceString, JS.length.
  rewrite !Z.max_r by lia.
  replace (Z.to_nat (Z.of_nat (List.length pre) + a))
    with (Z.to_nat a + List.length pre)%nat by lia.
  rewrite <- skipn_skipn, skipn_app, Nat.sub_diag, skipn_all, skipn_O. simpl.
  f_equal. lia.
Qed.

Lemma sliceString_app_l (pre rest : JS.str) (a b : Z) :
  b <= JS.length pre ->
  Text.sliceString (pre ++ rest) a b = Text.sliceString pre a b.
Proof.
  intros Hb. unfold Text.sliceString, JS.length in *.
  assert (Hn : (Z.to_nat (b - Z.max 0 a) + Z.to_nat (Z.max 0 a) <= List.length pre)%nat \/
               Z.to_nat (b - Z.max 0 a) = 0%nat) by lia.
  set (f := Z.to_nat (Z.max 0 a)) in *. set (n := Z.to_nat (b - Z.max 0 a)) in *.
  destruct Hn as [Hn | Hn]; [|rewrite Hn; reflexivity].
  rewrite skipn_app, firstn_app, List.length_skipn.
  replace (n - (List.length pre - f))%nat with 0%nat by lia.
  rewrite firstn_O. apply app_nil_r.
Qed.

Lemma nextChar_app (pre rest : JS.str) :
  nextChar (pre ++ rest) (JS.length pre) = nextChar rest 0.
Proof.
  unfold nextChar.
  pose proof (sliceString_app_r pre rest 0 2 ltac:(lia)) as H.
  rewrite Z.add_0_r in H. rewrite H. reflexivity.
Qed.

Lemma prevChar_app (pre rest : JS.str) :
  prevChar (pre ++ rest) (JS.length pre) = prevChar pre (JS.length pre).
Proof.
  unfold prevChar. now rewrite sliceString_app_l by lia.
Qed.

(** At or after the end of the document there is no next character. *)
Lemma nextChar_end (d : JS.str) (p : Z) : JS.length d <= p -> nextChar d p = [].
Proof.
  intros H. unfold nextChar, Text.sliceString, JS.length in *.
  rewrite skipn_all2 by lia. now rewrite firstn_nil.
Qed.

Lemma codePointSize_cases (x : option Z) :
  JS.codePointSize x = 1 \/ JS.codePointSize x = 2.
Proof. destruct x as [c|]; simpl; [destruct (c <? 65536)|]; auto. Qed.

Lemma slice_0 (s : JS.str) (k : Z) : 0 <= k -> JS.slice s 0 k = firstn (Z.to_nat k) s.
Proof.
  intros Hk. unfold JS.slice, JS.relIndex.
  pose proof (length_nonneg s) as Hs.
  change (0 <? 0) with false. cbv iota. destruct (Z.ltb_spec k 0); [lia|].
  rewrite (Z.min_l 0) by lia. rewrite skipn_O, Z.sub_0_r.
  destruct (Z_le_gt_dec k (JS.length s)).
  - now rewrite Z.min_l by lia.
  - rewrite Z.min_r by lia. unfold JS.length in *.
    rewrite Nat2Z.id, firstn_all. symmetry. apply firstn_all2. lia.
Qed.

Lemma nextChar_0 (rest : JS.str) :
  nextChar rest 0 =
  firstn (Z.to_nat (JS.codePointSize (JS.codePointAt (firstn 2 rest) 0))) (firstn 2 rest).
Proof.
  unfold nextChar. change (Text.sliceString rest 0 (0 + 2)) with (firstn 2 rest).
  apply slice_0. destruct (codePointSize_cases (JS.codePointAt (firstn 2 rest) 0)); lia.
Qed.



(** A code unit that does not start a surrogate pair is the next character. *)
Lemma nextChar_unit (pre post : JS.str) (c : Z) :
  0 <= c < 65536 -> JS.surrogateHigh c = false ->
  nextChar (pre ++ c :: post) (JS.length pre) = [c].
Proof.
  intros Hc Hh. rewrite nextChar_app, nextChar_0.
  assert (E : JS.codePointAt (firstn 2 (c :: post)) 0 = Some c).
  { unfold JS.codePointAt. destruct post; cbn [firstn JS.charCodeAt Z.ltb Z.compare Z.to_nat nth_error];
      rewrite Hh; reflexivity. }
  rewrite E. unfold JS.codePointSize.
  destruct (Z.ltb_spec c 65536); [|lia]. destruct post; reflexivity.
Qed.


(** The previous character never holds more than one code point. *)
Lemma prevChar_one_code_point (d : JS.str) (p : Z) :
  JS.length (prevChar d p) <= JS.codePointSize (JS.codePointAt (prevChar d p) 0).
Proof.
  unfold prevChar.
  pose proof (sliceString_length d (p - 2) p) as Hlen.
  set (prev := Text.sliceString d (p - 2) p) in *.
  assert (H2 : JS.length prev <= 2) by lia. clearbody prev. clear Hlen.
  destruct prev as [|a [|b [|c l]]].
  - vm_compute. discriminate.
  - destruct (codePointSize_cases (JS.codePointAt [a] 0)) as [E | E]; rewrite E.
    + change (1 =? JS.length [a]) with true. cbv iota. rewrite E. reflexivity.
    + change (2 =? JS.length [a]) with false. cbv iota.
      change (JS.sliceFrom [a] 1) with (@nil Z). vm_compute. discriminate.
  - destruct (codePointSize_cases (JS.codePointAt [a; b] 0)) as [E | E]; rewrite E.
    + change (1 =? JS.length [a; b]) with false. cbv iota.
      change (JS.sliceFrom [a; b] 1) with [b].
      change (JS.length [b]) with 1.
      destruct (codePointSize_cases (JS.codePointAt [b] 0)) as [-> | ->]; lia.
    + change (2 =? JS.length [a; b]) with true. cbv iota. rewrite E. reflexivity.
  - rewrite !length_cons in H2. pose proof (length_nonneg l). lia.
Qed.

Lemma deleteBracketPairLoop_handled (state : EditorState) (range : SelectionRange)
  (before : JS.str) (tokens : list JS.str) (r : RangeResult) :
  deleteBracketPairLoop state range before tokens = Handled r ->
  exists token, In token tokens /\ token = before /\
    nextChar (doc state) (head range) = closingOf token /\
    r = mkResult [Change.mkSpec (head range - JS.length token) (head range + JS.length token) []]
                 [] (cursor (head range - JS.length token)).
Proof.
  induction tokens as [|tok rest IH]; simpl; [discriminate|].
  destruct (JS.eqb tok before && JS.eqb (nextChar (doc state) (head range)) (closingOf tok)) eqn:E.
  - intros H. injection H as <-. apply andb_true_iff in E as [E1 E2].
    apply eqb_eq in E1, E2. exists tok. auto.
  - intros H. destruct (IH H) as [token [Hin Hrest]]. exists token. auto.
Qed.

(** ** Change sets made of one change *)

(** The change set of one change [a, b) -> text: the text before is kept,
    the range is replaced, the text after is kept. *)
Lemma ofSpecs_single (len a b : Z) (text : JS.str) :
  0 <= a <= b -> b <= len -> (a < b \/ text <> []) ->
  Change.ofSpecs [Change.mkSpec a b text] len =
  Some (Change.emptySet a ++ [(b - a, Some text)] ++ Change.emptySet (len - b)).
Proof.
  intros Hab Hb Hne.
  unfold Change.ofSpecs, Change.ofFrom. cbn [Change.from Change.to Change.insert].
  destruct (Z.ltb_spec b a); [lia|]. destruct (Z.ltb_spec a 0); [lia|].
  destruct (Z.ltb_spec len b); [lia|]. cbn [orb].
  assert (Hskip : (a =? b) && (JS.length text =? 0) = false).
  { destruct (Z.eqb_spec a b); [|reflexivity]. cbn [andb].
    destruct (Z.eqb_spec (JS.length text) 0) as [E|]; [|reflexivity].
    apply length_zero in E. destruct Hne; [lia|contradiction]. }
  rewrite Hskip.
  assert (Hadd : forall rev, (forall l r, rev <> (l, Some []) :: r) ->
            (forall t r, rev <> (0, Some t) :: r) ->
            Change.addSection rev (b - a) (Some text) = (b - a, Some text) :: rev).
  { intros rev Hr1 Hr2. unfold Change.addSection.
    replace ((b - a =? 0) && (JS.length text =? 0)) with false.
    2:{ symmetry. rewrite <- Hskip. f_equal. destruct (Z.eqb_spec a b), (Z.eqb_spec (b - a) 0); auto; lia. }
    destruct rev as [|[l [t'|]] r]; try reflexivity.
    destruct (Z.eqb_spec (JS.length text) 0) as [Et|]; cbn [andb].
    - destruct (Z.eqb_spec (JS.length t') 0) as [Et'|].
      + apply length_zero in Et'. subst t'. exfalso. now apply (Hr1 l r).
      + destruct (Z.eqb_spec (b - a) 0); [|reflexivity]. cbn [andb].
        destruct (Z.eqb_spec l 0); [|reflexivity]. subst l. exfalso. now apply (Hr2 t' r).
    - destruct (Z.eqb_spec (b - a) 0); [|reflexivity]. cbn [andb].
      destruct (Z.eqb_spec l 0); [|reflexivity]. subst l. exfalso. now apply (Hr2 t' r). }
  assert (Hkeep : forall rev n, 0 < n -> (forall l r, rev <> (l, None) :: r) ->
            Change.addSection rev n None = (n, None) :: rev).
  { intros rev n Hn Hr. unfold Change.addSection.
    destruct (Z.eqb_spec n 0); [lia|].
    destruct rev as [|[l [t'|]] r]; try reflexivity. exfalso. now apply (Hr l r). }
  unfold Change.emptySet. rewrite Z.sub_0_r.
  destruct (Z.ltb_spec 0 a) as [Ha | Ha].
  - destruct (Z.eqb_spec a 0); [lia|].
    rewrite (Hkeep _ a) by (try lia; intros ? ?; discriminate).
    rewrite Hadd by (intros ? ?; discriminate).
    destruct (Z.ltb_spec b len), (Z.eqb_spec (len - b) 0); try lia; try reflexivity.
    rewrite Hkeep by (try lia; intros ? ?; discriminate). reflexivity.
  - assert (a = 0) by lia. subst a. cbn [Z.eqb].
    rewrite Hadd by (intros ? ?; discriminate).
    destruct (Z.ltb_spec b len), (Z.eqb_spec (len - b) 0); try lia; try reflexivity.
    rewrite Hkeep by (try lia; intros ? ?; discriminate). reflexivity.
Qed.

(** No change at all. *)
Lemma ofSpecs_nil (len : Z) : 0 <= len -> Change.ofSpecs [] len = Some (Change.emptySet len).
Proof.
  intros H. unfold Change.ofSpecs, Change.ofFrom, Change.emptySet, Change.addSection.
  rewrite Z.sub_0_r.
  destruct (Z.ltb_spec 0 len), (Z.eqb_spec len 0); try lia; reflexivity.
Qed.


Lemma apply_emptySet_app (n : Z) (cs : Change.Set_) (d : JS.str) :
  Change.apply (Change.emptySet n ++ cs) d =
  firstn (Z.to_nat n) d ++ Change.apply cs (skipn (Z.to_nat n) d).
Proof.
  unfold Change.emptySet. destruct (Z.eqb_spec n 0) as [-> | Hn]; reflexivity.
Qed.

Lemma apply_emptySet (d : JS.str) : Change.apply (Change.emptySet (JS.length d)) d = d.
Proof.
  rewrite <- (app_nil_r (Change.emptySet _)), apply_emptySet_app.
  unfold JS.length. rewrite Nat2Z.id, firstn_all. apply app_nil_r.
Qed.

(** Applying one change replaces the range by the text. *)
Lemma apply_single (d : JS.str) (a b : Z) (text : JS.str) :
  0 <= a <= b -> b <= JS.length d ->
  Change.apply (Change.emptySet a ++ [(b - a, Some text)] ++ Change.emptySet (JS.length d - b)) d =
  firstn (Z.to_nat a) d ++ text ++ skipn (Z.to_nat b) d.
Proof.
  intros Hab Hb. rewrite apply_emptySet_app. f_equal.
  cbn [app Change.apply]. f_equal.
  rewrite skipn_skipn. replace (Z.to_nat (b - a) + Z.to_nat a)%nat with (Z.to_nat b) by lia.
  rewrite <- (app_nil_r (Change.emptySet _)), apply_emptySet_app. cbn [Change.apply].
  rewrite app_nil_r. apply firstn_all2. unfold JS.length. rewrite List.length_skipn. lia.
Qed.

(** ** Transactions on a selection of one range *)

(** A selection of one range needs no merging. *)
Lemma createSelection_single (r : SelectionRange) (m : nat) :
  createSelection [r] m = mkSelection [r] m.
Proof.
  unfold createSelection. destruct (needsNormalizing [r] 0); [|reflexivity].
  unfold normalized, sortByFrom.
  cbn [tagMain fold_left insertSorted indexOfMain List.map fst normalizedFrom].
  destruct m; reflexivity.
Qed.

Lemma updateByRange_single (state : EditorState) (f : SelectionRange -> Outcome)
  (event : option UserEvent) (range : SelectionRange) :
  ranges (selection state) = [range] ->
  updateByRange state f event =
  match f range with
  | Dont _ => Null
  | Handled r =>
      match Change.ofSpecs (rrChanges r) (Text.length (doc state)) with
      | Some cs => Ok (mkTransaction cs
                         (Some (mkSelection [rrRange r] (mainIndex (selection state))))
                         (rrEffects r) true event)
      | None => Failed
      end
  end.
Proof.
  intros Hr. unfold updateByRange, changeByRange. rewrite Hr.
  cbn [existsb List.map changeByRangeLoop orb].
  destruct (f range) as [r | r0]; cbn [isDont outcomeResult]; [|reflexivity].
  destruct (Change.ofSpecs (rrChanges r) (Text.length (doc state))); [|reflexivity].
  now rewrite createSelection_single.
Qed.

(** A batch is given up as soon as the callback gives up one range. *)
Lemma updateByRange_dont (state : EditorState) (f : SelectionRange -> Outcome)
  (event : option UserEvent) (range : SelectionRange) :
  In range (ranges (selection state)) -> isDont (f range) = true ->
  updateByRange state f event = Null.
Proof.
  intros Hin Hd. unfold updateByRange.
  replace (existsb _ _) with true; [reflexivity|].
  symmetry. apply existsb_exists. exists range. auto.
Qed.

Lemma updateByRange_not_null (state : EditorState) (f : SelectionRange -> Outcome)
  (event : option UserEvent) :
  (forall range, In range (ranges (selection state)) -> isDont (f range) = false) ->
  updateByRange state f event <> Null.
Proof.
  intros H. unfold updateByRange.
  replace (existsb _ _) with false.
  - destruct (changeByRange _ _ _ _); discriminate.
  - symmetry. apply not_true_is_false. intros E.
    apply existsb_exists in E as [range [Hin Hd]]. rewrite (H range Hin) in Hd. discriminate.
Qed.

(** ** Marks *)

Lemma add_In (rs : RangeSet.t) (r x : Z * Z) :
  In x (RangeSet.add rs r) <-> x = r \/ In x rs.
Proof.
  induction rs as [|y rs IH]; simpl.
  - intuition.
  - destruct (fst r <? fst y); simpl; rewrite ?IH; intuition.
Qed.

Lemma closedBracketAt_iff (state : EditorState) (pos : Z) :
  closedBracketAt state pos = true <->
  exists to, In (pos, to) (bracketState state) /\ pos <= Text.length (doc state) /\ 0 <= to.
Proof.
  unfold closedBracketAt, RangeSet.between. rewrite existsb_exists. split.
  - intros [[f t] [Hin Hf]]. apply filter_In in Hin as [Hin Hb].
    simpl in *. apply Z.eqb_eq in Hf. subst f.
    apply andb_true_iff in Hb as [H1 H2]. exists t. repeat split; [assumption|lia|lia].
  - intros [t [Hin [H1 H2]]]. exists (pos, t). split; [|apply Z.eqb_refl].
    apply filter_In. split; [assumption|]. simpl. apply andb_true_iff. split; lia.
Qed.

(** After [closeBracketEffect v], the last effect of a transaction, position
    [v] holds a mark. *)
Lemma closedBracketAt_added (d : JS.str) (sel : EditorSelection) (ro : bool)
  (rs : RangeSet.t) (v : Z) :
  0 <= v <= Text.length d ->
  closedBracketAt (mkState d sel ro (applyEffect rs (closeBracketEffect v))) v = true.
Proof.
  intros Hv. apply closedBracketAt_iff. exists (v + 1). cbn [bracketState doc applyEffect].
  split; [|lia]. apply add_In. now left.
Qed.

(** After [skipBracketEffect v] no mark starts at [v]. *)
Lemma closedBracketAt_skipped (d : JS.str) (sel : EditorSelection) (ro : bool)
  (rs : RangeSet.t) (v : Z) :
  closedBracketAt (mkState d sel ro (applyEffect rs (skipBracketEffect v))) v = false.
Proof.
  apply not_true_is_false. intros H. apply closedBracketAt_iff in H as [t [Hin _]].
  cbn [bracketState applyEffect] in Hin. unfold RangeSet.filter in Hin.
  apply filter_In in Hin as [_ Hf]. simpl in Hf. rewrite Z.eqb_refl in Hf. discriminate.
Qed.

(** ** Opening an asymmetric pair *)

Lemma closesBefore_iff (closeBefore next : JS.str) :
  closesBefore closeBefore next = true <->
  next = [] \/ JS.testSpace next = true \/ -1 < JS.indexOf closeBefore next.
Proof.
  unfold closesBefore. destruct next as [|c next].
  - intuition.
  - rewrite orb_true_iff, Z.ltb_lt. intuition discriminate.
Qed.



(** ** Skipping over a closer *)

Lemma fold_skips (vs : list Z) (rs : RangeSet.t) (x : Z * Z) :
  In x (fold_left applyEffect (List.map skipBracketEffect vs) rs) <->
  In x rs /\ ~ In (fst x) vs.
Proof.
  revert rs; induction vs as [|v vs IH]; intros rs; cbn [List.map fold_left].
  - simpl. tauto.
  - rewrite IH. cbn [applyEffect]. unfold RangeSet.filter. rewrite filter_In.
    rewrite negb_true_iff, Z.eqb_neq. simpl. intuition.
Qed.

(** A transaction whose effects are skips leaves no mark at a skipped
    position. *)
Lemma skips_remove_marks (state : EditorState) (tr : Transaction) (vs : list Z) (v : Z) :
  effects tr = List.map skipBracketEffect vs -> In v vs ->
  closedBracketAt (applyTransaction state tr) v = false.
Proof.
  intros He Hin. apply not_true_is_false. intros Hm.
  apply closedBracketAt_iff in Hm as [t [Hm _]].
  unfold applyTransaction in Hm. cbn [bracketState] in Hm.
  unfold bracketState_update in Hm. rewrite He in Hm.
  apply fold_skips in Hm as [_ Hm]. now apply Hm.
Qed.

Lemma handleCloseRange_handled (state : EditorState) (close : JS.str) (range : SelectionRange) :
  rangeEmpty range = true -> nextChar (doc state) (head range) = close ->
  handleCloseRange state close range =
  Handled (mkResult [] [] (cursor (head range + JS.length close))).
Proof.
  intros He Hn. unfold handleCloseRange. now rewrite He, Hn, eqb_refl.
Qed.

Lemma handleCloseRange_dont (state : EditorState) (close : JS.str) (range : SelectionRange) :
  rangeEmpty range = false \/ nextChar (doc state) (head range) <> close ->
  handleCloseRange state close range = Dont range.
Proof.
  intros H. unfold handleCloseRange.
  destruct (rangeEmpty range); [|reflexivity]. cbn [andb].
  destruct H as [H | H]; [discriminate|]. apply eqb_neq in H. now rewrite H.
Qed.

Lemma handleCloseRange_cases (state : EditorState) (close : JS.str) (range : SelectionRange) :
  (rangeEmpty range = true /\ nextChar (doc state) (head range) = close /\
   handleCloseRange state close range =
     Handled (mkResult [] [] (cursor (head range + JS.length close)))) \/
  ((rangeEmpty range = false \/ nextChar (doc state) (head range) <> close) /\
   handleCloseRange state close range = Dont range).
Proof.
  destruct (rangeEmpty range) eqn:He.
  - destruct (JS.eqb (nextChar (doc state) (head range)) close) eqn:Hn.
    + apply eqb_eq in Hn. left. split; [reflexivity|]. split; [assumption|].
      now apply handleCloseRange_handled.
    + apply eqb_neq in Hn. right. split; [now right|].
      apply handleCloseRange_dont. now right.
  - right. split; [now left|]. apply handleCloseRange_dont. now left.
Qed.

Lemma handleClose_ok (state : EditorState) (open close : JS.str) :
  (forall range, In range (ranges (selection state)) ->
     rangeEmpty range = true /\ nextChar (doc state) (head range) = close) ->
  handleClose state open close = Ok (closeTransaction state close).
Proof.
  intros Hall. unfold handleClose, closeTransaction.
  assert (Hmap : List.map (handleCloseRange state close) (ranges (selection state)) =
                 List.map (fun range => Handled (mkResult [] [] (cursor (head range + JS.length close))))
                          (ranges (selection state))).
  { apply map_ext_in. intros range Hin. destruct (Hall range Hin).
    now apply handleCloseRange_handled. }
  rewrite Hmap.
  replace (existsb isDont _) with false.
  2:{ symmetry. apply not_true_is_false. intros Ex.
      apply existsb_exists in Ex as [o [Ho Hd]].
      apply in_map_iff in Ho as [range [<- _]]. discriminate. }
  now rewrite !List.map_map.
Qed.

Lemma handleClose_null (state : EditorState) (open close : JS.str) (range : SelectionRange) :
  In range (ranges (selection state)) ->
  rangeEmpty range = false \/ nextChar (doc state) (head range) <> close ->
  handleClose state open close = Null.
Proof.
  intros Hin Hbad. unfold handleClose.
  replace (existsb isDont _) with true; [reflexivity|].
  symmetry. apply existsb_exists. exists (Dont range). split; [|reflexivity].
  apply in_map_iff. exists range. split; [|assumption].
  now apply handleCloseRange_dont.
Qed.

(** [handleClose] returns a transaction only if every range is a caret
    followed by the close token. *)
Lemma handleClose_ok_inv (state : EditorState) (open close : JS.str) (tr : Transaction) :
  handleClose state open close = Ok tr ->
  tr = closeTransaction state close /\
  forall range, In range (ranges (selection state)) ->
    rangeEmpty range = true /\ nextChar (doc state) (head range) = close.
Proof.
  intros H.
  assert (Hall : forall range, In range (ranges (selection state)) ->
            rangeEmpty range = true /\ nextChar (doc state) (head range) = close).
  { intros range Hin.
    destruct (handleCloseRange_cases state close range) as [[He [Hn _]] | [Hbad _]]; [auto|].
    rewrite (handleClose_null state open close range Hin Hbad) in H. discriminate. }
  split; [|exact Hall].
  rewrite (handleClose_ok state open close Hall) in H. congruence.
Qed.

Lemma caret_from (range : SelectionRange) : rangeEmpty range = true -> rangeFrom range = head range.
Proof.
  unfold rangeEmpty, rangeFrom, rangeTo. intros H. apply Z.eqb_eq in H. lia.
Qed.

(** [insertBracket] reaches [handleClose] when the typed string is no open
    token, closes a configured token, and the main range starts at a mark. *)
Lemma insertBracketLoop_close (E : Env) (state : EditorState) (bracket : JS.str)
  (conf : CloseBracketConfig) (tokens rest : list JS.str) :
  closedBracketAt state (rangeFrom (main (selection state))) = true ->
  (forall tok, In tok rest -> tok <> bracket) ->
  (exists tok, In tok rest /\ closingOf tok = bracket) ->
  exists tok, In tok rest /\ closingOf tok = bracket /\
    insertBracketLoop E state bracket conf tokens rest = handleClose state tok bracket.
Proof.
  intros Hmark. induction rest as [|t rest IH]; intros Hopen [tok [Hin Hc]]; [destruct Hin|].
  cbn [insertBracketLoop].
  assert (Ht : JS.eqb bracket t = false).
  { apply eqb_neq. intros Eq. apply (Hopen t); [now left | congruence]. }
  rewrite Ht, Hmark, andb_true_r.
  destruct (JS.eqb bracket (closingOf t)) eqn:Ec.
  - apply eqb_eq in Ec. exists t. split; [now left|]. split; [congruence|]. now rewrite <- Ec.
  - assert (Hin' : In tok rest).
    { destruct Hin as [-> | Hin]; [|assumption].
      apply eqb_neq in Ec. congruence. }
    destruct IH as [tok' [H1 [H2 H3]]].
    + intros x Hx. apply Hopen. now right.
    + now exists tok.
    + exists tok'. split; [now right|]. auto.
Qed.

(** Without a mark at the start of the main range, a string that is no open
    token is not handled at all. *)
Lemma insertBracketLoop_no_mark (E : Env) (state : EditorState) (bracket : JS.str)
  (conf : CloseBracketConfig) (tokens rest : list JS.str) :
  closedBracketAt state (rangeFrom (main (selection state))) = false ->
  (forall tok, In tok rest -> tok <> bracket) ->
  insertBracketLoop E state bracket conf tokens rest = Null.
Proof.
  intros Hmark. induction rest as [|t rest IH]; intros Hopen; [reflexivity|].
  cbn [insertBracketLoop].
  assert (Ht : JS.eqb bracket t = false).
  { apply eqb_neq. intros Eq. apply (Hopen t); [now left | congruence]. }
  rewrite Ht, Hmark, andb_false_r. apply IH. intros x Hx. apply Hopen. now right.
Qed.

(* ------------------------------------------------------------------ *)
(** ** Mapping positions through one change *)

Ltac split_comparisons :=
  repeat match goal with
         | |- context [?x <? ?y] => destruct (Z.ltb_spec x y)
         | |- context [?x <=? ?y] => destruct (Z.leb_spec x y)
         | |- context [?x =? ?y] => destruct (Z.eqb_spec x y)
         end.

(** [mapPos] through one change [a, b) -> text, for a position of the
    document. *)
Lemma mapPos_single (a b len : Z) (text : JS.str) (pos assoc : Z) (mode : Change.MapMode) :
  0 <= a <= b -> b <= len -> 0 <= pos <= len ->
  Change.mapPos (singleChange a b text len) pos assoc mode =
  if pos <? a then Change.Mapped pos
  else if Change.tracksDeletion mode a b pos then Change.Deleted
  else if (pos <? b) || ((b =? pos) && (assoc <? 0) && (b - a =? 0))
       then Change.Mapped (if (pos =? a) || (assoc <? 0) then a else a + JS.length text)
       else Change.Mapped (pos + JS.length text - (b - a)).
Proof.
  intros Hab Hb Hpos. unfold Change.mapPos, singleChange, Change.emptySet.
  destruct (Z.eqb_spec a 0) as [Ha | Ha]; [subst a|];
    destruct (Z.eqb_spec (len - b) 0) as [Hl | Hl];
    cbn [app Change.mapPosFrom];
    rewrite ?Z.sub_0_r, ?Z.add_0_l;
    repeat match goal with |- context [?x + (b - ?x)] => replace (x + (b - x)) with b by lia end;
    destruct (Change.tracksDeletion mode _ b pos);
    split_comparisons; cbn [andb orb]; try reflexivity; try lia; try (f_equal; lia).
Qed.

(** ** Mapping a pending mark through any edit *)

Lemma separated_lengths (cs : Change.Set_) : separated cs = true -> 0 <= lengthBefore cs.
Proof.
  induction cs as [|[len [text|]] rest IH]; cbn [separated lengthBefore]; intros H.
  - lia.
  - apply andb_true_iff in H as [Hl Hr].
    destruct rest as [|[l' [t'|]] rest']; [cbn; lia | discriminate |].
    specialize (IH Hr). lia.
  - apply andb_true_iff in H as [Hl Hr]. specialize (IH Hr). lia.
Qed.

(** Sections that start after a position neither delete it nor move it. *)
Lemma sections_after (cs : Change.Set_) (posA pos : Z) :
  separated cs = true -> pos < posA ->
  charDeletedFrom cs posA pos = false /\ shiftBeforeFrom cs posA pos = 0.
Proof.
  revert posA. induction cs as [|[len [text|]] rest IH]; intros posA Hs Hp;
    cbn [charDeletedFrom shiftBeforeFrom].
  - auto.
  - cbn [separated] in Hs. apply andb_true_iff in Hs as [Hl Hr].
    assert (Hrest : separated rest = true)
      by (destruct rest as [|[l' [t'|]] rest']; [reflexivity | discriminate | exact Hr]).
    destruct (IH (posA + len) Hrest ltac:(lia)) as [-> ->].
    split_comparisons; cbn [andb orb]; try lia; auto.
  - cbn [separated] in Hs. apply andb_true_iff in Hs as [Hl Hr].
    apply (IH (posA + len) Hr). lia.
Qed.

Lemma mapPosFrom_trackAfter (cs : Change.Set_) (posA posB pos : Z) :
  separated cs = true -> posA <= pos <= posA + lengthBefore cs ->
  Change.mapPosFrom cs posA posB pos (-1) Change.TrackAfter =
  if charDeletedFrom cs posA pos then Change.Deleted
  else Change.Mapped (posB + (pos - posA) + shiftBeforeFrom cs posA pos).
Proof.
  revert posA posB. induction cs as [|[len [text|]] rest IH]; intros posA posB Hs Hp;
    cbn [Change.mapPosFrom charDeletedFrom shiftBeforeFrom lengthBefore] in *.
  - destruct (Z.ltb_spec posA pos); [lia|]. f_equal. lia.
  - cbn [separated] in Hs. apply andb_true_iff in Hs as [Hl Hr].
    assert (Hrest : separated rest = true)
      by (destruct rest as [|[l' [t'|]] rest']; [reflexivity | discriminate | exact Hr]).
    cbn [Change.tracksDeletion]. apply Z.leb_le in Hl.
    destruct (Z.ltb_spec pos (posA + len)) as [Hin | Hout].
    + destruct (Z.leb_spec pos (posA + len)); [|lia].
      destruct (Z.leb_spec posA pos); [|lia]. reflexivity.
    + rewrite andb_false_r. cbn [orb].
      destruct (Z.leb_spec posA pos); [|lia]. cbn [andb orb].
      destruct (Z.eqb_spec (posA + len) pos) as [He | Hne];
        destruct (Z.eqb_spec len 0) as [Hz | Hnz]; cbn [andb orb].
      * (* text inserted exactly at the position *)
        assert (posA = pos) by lia. subst posA.
        rewrite Z.eqb_refl. cbn [orb].
        assert (Hafter : charDeletedFrom rest (pos + len) pos = false /\
                         shiftBeforeFrom rest (pos + len) pos = 0).
        { destruct rest as [|[l' [t'|]] rest']; [auto | discriminate |].
          cbn [charDeletedFrom shiftBeforeFrom separated] in *.
          apply andb_true_iff in Hr as [Hl' Hr'].
          apply sections_after; [assumption | lia]. }
        destruct Hafter as [-> ->]. change (-1 <? 0) with true.
        destruct (Z.ltb_spec pos pos); [lia|]. cbn [andb]. f_equal. lia.
      * change (-1 <? 0) with true. cbn [andb]. rewrite IH by (auto; lia).
        destruct (charDeletedFrom rest (posA + len) pos); [reflexivity|].
        destruct (Z.ltb_spec posA pos); [|lia].
        destruct (Z.leb_spec (posA + len) pos); [|lia]. cbn [andb]. f_equal. lia.
      * change (-1 <? 0) with true. cbn [andb]. rewrite IH by (auto; lia).
        destruct (charDeletedFrom rest (posA + len) pos); [reflexivity|].
        destruct (Z.ltb_spec posA pos); [|lia].
        destruct (Z.leb_spec (posA + len) pos); [|lia]. cbn [andb]. f_equal. lia.
      * change (-1 <? 0) with true. cbn [andb]. rewrite IH by (auto; lia).
        destruct (charDeletedFrom rest (posA + len) pos); [reflexivity|].
        destruct (Z.ltb_spec posA pos); [|lia].
        destruct (Z.leb_spec (posA + len) pos); [|lia]. cbn [andb]. f_equal. lia.
  - cbn [separated] in Hs. apply andb_true_iff in Hs as [Hl Hr].
    destruct (Z.ltb_spec pos (posA + len)) as [Hin | Hout].
    + destruct (sections_after rest (posA + len) pos Hr Hin) as [-> ->]. f_equal. lia.
    + rewrite IH by (auto; lia).
      destruct (charDeletedFrom rest (posA + len) pos); [reflexivity|]. f_equal. lia.
Qed.

(** The position of a [closeBracketEffect], mapped through an edit whose
    changes do not touch: dropped if the edit deletes its character, moved
    by the changes before it otherwise. *)
Lemma closeBracketEffect_map_spec (cs : Change.Set_) (pos : Z) :
  separated cs = true -> 0 <= pos <= lengthBefore cs ->
  closeBracketEffect_map pos cs =
  if charDeleted cs pos then Change.Deleted
  else Change.Mapped (pos + shiftBefore cs pos).
Proof.
  intros Hs Hp. unfold closeBracketEffect_map, Change.mapPos, charDeleted, shiftBefore.
  rewrite mapPosFrom_trackAfter by (auto; lia).
  destruct (charDeletedFrom cs 0 pos); [reflexivity|]. f_equal. lia.
Qed.

Lemma separated_single (a b len : Z) (text : JS.str) :
  0 <= a <= b -> b <= len ->
  separated (singleChange a b text len) = true /\
  lengthBefore (singleChange a b text len) = len.
Proof.
  intros Hab Hb. unfold singleChange, Change.emptySet.
  destruct (Z.eqb_spec a 0), (Z.eqb_spec (len - b) 0);
    cbn [app separated lengthBefore]; split_comparisons; cbn [andb]; split; try reflexivity; lia.
Qed.

(* ================================================================== *)
(** ** Stepping through the loops over sections *)

Lemma mapLoop_step (fuel inner : nat) (a b : Change.Iter) (posA posB : Z) (before : bool)
  (rev : list Change.Sect) :
  Change.mapLoop (S fuel) inner a b posA posB before rev =
  if Change.curIns a =? -1 then
    Change.mapLoop fuel inner (Change.next a) b (posA + Change.curLen a) posB before rev
  else if (Change.curIns b =? -1) && (posB <? posA) then
    Change.mapLoop fuel inner a
                   (Change.forward b (Z.min (Change.curLen b) (posA - posB)))
                   posA (posB + Z.min (Change.curLen b) (posA - posB)) before
                   (Change.addSection rev (Z.min (Change.curLen b) (posA - posB)) None)
  else if (0 <=? Change.curIns b) &&
          (Change.done a || (posB <? posA) ||
           ((posB =? posA) &&
            ((Change.curLen b <? Change.curLen a) ||
             ((Change.curLen b =? Change.curLen a) && negb before))))
  then
    match Change.mapCover inner a posA posB (posB + Change.curLen b) with
    | Some (a', posA') =>
        Change.mapLoop fuel inner a' (Change.next b) posA' (posB + Change.curLen b) before
                       (Change.addSection rev (Change.curIns b) None)
    | None => None
    end
  else if 0 <=? Change.curIns a then
    match Change.mapPiece inner b posA posB (posA + Change.curLen a) 0 with
    | Some (b', posB', len) =>
        Change.mapLoop fuel inner (Change.next a) b' (posA + Change.curLen a) posB' before
                       (Change.addSection rev len (Some (Change.curText a)))
    | None => None
    end
  else if Change.done a && Change.done b then Some (List.rev rev)
  else None.
Proof. reflexivity. Qed.

(** The inner loops stop at once when their tests fail. *)
Lemma mapCover_stop (fuel : nat) (a : Change.Iter) (posA posB endB : Z) :
  (posB <? posA) && negb (Change.done a) && (posA + Change.curLen a <? endB) = false ->
  Change.mapCover fuel a posA posB endB = Some (a, posA).
Proof. intros H. destruct fuel; cbn [Change.mapCover]; now rewrite H. Qed.

Lemma mapPiece_stop (fuel : nat) (b : Change.Iter) (posA posB endA len : Z) :
  (0 <=? Change.curIns b) && (posA <? posB) && (posB + Change.curLen b <? endA) = false ->
  (Change.curIns b =? -1) && (posB <? endA) = false ->
  Change.mapPiece fuel b posA posB endA len = Some (b, posB, len).
Proof. intros H1 H2. destruct fuel; cbn [Change.mapPiece]; now rewrite H1, H2. Qed.

Lemma composeLoop_step (fuel : nat) (a b : Change.Iter) (open : bool)
  (rev : list Change.Sect) :
  Change.composeLoop (S fuel) a b open rev =
  if Change.done a && Change.done b then Some (List.rev rev)
  else if Change.curIns a =? 0 then
    Change.composeLoop fuel (Change.next a) b open
                       (Change.addSectionJoin rev (Change.curLen a) (Some []) open)
  else if (Change.curLen b =? 0) && negb (Change.done b) then
    Change.composeLoop fuel a (Change.next b) open
                       (Change.addSectionJoin rev 0 (Some (Change.curText b)) open)
  else if Change.done a || Change.done b then None
  else
    let len := Z.min (Change.len2 a) (Change.curLen b) in
    let rev' :=
      if Change.curIns a =? -1 then
        if Change.curIns b =? -1 then Change.addSectionJoin rev len None open
        else Change.addSectionJoin rev len
               (Some (if Change.curOff b =? 0 then Change.curText b else [])) open
      else if Change.curIns b =? -1 then
        Change.addSectionJoin rev (if Change.curOff a =? 0 then Change.curLen a else 0)
                              (Some (Change.textBit a len)) open
      else
        Change.addSectionJoin rev (if Change.curOff a =? 0 then Change.curLen a else 0)
                              (Some (if Change.curOff b =? 0 then Change.curText b else []))
                              open in
    let open' :=
      ((len <? Change.curIns a) || ((0 <=? Change.curIns b) && (len <? Change.curLen b))) &&
      (open || (List.length rev <? List.length rev')%nat) in
    Change.composeLoop fuel (Change.forward2 a len) (Change.forward b len) open' rev'.
Proof. reflexivity. Qed.

Lemma textBit_whole (t : JS.str) :
  firstn (Z.to_nat (JS.length t)) (skipn (Z.to_nat 0) t) = t.
Proof.
  unfold JS.length. rewrite Nat2Z.id. change (Z.to_nat 0) with 0%nat.
  cbn [skipn]. apply firstn_all.
Qed.

(** A comparison inside the test [c], settled by arithmetic. *)
Ltac settle_by spec :=
  let H := fresh "Hcmp" in
  first [ destruct spec as [H | H]; [lia | clear H]
        | destruct spec as [H | H]; [clear H | lia] ].

Ltac settle_comparison c :=
  match c with
  | context [Z.eqb ?x ?y] => settle_by (Z.eqb_spec x y)
  | context [Z.ltb ?x ?y] => settle_by (Z.ltb_spec x y)
  | context [Z.leb ?x ?y] => settle_by (Z.leb_spec x y)
  end.

Ltac settle_test :=
  match goal with
  | |- context [Z.min ?x ?y] =>
      first [rewrite (Z.min_l x y) by lia | rewrite (Z.min_r x y) by lia]
  | |- context [if ?c then _ else _] => settle_comparison c
  end.

Ltac section_fields :=
  cbn [Change.iter Change.next Change.textBit
       Change.addSection Change.addSectionJoin Change.curLen Change.curIns Change.curOff
       Change.curText Change.index Change.later
       List.length List.rev rev app Nat.ltb Nat.leb orb andb negb].

(** The arguments of a loop over sections, brought to explicit form. *)
Ltac normal_sections :=
  repeat first
    [ progress section_fields
    | rewrite textBit_whole
    | progress unfold Change.done, Change.len2, Change.forward, Change.forward2,
                      Change.textBit
    | settle_test ].

(** A test that is false, shown so by arithmetic. *)
Ltac test_fails :=
  unfold Change.done; section_fields;
  repeat match goal with
         | |- ?c = false => settle_comparison c; cbn [orb andb negb]
         end;
  reflexivity.

(** The test at the head of the goal, settled by arithmetic. *)
Ltac head_test :=
  match goal with
  | |- (if ?c then _ else _) = _ =>
      first [ progress cbn [Change.curLen Change.curIns Change.curOff Change.curText
                            Change.index Change.later orb andb negb]
            | progress unfold Change.done
            | settle_comparison c ]
  end.

(** One turn of a loop over sections at a time: the branch taken is decided
    before anything else is looked at. *)
Ltac walk_sections :=
  repeat first
    [ head_test
    | rewrite mapCover_stop by test_fails; cbv beta iota
    | rewrite mapPiece_stop by test_fails; cbv beta iota
    | match goal with
      | |- Change.mapLoop _ _ _ _ _ _ _ _ = _ => normal_sections; rewrite mapLoop_step
      | |- Change.composeLoop _ _ _ _ _ = _ =>
          normal_sections; rewrite composeLoop_step; cbv zeta
      end ];
  normal_sections.

Lemma length_pos (t : JS.str) : t <> [] -> 0 < JS.length t.
Proof.
  destruct t; [contradiction|]. intros _. rewrite length_cons. pose proof (length_nonneg t). lia.
Qed.


(* ------------------------------------------------------------------ *)
(** ** The delimiter table *)

(** Outside the table, [closing] goes by the code point alone. *)
Lemma closing_outside_table (ch : Z) :
  ch <> 40 -> ch <> 91 -> ch <> 123 -> ch <> 60 ->
  closing ch = JS.fromCodePoint (if ch <? 128 then ch else ch + 1).
Proof.
  intros H1 H2 H3 H4. unfold closing, definedClosing. cbn [closingLookup].
  destruct (Z.eqb_spec 40 ch); [congruence|].
  destruct (Z.eqb_spec 91 ch); [congruence|].
  destruct (Z.eqb_spec 123 ch); [congruence|].
  destruct (Z.eqb_spec 60 ch); [congruence|]. reflexivity.
Qed.

(** Claim C5, as the code has it.  For every code point [ch], [closing]
    returns the closer paired with [ch] in the table [( ) [ ] { } < >]; for a
    code point that is not an opener of the table it returns the code point
    itself when it is below 128, and the code point one greater otherwise.
    The function is total: it has a value on every argument. *)
Theorem closing_spec (ch : Z) :
  closing ch =
  if ch =? 40 then [41]
  else if ch =? 91 then [93]
  else if ch =? 123 then [125]
  else if ch =? 60 then [62]
  else JS.fromCodePoint (if ch <? 128 then ch else ch + 1).
Proof.
  unfold closing, definedClosing. cbn [closingLookup].
  rewrite (Z.eqb_sym 40), (Z.eqb_sym 91), (Z.eqb_sym 123), (Z.eqb_sym 60).
  destruct (ch =? 40); [reflexivity|].
  destruct (ch =? 91); [reflexivity|].
  destruct (ch =? 123); [reflexivity|].
  destruct (ch =? 60); reflexivity.
Qed.

(** Claim C5 as stated fails on the double quote (code point 34): it is not
    in the table, and its closer is the quote itself, not code point 35. *)
Lemma closing_quote_is_quote :
  closingLookup definedClosing 34 = None /\
  closing 34 = [34] /\
  closing 34 <> JS.fromCodePoint (34 + 1).
Proof. split; [reflexivity|]. split; [reflexivity|discriminate]. Qed.

(** Decoding what [fromCodePoint] encodes gives the code point back. *)
Lemma codePointAt_fromCodePoint (c : Z) :
  (0 <= c < 55296 \/ 57344 <= c <= 1114111) ->
  JS.codePointAt (JS.fromCodePoint c) 0 = Some c.
Proof.
  intros Hc. unfold JS.fromCodePoint.
  destruct (Z.leb_spec c 65535) as [Hs | Hs].
  - unfold JS.fromCharCode. rewrite Z.mod_small by lia.
    unfold JS.codePointAt. cbn [JS.charCodeAt Z.ltb Z.compare Z.to_nat nth_error].
    change (0 + 1 =? JS.length [c]) with true. now rewrite orb_true_r.
  - cbv zeta. unfold JS.fromCharCode.
    rewrite Z.shiftr_div_pow2 by lia.
    change 1023 with (Z.ones 10). rewrite Z.land_ones by lia.
    change (2 ^ 10) with 1024.
    pose proof (Z.div_mod (c - 65536) 1024 ltac:(lia)) as Hdm.
    pose proof (Z.mod_pos_bound (c - 65536) 1024 ltac:(lia)) as Hm.
    assert (Hd : 0 <= (c - 65536) / 1024 < 1024).
    { split; [apply Z.div_pos; lia | apply Z.div_lt_upper_bound; lia]. }
    set (hi := (c - 65536) / 1024) in *. set (lo := (c - 65536) mod 1024) in *.
    rewrite !Z.mod_small by lia.
    unfold JS.codePointAt. cbn [JS.charCodeAt Z.ltb Z.compare Z.to_nat nth_error].
    change (0 + 1 =? JS.length [hi + 55296; lo + 56320]) with false.
    change (JS.charCodeAt [hi + 55296; lo + 56320] (0 + 1)) with (Some (lo + 56320)).
    unfold JS.surrogateHigh, JS.surrogateLow.
    destruct (Z.leb_spec 55296 (hi + 55296)); [|lia].
    destruct (Z.ltb_spec (hi + 55296) 56320); [|lia].
    destruct (Z.leb_spec 56320 (lo + 56320)); [|lia].
    destruct (Z.ltb_spec (lo + 56320) 57344); [|lia].
    cbn [andb negb orb]. f_equal.
    rewrite Z.shiftl_mul_pow2 by lia. change (2 ^ 10) with 1024. lia.
Qed.

(* ------------------------------------------------------------------ *)
(** ** Pair deletion and tokens of several code points *)

(** Claim C10.  A token longer than one code point (its first code point does
    not cover it) never equals the character before the caret, whatever the
    document and the position; so when the callback of [deleteBracketPair]
    deletes around a caret, the token it matched is a single code point, it
    is the character before the caret, and the character after the caret is
    its closer. *)
Theorem deleteBracketPair_single_code_point
  (state : EditorState) (tokens : list JS.str) (range : SelectionRange) (token : JS.str) :
  JS.codePointSize (JS.codePointAt token 0) < JS.length token ->
  prevChar (doc state) (head range) <> token /\
  deleteBracketPairLoop state range (prevChar (doc state) (head range)) [token] = Dont range /\
  forall r, deleteBracketPairRange state tokens range = Handled r ->
    exists matched,
      In matched tokens /\ matched <> token /\
      JS.length matched <= JS.codePointSize (JS.codePointAt matched 0) /\
      prevChar (doc state) (head range) = matched /\
      nextChar (doc state) (head range) = closingOf matched /\
      r = mkResult [Change.mkSpec (head range - JS.length matched)
                                  (head range + JS.length matched) []]
                   [] (cursor (head range - JS.length matched)).
Proof.
  intros Hlong.
  assert (Hne : prevChar (doc state) (head range) <> token).
  { intros E. pose proof (prevChar_one_code_point (doc state) (head range)) as H.
    rewrite E in H. lia. }
  split; [exact Hne|]. split.
  - cbn [deleteBracketPairLoop].
    destruct (JS.eqb token (prevChar (doc state) (head range))) eqn:E; [|reflexivity].
    apply eqb_eq in E. congruence.
  - intros r H. unfold deleteBracketPairRange in H.
    destruct (rangeEmpty range); [|discriminate].
    apply deleteBracketPairLoop_handled in H as [matched [Hin [Hb [Hn Hr]]]].
    exists matched. repeat split; try assumption; try congruence.
    rewrite Hb. apply prevChar_one_code_point.
Qed.

(** With the tokens quote and triple quote and the caret in the middle of
    six quotes, only the single quote is matched. *)
Lemma deleteBracketPair_single_code_point_witness :
  prevChar [34; 34; 34; 34; 34; 34] 3 <> [34; 34; 34] /\
  deleteBracketPairRange (mkState [34; 34; 34; 34; 34; 34] (mkSelection [cursor 3] 0) false [])
                         [[34; 34; 34]; [34]] (cursor 3)
  = Handled (mkResult [Change.mkSpec 2 4 []] [] (cursor 2)).
Proof.
  split.
  - exact (proj1 (deleteBracketPair_single_code_point
                    (mkState [34; 34; 34; 34; 34; 34] (mkSelection [cursor 3] 0) false [])
                    [[34; 34; 34]; [34]] (cursor 3) [34; 34; 34] eq_refl)).
  - reflexivity.
Defined.




(* ------------------------------------------------------------------ *)
(** ** Closing a tracked bracket *)

(** Claim C2, as the code has it.  [insertBracket] calls [handleClose] when
    the typed string is the closer of a configured token (and no open token
    itself) and the start of the main range holds a mark.  [handleClose] then
    looks at the text only: if every range is a caret followed by the close
    token, every caret moves past it and the marks at the carets' positions
    are removed, in a transaction that changes no text; if some range is not
    empty or not followed by the close token, it returns [null].  Whether the
    closer after a caret is tracked is not looked at. *)
Theorem handleClose_batch
  (E : Env) (state : EditorState) (open close : JS.str) :
  let rs := ranges (selection state) in
  (closedBracketAt state (rangeFrom (main (selection state))) = true ->
   (forall tok, In tok (configBrackets (config E state (head (main (selection state))))) ->
                tok <> close) ->
   In open (configBrackets (config E state (head (main (selection state))))) ->
   closingOf open = close ->
   exists tok, insertBracket E state close = handleClose state tok close) /\
  ((forall range, In range rs ->
      rangeEmpty range = true /\ nextChar (doc state) (head range) = close) ->
   exists tr,
     handleClose state open close = Ok tr /\
     changes tr = Change.emptySet (Text.length (doc state)) /\
     trSelection tr =
       Some (createSelection (List.map (fun range => cursor (head range + JS.length close)) rs)
                             (mainIndex (selection state))) /\
     doc (applyTransaction state tr) = doc state /\
     forall range, In range rs ->
       closedBracketAt (applyTransaction state tr) (head range) = false) /\
  ((exists range, In range rs /\
      (rangeEmpty range = false \/ nextChar (doc state) (head range) <> close)) ->
   handleClose state open close = Null).
Proof.
  intros rs. split; [|split].
  - intros Hmark Hno Hin Hc.
    destruct (insertBracketLoop_close E state close
                (config E state (head (main (selection state))))
                (configBrackets (config E state (head (main (selection state)))))
                (configBrackets (config E state (head (main (selection state)))))
                Hmark Hno) as [tok [_ [_ H]]].
    + now exists open.
    + exists tok. exact H.
  - intros Hall. exists (closeTransaction state close).
    split; [now apply handleClose_ok|].
    split; [reflexivity|]. split; [reflexivity|]. split.
    + unfold applyTransaction, closeTransaction. cbn [changes doc].
      unfold Text.length. apply apply_emptySet.
    + intros range Hin.
      apply (skips_remove_marks state _ (List.map rangeFrom rs)); [reflexivity|].
      apply in_map_iff. exists range. split; [|assumption].
      apply caret_from. now destruct (Hall range Hin).
  - intros [range [Hin Hbad]]. now apply (handleClose_null state open close range).
Qed.

(** Claim C2 as stated fails on [twoClosers]: the second caret is not before a tracked
    closer, yet typing [)] is not rejected; both carets move. *)
Lemma handleClose_untracked_caret :
  closedBracketAt twoClosers 3 = false /\
  insertBracket plainEnv twoClosers [41] =
    Ok (mkTransaction [(4, None)]
          (Some (mkSelection [cursor 2; cursor 4] 0))
          [skipBracketEffect 1; skipBracketEffect 3] true None).
Proof. split; reflexivity. Qed.

Lemma handleClose_batch_witness :
  handleClose twoClosers [40] [41] <> Null /\
  handleClose (mkState [40; 41; 32; 41] (mkSelection [cursor 1; cursor 2] 0) false [(1, 2)])
              [40] [41] = Null.
Proof.
  split.
  - destruct (proj1 (proj2 (handleClose_batch plainEnv twoClosers [40] [41]))) as [tr [H _]].
    + intros range [<- | [<- | []]]; split; reflexivity.
    + rewrite H. discriminate.
  - apply (proj2 (proj2 (handleClose_batch plainEnv
             (mkState [40; 41; 32; 41] (mkSelection [cursor 1; cursor 2] 0) false [(1, 2)])
             [40] [41]))).
    exists (cursor 2). split; [right; left; reflexivity|]. right. discriminate.
Defined.

(* ------------------------------------------------------------------ *)
(** ** The line of the main caret *)

(** [Text.lineStart] is the start of the line a position is on: it is at or
    before the position, no line break lies between the two, and it is the
    start of the document or follows a line break. *)
Lemma lineStartFrom_spec (d done rest : JS.str) (start pos : Z) :
  d = done ++ rest ->
  0 <= start <= JS.length done -> JS.length done <= pos ->
  (start = 0 \/ nth_error d (Z.to_nat (start - 1)) = Some 10) ->
  (forall k, start <= k < JS.length done -> nth_error d (Z.to_nat k) <> Some 10) ->
  let s := Text.lineStartFrom rest (JS.length done) start pos in
  0 <= s <= pos /\
  (s = 0 \/ nth_error d (Z.to_nat (s - 1)) = Some 10) /\
  (forall k, s <= k < pos -> k < JS.length d -> nth_error d (Z.to_nat k) <> Some 10).
Proof.
  revert done start. induction rest as [|c rest IH]; intros done start Hd Hs Hp H10 Hno.
  - cbn. rewrite app_nil_r in Hd. subst d. repeat split; try lia; try assumption.
    intros k Hk Hk'. apply Hno. lia.
  - cbn [Text.lineStartFrom].
    destruct (Z.leb_spec pos (JS.length done)) as [Hle | Hgt].
    + repeat split; try lia; try assumption. intros k Hk _. apply Hno. lia.
    + assert (Hc : nth_error d (Z.to_nat (JS.length done)) = Some c).
      { subst d. unfold JS.length. rewrite Nat2Z.id, nth_error_app2, Nat.sub_diag by lia.
        reflexivity. }
      replace (JS.length done + 1) with (JS.length (done ++ [c]))
        by (rewrite length_app, length_cons, length_nil; lia).
      apply IH.
      * subst d. now rewrite <- app_assoc.
      * rewrite length_app, length_cons, length_nil.
        destruct (c =? 10); lia.
      * rewrite length_app, length_cons, length_nil. lia.
      * destruct (Z.eqb_spec c 10) as [-> | Hne]; [|assumption].
        right. rewrite length_app, length_cons, length_nil.
        replace (JS.length done + (1 + 0) - 1) with (JS.length done) by lia. exact Hc.
      * intros k. rewrite length_app, length_cons, length_nil.
        destruct (Z.eqb_spec c 10) as [-> | Hne]; intros Hk.
        -- lia.
        -- destruct (Z.eq_dec k (JS.length done)) as [-> | Hk'].
           ++ rewrite Hc. congruence.
           ++ apply Hno. lia.
Qed.

Lemma lineStart_spec (d : JS.str) (pos : Z) :
  0 <= pos ->
  let s := Text.lineStart d pos in
  0 <= s <= pos /\
  (s = 0 \/ nth_error d (Z.to_nat (s - 1)) = Some 10) /\
  (forall k, s <= k < pos -> k < JS.length d -> nth_error d (Z.to_nat k) <> Some 10).
Proof.
  intros Hp. apply (lineStartFrom_spec d [] d 0 pos); try reflexivity; try (now left).
  - rewrite length_nil. lia.
  - rewrite length_nil. exact Hp.
  - rewrite length_nil. intros k Hk. lia.
Qed.

Lemma map_empty (cs : Change.Set_) : RangeSet.map RangeSet.empty cs = RangeSet.empty.
Proof. reflexivity. Qed.

(** Claim C3.  Let a transaction set the selection.  With [lineStart] the
    start of the line of the new main caret in the new document, and
    [prevLineStart] that of the old main caret in the old document:
    if [lineStart] differs from [prevLineStart] mapped through the changes,
    the marks are cleared, and the new value is what the transaction's
    effects make of the empty set; if they are equal, the marks are kept,
    mapped through the changes, and the effects are applied to them. *)
Theorem bracketState_update_selection
  (value : RangeSet.t) (startState : EditorState) (tr : Transaction)
  (newDoc : JS.str) (sel : EditorSelection) :
  trSelection tr = Some sel ->
  let lineStart := Text.lineStart newDoc (head (main sel)) in
  let prevLineStart :=
    Text.lineStart (doc startState) (head (main (selection startState))) in
  let mapped := Change.mapPos (changes tr) prevLineStart (-1) Change.Simple in
  (mapped <> Change.Mapped lineStart ->
   bracketState_update value startState tr newDoc =
     fold_left applyEffect (effects tr) RangeSet.empty) /\
  (mapped = Change.Mapped lineStart ->
   bracketState_update value startState tr newDoc =
     fold_left applyEffect (effects tr) (RangeSet.map value (changes tr))).
Proof.
  intros Hsel lineStart prevLineStart mapped.
  unfold bracketState_update. rewrite Hsel. fold lineStart prevLineStart mapped.
  split.
  - intros Hne. replace (lineStartMoved lineStart mapped) with true; [reflexivity|].
    symmetry. unfold lineStartMoved. destruct mapped as [p| |]; try reflexivity.
    apply negb_true_iff, Z.eqb_neq. congruence.
  - intros ->. unfold lineStartMoved. now rewrite Z.eqb_refl.
Qed.

(** On [twoLines], moving the caret to the second line clears the mark;
    moving it within the first line keeps it. *)
Lemma bracketState_update_selection_witness :
  bracketState (applyTransaction twoLines (moveCaret 2)) = [] /\
  bracketState (applyTransaction twoLines (moveCaret 1)) = [(1, 2)].
Proof.
  split.
  - apply (proj1 (bracketState_update_selection [(1, 2)] twoLines (moveCaret 2)
                    [97; 10; 98] (mkSelection [cursor 2] 0) eq_refl)).
    vm_compute. discriminate.
  - apply (proj2 (bracketState_update_selection [(1, 2)] twoLines (moveCaret 1)
                    [97; 10; 98] (mkSelection [cursor 1] 0) eq_refl)).
    reflexivity.
Defined.

(* ------------------------------------------------------------------ *)
(** ** Read-only documents *)

Lemma insertBracketLoop_readOnly (E : Env) (state : EditorState) (ro : bool)
  (bracket : JS.str) (conf : CloseBracketConfig) (tokens rest : list JS.str) :
  insertBracketLoop E (setReadOnly ro state) bracket conf tokens rest =
  insertBracketLoop E state bracket conf tokens rest.
Proof.
  destruct state as [d sel r marks]. unfold setReadOnly. cbn [doc selection bracketState].
  induction rest as [|tok rest IH]; [reflexivity|].
  cbn [insertBracketLoop]. rewrite IH. reflexivity.
Qed.

(** Claim C7, as the code has it.  On a read-only document the input handler
    returns [false] and leaves the view as it is, and [deleteBracketPair]
    returns [false] and dispatches nothing.  [insertBracket] does not read
    the flag: it returns what it returns on the same state when writable. *)
Theorem readOnly_handlers
  (E : Env) (view : EditorView) (from to : Z) (insert : JS.str)
  (state : EditorState) (ro : bool) :
  (readOnly (viewState view) = true ->
   inputHandler E view from to insert = Some (false, view)) /\
  (readOnly state = true -> deleteBracketPair E state = Some (false, None)) /\
  insertBracket E (setReadOnly ro state) insert = insertBracket E state insert.
Proof.
  split; [|split].
  - intros H. unfold inputHandler. now rewrite H, orb_true_r.
  - intros H. unfold deleteBracketPair. now rewrite H.
  - unfold insertBracket. rewrite insertBracketLoop_readOnly.
    destruct state; reflexivity.
Qed.

(** Claim C7 as stated fails for [insertBracket]: on the empty read-only
    document it still returns the transaction that inserts [()]. *)
Lemma insertBracket_readOnly :
  readOnly emptyReadOnly = true /\
  insertBracket plainEnv emptyReadOnly [40] =
    Ok (mkTransaction [(0, Some [40; 41])] (Some (mkSelection [cursor 1] 0))
                      [closeBracketEffect 1] true (Some InputType)).
Proof. split; reflexivity. Qed.

Lemma readOnly_handlers_witness :
  inputHandler plainEnv (mkView emptyReadOnly false false) 0 0 [40]
    = Some (false, mkView emptyReadOnly false false) /\
  deleteBracketPair plainEnv emptyReadOnly = Some (false, None).
Proof.
  split.
  - apply (proj1 (readOnly_handlers plainEnv (mkView emptyReadOnly false false) 0 0 [40]
                    emptyReadOnly true)). reflexivity.
  - apply (proj1 (proj2 (readOnly_handlers plainEnv (mkView emptyReadOnly false false) 0 0 [40]
                    emptyReadOnly true))). reflexivity.
Defined.

(** Claim C8, as the code has it.  The position carried by a
    [closeBracketEffect] is mapped with track-after semantics.  For every
    edit whose changes do not touch each other: it is dropped when the edit
    deletes the character at that position, and otherwise it moves by the
    length the changes strictly before it add; text inserted exactly at the
    position does not move it.  For an edit that replaces [a, b) by [text]
    and a closer at position [p] this gives the four cases below.  A mark
    already stored in the tracker is the range [p, p+1) with start side [1]
    and end side [-1].  Under such an edit it is dropped when its character
    is deleted, with one exception: when the edit replaces exactly that
    character by text that is not empty, the mark is kept and covers the
    new text.  It moves when the edit lies before it, and it also moves when
    text is inserted exactly at [p] (the closer moves, and the mark with
    it); an edit after it leaves it alone. *)
Theorem closedBracket_mapping :
  (forall cs pos,
     separated cs = true -> 0 <= pos <= lengthBefore cs ->
     closeBracketEffect_map pos cs =
     if charDeleted cs pos then Change.Deleted
     else Change.Mapped (pos + shiftBefore cs pos)) /\
  (forall a b len text p,
     0 <= a <= b -> b <= len -> 0 <= p < len ->
     let cs := singleChange a b text len in
     let d := JS.length text - (b - a) in
     (a < b \/ text <> [] -> Change.ofSpecs [Change.mkSpec a b text] len = Some cs) /\
     separated cs = true /\
     (a <= p < b -> closeBracketEffect_map p cs = Change.Deleted) /\
     (b <= p -> a < p -> closeBracketEffect_map p cs = Change.Mapped (p + d)) /\
     (a = p -> b = p -> closeBracketEffect_map p cs = Change.Mapped p) /\
     (p < a -> closeBracketEffect_map p cs = Change.Mapped p) /\
     (a <= p < b -> text = [] \/ a < p \/ p + 1 < b -> RangeSet.map [(p, p + 1)] cs = []) /\
     (a = p -> b = p + 1 -> text <> [] ->
      RangeSet.map [(p, p + 1)] cs = [(p, p + JS.length text)]) /\
     (b <= p -> RangeSet.map [(p, p + 1)] cs = [(p + d, p + 1 + d)]) /\
     (p < a -> RangeSet.map [(p, p + 1)] cs = [(p, p + 1)])).
Proof.
  split; [intros cs pos; apply closeBracketEffect_map_spec|].
  intros a b len text p Hab Hb Hp cs d. subst cs d.
  pose proof (length_nonneg text) as Ht.
  split; [intros H; now apply ofSpecs_single|].
  split; [now apply separated_single|].
  unfold closeBracketEffect_map, RangeSet.map, RangeSet.mapRange. cbn [fst snd].
  split; [|split; [|split; [|split; [|split; [|split; [|split]]]]]]; intros.
  1-4: rewrite mapPos_single by lia; cbn [Change.tracksDeletion];
       split_comparisons; cbn [andb orb]; try reflexivity; try lia; f_equal; lia.
  - rewrite !mapPos_single by lia. cbn [Change.tracksDeletion].
    match goal with
    | H : _ = [] \/ _ |- _ => destruct H as [H | H]; [subst; rewrite length_nil in *|]
    end;
      split_comparisons; cbn [andb orb]; try lia;
      split_comparisons; cbn [andb orb]; try reflexivity; lia.
  - match goal with H : text <> [] |- _ => apply length_pos in H end.
    rewrite !mapPos_single by lia. cbn [Change.tracksDeletion].
    split_comparisons; cbn [andb orb]; try lia;
      split_comparisons; cbn [andb orb]; try lia; f_equal; f_equal; lia.
  - rewrite !mapPos_single by lia. cbn [Change.tracksDeletion].
    split_comparisons; cbn [andb orb]; try lia;
      split_comparisons; cbn [andb orb]; try lia; f_equal; f_equal; lia.
  - rewrite !mapPos_single by lia. cbn [Change.tracksDeletion].
    split_comparisons; cbn [andb orb]; try lia;
      split_comparisons; cbn [andb orb]; try lia; try reflexivity; f_equal; f_equal; lia.
Qed.

(** Claim C8 as stated fails for a mark stored in the tracker: typing [a] at
    the caret of [(] caret [)], that is, exactly at the position of the
    tracked closer, moves the mark from 1 to 2, so that the closer typed next
    is still skipped over. *)
Lemma stored_mark_moves_with_insertion_at_it :
  Change.ofSpecs [insertAt 1 [97]] (Text.length (doc openedParen)) = Some (changes typeLetter) /\
  closedBracketAt openedParen 1 = true /\
  doc (applyTransaction openedParen typeLetter) = [40; 97; 41] /\
  bracketState (applyTransaction openedParen typeLetter) = [(2, 3)] /\
  closedBracketAt (applyTransaction openedParen typeLetter) 1 = false /\
  closedBracketAt (applyTransaction openedParen typeLetter) 2 = true.
Proof. repeat split. Qed.

(** In the document [()], with the closer at 1: deleting the closer drops a
    pending mark, typing before it moves the mark, typing at it does not;
    the stored mark moves in both cases, and it stays when the closer is
    replaced by another character. *)
Lemma closedBracket_mapping_witness :
  closeBracketEffect_map 1 (singleChange 1 2 [] 2) = Change.Deleted /\
  closeBracketEffect_map 1 (singleChange 0 0 [97] 2) = Change.Mapped 2 /\
  closeBracketEffect_map 1 (singleChange 1 1 [97] 2) = Change.Mapped 1 /\
  RangeSet.map [(1, 2)] (singleChange 1 1 [97] 2) = [(2, 3)] /\
  RangeSet.map [(1, 2)] (singleChange 1 2 [] 2) = [] /\
  RangeSet.map [(1, 2)] (singleChange 1 2 [93] 2) = [(1, 2)].
Proof.
  destruct (proj2 closedBracket_mapping 1 2 2 [] 1 ltac:(lia) ltac:(lia) ltac:(lia))
    as [_ [_ [Hdel [_ [_ [_ [Hgone _]]]]]]].
  destruct (proj2 closedBracket_mapping 0 0 2 [97] 1 ltac:(lia) ltac:(lia) ltac:(lia))
    as [_ [_ [_ [Hbefore _]]]].
  destruct (proj2 closedBracket_mapping 1 1 2 [97] 1 ltac:(lia) ltac:(lia) ltac:(lia))
    as [_ [_ [_ [_ [Hat [_ [_ [_ [Hmark _]]]]]]]]].
  destruct (proj2 closedBracket_mapping 1 2 2 [93] 1 ltac:(lia) ltac:(lia) ltac:(lia))
    as [_ [_ [_ [_ [_ [_ [_ [Hkept _]]]]]]]].
  split; [apply Hdel; lia|]. split; [apply Hbefore; lia|].
  split; [apply Hat; reflexivity|]. split; [apply Hmark; lia|].
  split; [apply Hgone; [lia | now left]|].
  apply Hkept; [reflexivity | reflexivity | discriminate].
Defined.

(* ------------------------------------------------------------------ *)
(** ** A skipped closer is no longer tracked *)

Lemma rangeEmpty_cursor (pos : Z) : rangeEmpty (cursor pos) = true.
Proof. unfold rangeEmpty, rangeFrom, rangeTo, cursor. cbn. apply Z.eqb_eq. lia. Qed.

(** The skip branch of the callback of [handleSame]. *)
Lemma handleSameRange_skip (E : Env) (state : EditorState) (token : JS.str)
  (allowTriple : bool) (pos : Z) :
  nextChar (doc state) pos = token -> nodeStart E state pos = false ->
  closedBracketAt state pos = true ->
  handleSameRange E state token allowTriple (cursor pos) =
  Handled (mkResult [] [skipBracketEffect pos]
             (cursor (pos + JS.length token *
                (if allowTriple &&
                    JS.eqb (sliceDoc state pos (pos + JS.length token * 3))
                           (token ++ token ++ token)
                 then 3 else 1)))).
Proof.
  intros Hn Hs Hm. unfold handleSameRange. rewrite rangeEmpty_cursor.
  cbn [negb head cursor]. now rewrite Hn, eqb_refl, Hs, Hm.
Qed.

(** Without a mark at the caret, the callback of [handleSame] never skips:
    whatever it does there records a new mark. *)
Lemma handleSameRange_no_mark (E : Env) (state : EditorState) (token : JS.str)
  (allowTriple : bool) (pos : Z) (r : RangeResult) :
  closedBracketAt state pos = false ->
  handleSameRange E state token allowTriple (cursor pos) = Handled r ->
  rrEffects r = [closeBracketEffect (pos + JS.length token)].
Proof.
  intros Hm. unfold handleSameRange. rewrite rangeEmpty_cursor.
  cbn [negb head cursor]. rewrite Hm.
  repeat match goal with
         | |- context [if ?c then _ else _] => destruct c
         end; intros H; try discriminate; injection H as <-; reflexivity.
Qed.

(** Claim C9, as the code has it.  A skip-over removes the mark at the
    skipped position in the same transaction in two cases: in [handleSame],
    for a sole caret before a tracked token that is not at a node start,
    and in [handleClose], for every caret.  A position without a mark cannot
    be skipped over by the main caret: the callback of [handleSame] does not
    skip there, and [insertBracket] does not call [handleClose] when the main
    range starts there.  When [handleSame] handles several ranges, the skip
    of one caret need not remove the mark: in [caretAndRange] the caret
    skips the tracked quote while the selected text from the same position
    on is put in quotes; the effect of the skip still names position 1, the
    mark has moved with the quote to position 2, and it stays. *)
Theorem skip_consumes_mark
  (E : Env) (state : EditorState) (token open close : JS.str) (allowTriple : bool) (pos : Z) :
  (ranges (selection state) = [cursor pos] ->
   nextChar (doc state) pos = token -> nodeStart E state pos = false ->
   closedBracketAt state pos = true ->
   exists tr,
     handleSame E state token allowTriple = Ok tr /\
     effects tr = [skipBracketEffect pos] /\
     doc (applyTransaction state tr) = doc state /\
     closedBracketAt (applyTransaction state tr) pos = false) /\
  (forall tr, handleClose state open close = Ok tr ->
     forall range, In range (ranges (selection state)) ->
       In (skipBracketEffect (head range)) (effects tr) /\
       closedBracketAt (applyTransaction state tr) (head range) = false) /\
  (closedBracketAt state pos = false ->
   (forall r, handleSameRange E state token allowTriple (cursor pos) = Handled r ->
              rrEffects r = [closeBracketEffect (pos + JS.length token)]) /\
   (rangeFrom (main (selection state)) = pos ->
    forall conf tokens rest, (forall tok, In tok rest -> tok <> close) ->
      insertBracketLoop E state close conf tokens rest = Null)) /\
  (exists tr,
     handleSame plainEnv caretAndRange [34] false = Ok tr /\
     effects tr = [skipBracketEffect 1; closeBracketEffect 4] /\
     doc (applyTransaction caretAndRange tr) = [97; 34; 34; 98; 34; 99] /\
     selection (applyTransaction caretAndRange tr) = mkSelection [mkRange 2 4] 0 /\
     bracketState (applyTransaction caretAndRange tr) = [(2, 3); (4, 5)] /\
     closedBracketAt (applyTransaction caretAndRange tr) 2 = true).
Proof.
  split; [|split; [|split]].
  - intros Hone Hn Hs Hm. unfold handleSame.
    rewrite (updateByRange_single state _ _ (cursor pos) Hone).
    rewrite (handleSameRange_skip E state token allowTriple pos Hn Hs Hm).
    cbn [rrChanges rrEffects rrRange].
    rewrite ofSpecs_nil by apply length_nonneg.
    eexists. split; [reflexivity|]. cbn [effects]. split; [reflexivity|]. split.
    + unfold applyTransaction. cbn [changes doc]. unfold Text.length. apply apply_emptySet.
    + apply (skips_remove_marks state _ [pos]); [reflexivity | now left].
  - intros tr Htr range Hin.
    apply handleClose_ok_inv in Htr as [-> Hall].
    destruct (Hall range Hin) as [He _]. rewrite <- (caret_from range He).
    assert (Hv : In (rangeFrom range) (List.map rangeFrom (ranges (selection state))))
      by now apply in_map.
    split.
    + unfold closeTransaction. cbn [effects]. now apply in_map.
    + now apply (skips_remove_marks state _ (List.map rangeFrom (ranges (selection state)))).
  - intros Hm. split.
    + intros r. now apply handleSameRange_no_mark.
    + intros Hpos conf tokens rest Hno. apply insertBracketLoop_no_mark; [|assumption].
      now rewrite Hpos.
  - eexists. split; [reflexivity|]. repeat split.
Qed.

(** Claim C9 as stated fails for a caret that is not the main one.  In
    [() ()] the first closer is skipped over and its mark removed; then, with
    the main caret before the second, tracked closer and another caret
    before the first, typing [)] moves both carets: the first closer is
    skipped over a second time. *)
Lemma closer_skipped_twice :
  insertBracket plainEnv twoPairs [41] = Ok (closeTransaction twoPairs [41]) /\
  applyTransaction twoPairs (closeTransaction twoPairs [41]) = afterFirstSkip /\
  closedBracketAt afterFirstSkip 1 = false /\
  closedBracketAt (applyTransaction afterFirstSkip placeCarets) 1 = false /\
  insertBracket plainEnv (applyTransaction afterFirstSkip placeCarets) [41] =
    Ok (mkTransaction [(5, None)] (Some (mkSelection [cursor 2; cursor 5] 1))
                      [skipBracketEffect 1; skipBracketEffect 4] true None).
Proof. repeat split. Qed.

Lemma skip_consumes_mark_witness :
  closedBracketAt (applyTransaction twoPairs (closeTransaction twoPairs [41])) 1 = false.
Proof.
  apply (proj1 (proj2 (skip_consumes_mark plainEnv twoPairs [] [40] [41] false 1))
           (closeTransaction twoPairs [41]) eq_refl (cursor 1)).
  left. reflexivity.
Defined.

(* ------------------------------------------------------------------ *)
(** ** Inserting a pair and deleting it again *)

(** When the typed string closes no configured token, [insertBracket] opens
    it if it is a token, and does nothing otherwise. *)
Lemma insertBracketLoop_open (E : Env) (state : EditorState) (bracket : JS.str)
  (conf : CloseBracketConfig) (tokens rest : list JS.str) :
  (forall tok, In tok rest -> closingOf tok <> bracket) ->
  insertBracketLoop E state bracket conf tokens rest =
  if existsb (JS.eqb bracket) rest
  then handleOpen state bracket (closingOf bracket) (configBefore conf)
  else Null.
Proof.
  induction rest as [|tok rest IH]; intros Hno; [reflexivity|].
  cbn [insertBracketLoop existsb].
  destruct (JS.eqb bracket tok) eqn:Eb.
  - apply eqb_eq in Eb. subst tok. cbn [orb].
    replace (JS.eqb (closingOf bracket) bracket) with false; [reflexivity|].
    symmetry. apply eqb_neq. apply Hno. now left.
  - cbn [orb].
    replace (JS.eqb bracket (closingOf tok)) with false.
    + cbn [andb]. apply IH. intros x Hx. apply Hno. now right.
    + symmetry. apply eqb_neq. intros Eq. apply (Hno tok); [now left | congruence].
Qed.

Lemma deleteBracketPairLoop_found (state : EditorState) (range : SelectionRange)
  (before : JS.str) (tokens : list JS.str) :
  In before tokens ->
  nextChar (doc state) (head range) = closingOf before ->
  deleteBracketPairLoop state range before tokens =
  Handled (mkResult [Change.mkSpec (head range - JS.length before)
                                   (head range + JS.length before) []]
                    [] (cursor (head range - JS.length before))).
Proof.
  intros Hin Hn. induction tokens as [|tok rest IH]; [destruct Hin|].
  cbn [deleteBracketPairLoop].
  destruct (JS.eqb tok before) eqn:Eb.
  - apply eqb_eq in Eb. subst tok. now rewrite Hn, eqb_refl.
  - cbn [andb]. apply IH. destruct Hin as [-> | Hin]; [|assumption].
    now rewrite eqb_refl in Eb.
Qed.

(** A character is one code unit that is no surrogate, or a surrogate pair
    that decodes to it. *)
Lemma fromCodePoint_cases (c : Z) :
  scalarValue c ->
  (c <= 65535 /\ JS.fromCodePoint c = [c] /\
   JS.surrogateHigh c = false /\ JS.surrogateLow c = false) \/
  (65536 <= c /\ exists hi lo,
     JS.fromCodePoint c = [hi; lo] /\ JS.codePointAt [hi; lo] 0 = Some c).
Proof.
  intros Hc. destruct (Z.leb_spec c 65535) as [Hs | Hs].
  - left. split; [exact Hs|]. split.
    + unfold JS.fromCodePoint, JS.fromCharCode.
      destruct (Z.leb_spec c 65535); [|lia]. rewrite Z.mod_small; [reflexivity|].
      destruct Hc; lia.
    + unfold JS.surrogateHigh, JS.surrogateLow.
      split; split_comparisons; cbn [andb]; try reflexivity; destruct Hc; lia.
  - right. split; [lia|].
    pose proof (codePointAt_fromCodePoint c) as Hd.
    unfold JS.fromCodePoint in *. destruct (Z.leb_spec c 65535); [lia|].
    cbv zeta in *. eexists. eexists. split; [reflexivity|].
    apply Hd. destruct Hc; [left|right]; lia.
Qed.

Lemma fromCodePoint_length (c : Z) :
  JS.length (JS.fromCodePoint c) = if c <=? 65535 then 1 else 2.
Proof. unfold JS.fromCodePoint. destruct (c <=? 65535); reflexivity. Qed.

(** A character of the document is its next character at the position
    where it starts. *)
Lemma nextChar_codePoint (pre post : JS.str) (c : Z) :
  scalarValue c ->
  nextChar (pre ++ JS.fromCodePoint c ++ post) (JS.length pre) = JS.fromCodePoint c.
Proof.
  intros Hc. destruct (fromCodePoint_cases c Hc) as [[Hs [-> [Hh _]]] | [Hs [hi [lo [-> Hd]]]]].
  - apply nextChar_unit; [destruct Hc; lia | exact Hh].
  - rewrite nextChar_app, nextChar_0. cbn [app firstn]. rewrite Hd.
    unfold JS.codePointSize. destruct (Z.ltb_spec c 65536); [lia|]. reflexivity.
Qed.


(** The closer of a character that is not its own closer is a character of
    the same length, except for three code points whose successor is a
    surrogate, leaves the Basic Multilingual Plane, or leaves Unicode. *)
Lemma closing_asymmetric (c : Z) :
  scalarValue c -> c <> 55295 -> c <> 65535 -> c <> 1114111 ->
  closing c <> JS.fromCodePoint c ->
  exists c', closing c = JS.fromCodePoint c' /\ scalarValue c' /\
             JS.length (JS.fromCodePoint c') = JS.length (JS.fromCodePoint c).
Proof.
  intros Hc H1 H2 H3 Hne.
  destruct (Z.eq_dec c 40); [subst; exists 41; repeat split; left; lia|].
  destruct (Z.eq_dec c 91); [subst; exists 93; repeat split; left; lia|].
  destruct (Z.eq_dec c 123); [subst; exists 125; repeat split; left; lia|].
  destruct (Z.eq_dec c 60); [subst; exists 62; repeat split; left; lia|].
  rewrite closing_outside_table in * by assumption.
  destruct (Z.ltb_spec c 128); [contradiction|].
  exists (c + 1). split; [reflexivity|]. split.
  - destruct Hc; [left | right]; lia.
  - rewrite !fromCodePoint_length. split_comparisons; lia.
Qed.


Lemma skipn_past (pre mid post : JS.str) (n : Z) :
  n = JS.length pre + JS.length mid ->
  skipn (Z.to_nat n) (pre ++ mid ++ post) = post.
Proof.
  intros ->. unfold JS.length. rewrite app_assoc.
  replace (Z.to_nat _) with (List.length (pre ++ mid)) by (rewrite List.length_app; lia).
  rewrite skipn_app, Nat.sub_diag, skipn_all. reflexivity.
Qed.

Lemma firstn_pre (pre rest : JS.str) (n : Z) :
  n = JS.length pre -> firstn (Z.to_nat n) (pre ++ rest) = pre.
Proof.
  intros ->. unfold JS.length. rewrite Nat2Z.id, firstn_app, Nat.sub_diag, firstn_all, firstn_O.
  apply app_nil_r.
Qed.




(* ------------------------------------------------------------------ *)
(** ** Triple quotes *)

(** The state after an insertion at a sole caret. *)
Lemma applyTransaction_insert (s : EditorState) (pos : Z) (text : JS.str) (caret : Z) :
  0 <= pos <= JS.length (doc s) ->
  0 <= caret <= JS.length (doc s) + JS.length text ->
  let s' := applyTransaction s (insertTransaction pos text (JS.length (doc s)) caret) in
  doc s' = firstn (Z.to_nat pos) (doc s) ++ text ++ skipn (Z.to_nat pos) (doc s) /\
  selection s' = mkSelection [cursor caret] 0 /\
  closedBracketAt s' caret = true.
Proof.
  intros Hpos Hcaret s'.
  assert (Hdoc : doc s' = firstn (Z.to_nat pos) (doc s) ++ text ++ skipn (Z.to_nat pos) (doc s)).
  { unfold s', applyTransaction, insertTransaction, singleChange. cbn [doc changes].
    apply apply_single; lia. }
  split; [exact Hdoc|]. split; [reflexivity|].
  unfold s', applyTransaction, insertTransaction, bracketState_update.
  cbn [effects fold_left changes trSelection].
  apply closedBracketAt_added. fold (singleChange pos pos text (JS.length (doc s))).
  change (Change.apply (singleChange pos pos text (JS.length (doc s))) (doc s)) with (doc s').
  unfold Text.length. rewrite Hdoc, !length_app.
  destruct (split_at (doc s) pos Hpos) as [Hd Hl].
  rewrite Hl.
  assert (Hlen : JS.length (doc s) = pos + JS.length (skipn (Z.to_nat pos) (doc s))).
  { rewrite Hd at 1. rewrite length_app, Hl. reflexivity. }
  lia.
Qed.

(** The state after a skip by a sole caret. *)
Lemma applyTransaction_skip (s : EditorState) (pos caret : Z) :
  let s' := applyTransaction s (skipTransaction pos (JS.length (doc s)) caret) in
  doc s' = doc s /\
  selection s' = mkSelection [cursor caret] 0 /\
  closedBracketAt s' pos = false.
Proof.
  intros s'. split; [|split].
  - unfold s', applyTransaction, skipTransaction. cbn [doc changes]. apply apply_emptySet.
  - reflexivity.
  - apply (skips_remove_marks s _ [pos]); [reflexivity | now left].
Qed.

(** [handleSame] for a sole caret where the callback inserts. *)
Lemma handleSame_insert (E : Env) (s : EditorState) (token : JS.str) (allowTriple : bool)
  (pos : Z) (text : JS.str) (caret : Z) :
  selection s = mkSelection [cursor pos] 0 ->
  0 <= pos <= JS.length (doc s) -> text <> [] ->
  handleSameRange E s token allowTriple (cursor pos) =
    Handled (mkResult [insertAt pos text] [closeBracketEffect caret] (cursor caret)) ->
  handleSame E s token allowTriple = Ok (insertTransaction pos text (JS.length (doc s)) caret).
Proof.
  intros Hsel Hpos Htext Hr. unfold handleSame.
  rewrite (updateByRange_single s _ _ (cursor pos)) by now rewrite Hsel.
  rewrite Hr. cbn [rrChanges rrEffects rrRange]. unfold insertAt.
  rewrite ofSpecs_single by (unfold Text.length; auto; lia).
  now rewrite Hsel.
Qed.

(** The branch of the callback of [handleSame] that completes a triple. *)
Lemma handleSameRange_triple (E : Env) (state : EditorState) (token : JS.str) (pos : Z) :
  nextChar (doc state) pos <> token ->
  sliceDoc state (pos - 2 * JS.length token) pos = token ++ token ->
  nodeStart E state (pos - 2 * JS.length token) = true ->
  handleSameRange E state token true (cursor pos) =
  Handled (mkResult [insertAt pos (token ++ token ++ token ++ token)]
                    [closeBracketEffect (pos + JS.length token)]
                    (cursor (pos + JS.length token))).
Proof.
  intros Hn Hs Hnode. unfold handleSameRange. rewrite rangeEmpty_cursor.
  cbn [negb head cursor andb]. apply eqb_neq in Hn. now rewrite Hn, Hs, eqb_refl, Hnode.
Qed.

(** The branch that inserts a pair between non-word characters. *)
Lemma handleSameRange_pair (E : Env) (state : EditorState) (token : JS.str)
  (allowTriple : bool) (pos : Z) :
  nextChar (doc state) pos <> token ->
  allowTriple && JS.eqb (sliceDoc state (pos - 2 * JS.length token) pos) (token ++ token) &&
    nodeStart E state (pos - 2 * JS.length token) = false ->
  isWord (charCategorizer E (doc state) pos (nextChar (doc state) pos)) = false ->
  sliceDoc state (pos - 1) pos <> token ->
  isWord (charCategorizer E (doc state) pos (sliceDoc state (pos - 1) pos)) = false ->
  probablyInString E state pos token = false ->
  handleSameRange E state token allowTriple (cursor pos) =
  Handled (mkResult [insertAt pos (token ++ token)]
                    [closeBracketEffect (pos + JS.length token)]
                    (cursor (pos + JS.length token))).
Proof.
  intros Hn Ht Hw Hp Hpw Hs. unfold handleSameRange. rewrite rangeEmpty_cursor.
  cbn [negb head cursor]. apply eqb_neq in Hn, Hp. now rewrite Hn, Ht, Hw, Hp, Hpw, Hs.
Qed.

(** Claim C6, as the code has it.  At a sole caret, with triples allowed,
    when the next character is not the token, the text before the caret is
    [token ++ token] and the position two tokens back is a node start, the
    callback of [handleSame] inserts four tokens (one completes the opening
    triple, three make the closing one), puts the caret after the first of
    them and asks for a mark there.  Typing a quote [q] three times, where
    the first is paired (branch of the non-word neighbours), the second
    skips over the closer just inserted, and the start of the two quotes is
    then a node start, gives three opening and three closing quotes with the
    caret, tracked, after the third. *)
Theorem triple_quote (E : Env) (s0 : EditorState) (pre post : JS.str) (q : Z) :
  let p := JS.length pre in
  let len := JS.length (doc s0) in
  let s1 := applyTransaction s0 (insertTransaction p [q; q] len (p + 1)) in
  let s2 := applyTransaction s1 (skipTransaction (p + 1) (len + 2) (p + 2)) in
  let s3 := applyTransaction s2 (insertTransaction (p + 2) [q; q; q; q] (len + 2) (p + 3)) in
  (forall state token pos,
     nextChar (doc state) pos <> token ->
     sliceDoc state (pos - 2 * JS.length token) pos = token ++ token ->
     nodeStart E state (pos - 2 * JS.length token) = true ->
     handleSameRange E state token true (cursor pos) =
     Handled (mkResult [insertAt pos (token ++ token ++ token ++ token)]
                       [closeBracketEffect (pos + JS.length token)]
                       (cursor (pos + JS.length token)))) /\
  (doc s0 = pre ++ post ->
   selection s0 = mkSelection [cursor p] 0 ->
   0 <= q < 65536 -> JS.surrogateHigh q = false ->
   nextChar post 0 <> [q] ->
   JS.eqb (sliceDoc s0 (p - 2) p) [q; q] && nodeStart E s0 (p - 2) = false ->
   isWord (charCategorizer E (doc s0) p (nextChar post 0)) = false ->
   sliceDoc s0 (p - 1) p <> [q] ->
   isWord (charCategorizer E (doc s0) p (sliceDoc s0 (p - 1) p)) = false ->
   probablyInString E s0 p [q] = false ->
   nodeStart E s1 (p + 1) = false ->
   nodeStart E s2 p = true ->
   handleSame E s0 [q] true = Ok (insertTransaction p [q; q] len (p + 1)) /\
   handleSame E s1 [q] true = Ok (skipTransaction (p + 1) (len + 2) (p + 2)) /\
   handleSame E s2 [q] true = Ok (insertTransaction (p + 2) [q; q; q; q] (len + 2) (p + 3)) /\
   doc s3 = pre ++ [q; q; q] ++ [q; q; q] ++ post /\
   selection s3 = mkSelection [cursor (p + 3)] 0 /\
   closedBracketAt s3 (p + 3) = true).
Proof.
  intros p len s1 s2 s3. split; [intros; now apply handleSameRange_triple|].
  intros Hdoc Hsel Hq Hhigh Hnext Hnotriple Hw Hprev Hpw Hstr Hnode1 Hnode2.
  pose proof (length_nonneg pre) as Hp0. pose proof (length_nonneg post) as Hpost0.
  assert (Hlen : len = p + JS.length post) by (unfold len; now rewrite Hdoc, length_app).
  assert (Hn0 : nextChar (doc s0) p = nextChar post 0) by (rewrite Hdoc; apply nextChar_app).
  (* first quote *)
  assert (H1 : handleSame E s0 [q] true = Ok (insertTransaction p [q; q] len (p + 1))).
  { apply handleSame_insert; [exact Hsel | fold len; lia | discriminate |].
    apply (handleSameRange_pair E s0 [q] true p); rewrite ?Hn0; auto. }
  destruct (applyTransaction_insert s0 p [q; q] (p + 1)) as [Hd1 [Hs1 Hm1]];
    [fold len; lia | fold len; rewrite !length_cons, length_nil; lia |].
  fold len in Hd1, Hs1, Hm1. fold s1 in Hd1, Hs1, Hm1.
  rewrite Hdoc, firstn_pre, (skipn_past pre [] post) in Hd1
    by (rewrite ?length_nil; fold p; lia).
  assert (Hl1 : JS.length (doc s1) = len + 2)
    by (rewrite Hd1, !length_app, !length_cons, length_nil; fold p; lia).
  (* second quote *)
  assert (Hn1 : nextChar (doc s1) (p + 1) = [q]).
  { rewrite Hd1. replace (pre ++ [q; q] ++ post) with ((pre ++ [q]) ++ q :: post)
      by now rewrite <- app_assoc.
    replace (p + 1) with (JS.length (pre ++ [q]))
      by (rewrite length_app, length_cons, length_nil; fold p; lia).
    now apply nextChar_unit. }
  assert (Hpost : forall rest, post <> q :: rest).
  { intros rest ->. apply Hnext. apply (nextChar_unit [] rest q Hq Hhigh). }
  assert (Htriple : JS.eqb (sliceDoc s1 (p + 1) (p + 1 + JS.length [q] * 3)) ([q] ++ [q] ++ [q]) = false).
  { apply eqb_neq. unfold sliceDoc. rewrite Hd1.
    replace (pre ++ [q; q] ++ post) with ((pre ++ [q]) ++ q :: post)
      by now rewrite <- app_assoc.
    replace (p + 1) with (JS.length (pre ++ [q]) + 0)
      by (rewrite length_app, length_cons, length_nil; fold p; lia).
    rewrite <- Z.add_assoc, sliceString_app_r by lia.
    change (Text.sliceString (q :: post) 0 (0 + JS.length [q] * 3)) with (firstn 3 (q :: post)).
    destruct post as [|x post']; [discriminate|].
    intros Heq. cbn in Heq. apply (Hpost post'). congruence. }
  assert (H2 : handleSame E s1 [q] true = Ok (skipTransaction (p + 1) (len + 2) (p + 2))).
  { unfold handleSame.
    rewrite (updateByRange_single s1 _ _ (cursor (p + 1))) by now rewrite Hs1.
    rewrite (handleSameRange_skip E s1 [q] true (p + 1) Hn1 Hnode1 Hm1).
    rewrite Htriple. cbn [andb rrChanges rrEffects rrRange].
    rewrite ofSpecs_nil by apply length_nonneg.
    unfold Text.length. rewrite Hl1, Hs1. cbn [mainIndex].
    change (JS.length [q] * 1) with 1. unfold skipTransaction.
    now replace (p + 1 + 1) with (p + 2) by lia. }
  destruct (applyTransaction_skip s1 (p + 1) (p + 2)) as [Hd2 [Hs2 _]].
  rewrite Hl1 in Hd2, Hs2. fold s2 in Hd2, Hs2. rewrite Hd1 in Hd2.
  assert (Hl2 : JS.length (doc s2) = len + 2) by now rewrite Hd2, <- Hd1.
  (* third quote *)
  assert (H3 : handleSame E s2 [q] true =
               Ok (insertTransaction (p + 2) [q; q; q; q] (len + 2) (p + 3))).
  { rewrite <- Hl2.
    apply handleSame_insert; [exact Hs2 | lia | discriminate |].
    change (p + 3) with (p + 3). replace (p + 3) with (p + 2 + JS.length [q])
      by (change (JS.length [q]) with 1; lia).
    apply (handleSameRange_triple E s2 [q] (p + 2)).
    - rewrite Hd2. replace (pre ++ [q; q] ++ post) with ((pre ++ [q; q]) ++ post)
        by now rewrite <- app_assoc.
      replace (p + 2) with (JS.length (pre ++ [q; q]))
        by (rewrite length_app, !length_cons, length_nil; fold p; lia).
      now rewrite nextChar_app.
    - change (JS.length [q]) with 1. replace (p + 2 - 2 * 1) with p by lia.
      unfold sliceDoc. rewrite Hd2.
      apply (sliceString_mid pre [q; q] post).
    - change (JS.length [q]) with 1. now replace (p + 2 - 2 * 1) with p by lia. }
  destruct (applyTransaction_insert s2 (p + 2) [q; q; q; q] (p + 3)) as [Hd3 [Hs3 Hm3]];
    [lia | rewrite !length_cons, length_nil; lia |].
  rewrite Hl2 in Hd3, Hs3, Hm3. fold s3 in Hd3, Hs3, Hm3.
  split; [exact H1|]. split; [exact H2|]. split; [exact H3|].
  split; [|split; assumption].
  rewrite Hd3, Hd2.
  replace (pre ++ [q; q] ++ post) with ((pre ++ [q; q]) ++ post) by now rewrite <- app_assoc.
  rewrite firstn_pre, (skipn_past (pre ++ [q; q]) [] post)
    by (rewrite ?length_app, ?length_cons, ?length_nil; fold p; lia).
  rewrite <- app_assoc. reflexivity.
Qed.

(** Claim C6 as stated fails in its first half: after two quotes at a node
    start, the third quote makes the callback insert four tokens, not two,
    which is what leaves six quotes in the document. *)
Lemma triple_inserts_four_tokens :
  nextChar (doc twoQuotes) 2 <> [34] /\
  sliceDoc twoQuotes 0 2 = [34; 34] /\
  nodeStart oneNodeEnv twoQuotes 0 = true /\
  insertBracket oneNodeEnv twoQuotes [34] = Ok (insertTransaction 2 [34; 34; 34; 34] 2 3) /\
  insertBracket oneNodeEnv twoQuotes [34] <> Ok (insertTransaction 2 [34; 34] 2 3) /\
  doc (applyTransaction twoQuotes (insertTransaction 2 [34; 34; 34; 34] 2 3)) =
    [34; 34; 34; 34; 34; 34].
Proof. repeat split; discriminate. Qed.

(** Three quotes typed into the empty document, in a language where the
    start of the two quotes is a node start. *)
Lemma triple_quote_witness :
  doc (applyTransaction
         (applyTransaction
            (applyTransaction emptyDoc (insertTransaction 0 [34; 34] 0 1))
            (skipTransaction 1 2 2))
         (insertTransaction 2 [34; 34; 34; 34] 2 3))
  = [34; 34; 34; 34; 34; 34].
Proof.
  assert (Hq : 0 <= 34 < 65536) by lia.
  assert (Hn : nextChar [] 0 <> [34]) by discriminate.
  assert (Hp : sliceDoc emptyDoc (0 - 1) 0 <> [34]) by discriminate.
  exact (proj1 (proj2 (proj2 (proj2
           (proj2 (triple_quote freshNodeEnv emptyDoc [] [] 34)
                  eq_refl eq_refl Hq eq_refl Hn eq_refl eq_refl Hp
                  eq_refl eq_refl eq_refl eq_refl))))).
Defined.

(* ================================================================== *)
(** * Further properties of the package *)

(** ** The characters next to a position, code point by code point *)

Lemma codePointAt_two (c d : Z) :
  JS.codePointAt [c; d] 0 =
  if JS.surrogateHigh c && JS.surrogateLow d
  then Some (Z.shiftl (c - 55296) 10 + (d - 56320) + 65536)
  else Some c.
Proof.
  unfold JS.codePointAt. cbn [JS.charCodeAt Z.ltb Z.compare Z.to_nat nth_error].
  change (0 + 1 =? JS.length [c; d]) with false. rewrite orb_false_r.
  change (JS.charCodeAt [c; d] (0 + 1)) with (Some d).
  destruct (JS.surrogateHigh c), (JS.surrogateLow d); reflexivity.
Qed.

Lemma codePointSize_two (c d : Z) :
  0 <= c < 65536 ->
  JS.codePointSize (JS.codePointAt [c; d] 0) =
  if JS.surrogateHigh c && JS.surrogateLow d then 2 else 1.
Proof.
  intros Hc. rewrite codePointAt_two.
  destruct (JS.surrogateHigh c) eqn:Hh, (JS.surrogateLow d) eqn:Hl; cbn [andb JS.codePointSize];
    try (destruct (Z.ltb_spec c 65536); [reflexivity | lia]).
  unfold JS.surrogateHigh, JS.surrogateLow in *.
  apply andb_true_iff in Hh as [Hh1 Hh2], Hl as [Hl1 Hl2].
  apply Z.leb_le in Hh1, Hl1.
  pose proof (Z.shiftl_nonneg (c - 55296) 10) as Hs.
  destruct (Z.ltb_spec (Z.shiftl (c - 55296) 10 + (d - 56320) + 65536) 65536); [lia|reflexivity].
Qed.

Lemma codePointSize_one (c : Z) :
  0 <= c < 65536 -> JS.codePointSize (JS.codePointAt [c] 0) = 1.
Proof.
  intros Hc. unfold JS.codePointAt. cbn [JS.charCodeAt Z.ltb Z.compare Z.to_nat nth_error].
  change (0 + 1 =? JS.length [c]) with true. rewrite orb_true_r.
  unfold JS.codePointSize. destruct (Z.ltb_spec c 65536); [reflexivity | lia].
Qed.

(** Property X1.  [nextChar] returns the code point that starts at the position: nothing
    at the end of the document, a surrogate pair when a high surrogate is
    followed by a low one, and the single code unit otherwise. *)
Theorem nextChar_code_point (d : JS.str) (pos : Z) :
  wellFormed d -> 0 <= pos ->
  nextChar d pos =
  match skipn (Z.to_nat pos) d with
  | [] => []
  | [c] => [c]
  | c :: c' :: _ => if JS.surrogateHigh c && JS.surrogateLow c' then [c; c'] else [c]
  end.
Proof.
  intros Hwf Hpos.
  destruct (Z_le_gt_dec pos (JS.length d)) as [Hle | Hgt].
  - destruct (split_at d pos (conj Hpos Hle)) as [Hd Hl].
    assert (Hrest : wellFormed (skipn (Z.to_nat pos) d)).
    { unfold wellFormed in *. rewrite Hd in Hwf. now apply Forall_app in Hwf. }
    remember (firstn (Z.to_nat pos) d) as pre eqn:Epre.
    remember (skipn (Z.to_nat pos) d) as post eqn:Epost.
    clear Epre Epost. subst d pos. rewrite nextChar_app, nextChar_0.
    destruct post as [|c [|c' rest]]; [reflexivity | |].
    + cbn [firstn]. rewrite codePointSize_one; [reflexivity|]. now inversion Hrest.
    + cbn [firstn]. rewrite codePointSize_two by now inversion Hrest.
      destruct (JS.surrogateHigh c && JS.surrogateLow c'); reflexivity.
  - rewrite nextChar_end by lia. rewrite skipn_all2; [reflexivity|].
    unfold JS.length in Hgt. lia.
Qed.

Lemma nextChar_code_point_witness :
  nextChar [97; 55357; 56832; 98] 1 = [55357; 56832] /\
  nextChar [97; 55357; 56832; 98] 2 = [56832] /\
  nextChar [97; 55357; 56832; 98] 4 = [].
Proof.
  assert (Hwf : wellFormed [97; 55357; 56832; 98]) by (repeat constructor; lia).
  split; [|split].
  - exact (nextChar_code_point [97; 55357; 56832; 98] 1 Hwf ltac:(lia)).
  - exact (nextChar_code_point [97; 55357; 56832; 98] 2 Hwf ltac:(lia)).
  - exact (nextChar_code_point [97; 55357; 56832; 98] 4 Hwf ltac:(lia)).
Defined.

(** Property X2.  [prevChar] returns the code point that ends at the position: nothing at
    the start of the document, a surrogate pair when the two code units
    before the position form one, and the single code unit before the
    position otherwise. *)
Theorem prevChar_code_point (d : JS.str) (pos : Z) :
  wellFormed d -> 0 <= pos <= JS.length d ->
  prevChar d pos =
  match rev (firstn (Z.to_nat pos) d) with
  | [] => []
  | [c] => [c]
  | c' :: c :: _ => if JS.surrogateHigh c && JS.surrogateLow c' then [c; c'] else [c']
  end.
Proof.
  intros Hwf Hpos.
  destruct (split_at d pos Hpos) as [Hd Hl].
  assert (Hpre : wellFormed (firstn (Z.to_nat pos) d)).
  { unfold wellFormed in *. rewrite Hd in Hwf. now apply Forall_app in Hwf. }
  remember (firstn (Z.to_nat pos) d) as pre eqn:Epre.
  remember (skipn (Z.to_nat pos) d) as post eqn:Epost.
  clear Epre Epost Hwf Hpos. subst d pos. rewrite prevChar_app. clear post.
  destruct (rev pre) as [|c' [|c rest]] eqn:Erev.
  - apply (f_equal (@rev Z)) in Erev. rewrite rev_involutive in Erev. subst pre. reflexivity.
  - apply (f_equal (@rev Z)) in Erev. rewrite rev_involutive in Erev. subst pre.
    cbn [rev app]. unfold prevChar.
    change (Text.sliceString [c'] (JS.length [c'] - 2) (JS.length [c'])) with [c'].
    rewrite codePointSize_one by now inversion Hpre. reflexivity.
  - apply (f_equal (@rev Z)) in Erev. rewrite rev_involutive in Erev. subst pre.
    cbn [rev] in *. rewrite <- app_assoc in *. cbn [app] in *.
    assert (Hc : 0 <= c < 65536).
    { apply Forall_app in Hpre as [_ Hpre]. now inversion Hpre. }
    unfold prevChar.
    replace (Text.sliceString (rev rest ++ [c; c']) (JS.length (rev rest ++ [c; c']) - 2)
               (JS.length (rev rest ++ [c; c']))) with [c; c'].
    + rewrite codePointSize_two by exact Hc.
      destruct (JS.surrogateHigh c && JS.surrogateLow c'); reflexivity.
    + pose proof (sliceString_mid (rev rest) [c; c'] []) as Hm. rewrite app_nil_r in Hm.
      rewrite length_app. change (JS.length [c; c']) with 2 in *.
      replace (JS.length (rev rest) + 2 - 2) with (JS.length (rev rest)) by lia.
      now rewrite Hm.
Qed.

Lemma prevChar_code_point_witness :
  prevChar [97; 55357; 56832; 98] 3 = [55357; 56832] /\
  prevChar [97; 55357; 56832; 98] 2 = [55357] /\
  prevChar [97; 55357; 56832; 98] 0 = [].
Proof.
  assert (Hwf : wellFormed [97; 55357; 56832; 98]) by (repeat constructor; lia).
  split; [|split].
  - exact (prevChar_code_point [97; 55357; 56832; 98] 3 Hwf ltac:(vm_compute; split; discriminate)).
  - exact (prevChar_code_point [97; 55357; 56832; 98] 2 Hwf ltac:(vm_compute; split; discriminate)).
  - exact (prevChar_code_point [97; 55357; 56832; 98] 0 Hwf ltac:(vm_compute; split; discriminate)).
Defined.

(** ** Deleting a pair *)

Lemma existsb_ext_in {A : Type} (f g : A -> bool) (l : list A) :
  (forall x, In x l -> f x = g x) -> existsb f l = existsb g l.
Proof.
  induction l as [|a l IH]; intros H; [reflexivity|].
  cbn [existsb]. rewrite (H a) by now left. rewrite IH; [reflexivity|].
  intros x Hx. apply H. now right.
Qed.

(** Two callbacks that agree on the ranges of the selection give the same
    transaction, on states with the same document and selection. *)
Lemma updateByRange_ext (s s' : EditorState) (f g : SelectionRange -> Outcome)
  (event : option UserEvent) :
  doc s = doc s' -> selection s = selection s' ->
  (forall range, In range (ranges (selection s)) -> f range = g range) ->
  updateByRange s f event = updateByRange s' g event.
Proof.
  intros Hd Hs Hfg. unfold updateByRange, changeByRange. rewrite <- Hd, <- Hs.
  rewrite (existsb_ext_in (fun range => isDont (f range)) (fun range => isDont (g range)))
    by (intros x Hx; now rewrite Hfg).
  rewrite (map_ext_in (fun range => outcomeResult (f range)) (fun range => outcomeResult (g range)))
    by (intros x Hx; now rewrite Hfg).
  reflexivity.
Qed.

Lemma deleteBracketPairLoop_doc (s s' : EditorState) (range : SelectionRange)
  (before : JS.str) (tokens : list JS.str) :
  doc s = doc s' ->
  deleteBracketPairLoop s range before tokens = deleteBracketPairLoop s' range before tokens.
Proof.
  intros Hd. induction tokens as [|token rest IH]; [reflexivity|].
  cbn [deleteBracketPairLoop]. now rewrite Hd, IH.
Qed.

(** The loop gives up exactly when no token stands before the caret with its
    closer after it. *)
Lemma deleteBracketPairLoop_dont (state : EditorState) (range : SelectionRange)
  (before : JS.str) (tokens : list JS.str) :
  isDont (deleteBracketPairLoop state range before tokens) = true <->
  (forall token, In token tokens ->
     token <> before \/ nextChar (doc state) (head range) <> closingOf token).
Proof.
  induction tokens as [|token rest IH]; cbn [deleteBracketPairLoop].
  - split; [intros _ token []|reflexivity].
  - destruct (JS.eqb token before) eqn:Et;
      [destruct (JS.eqb (nextChar (doc state) (head range)) (closingOf token)) eqn:En|];
      cbn [andb isDont].
    + apply eqb_eq in Et, En. split; [discriminate|].
      intros H. destruct (H token (or_introl eq_refl)); contradiction.
    + apply eqb_neq in En. rewrite IH. split.
      * intros H t [<- | Ht]; [now right | now apply H].
      * intros H t Ht. apply H. now right.
    + apply eqb_neq in Et. rewrite IH. split.
      * intros H t [<- | Ht]; [now left | now apply H].
      * intros H t Ht. apply H. now right.
Qed.

Lemma updateByRange_null_iff (state : EditorState) (f : SelectionRange -> Outcome)
  (event : option UserEvent) :
  updateByRange state f event = Null <->
  exists range, In range (ranges (selection state)) /\ isDont (f range) = true.
Proof.
  unfold updateByRange.
  destruct (existsb (fun range => isDont (f range)) (ranges (selection state))) eqn:Ex.
  - apply existsb_exists in Ex. split; [intros _; exact Ex | reflexivity].
  - split.
    + destruct (changeByRange state _ true event); discriminate.
    + intros [range [Hin Hd]].
      assert (existsb (fun range => isDont (f range)) (ranges (selection state)) = true)
        by (apply existsb_exists; eauto).
      congruence.
Qed.

(** Property X3.  [deleteBracketPair] never reads the tracker: whether the closer
    after the caret was inserted by the extension or typed by hand makes no
    difference to what Backspace does. *)
Theorem deleteBracketPair_ignores_marks
  (E : Env) (d : JS.str) (sel : EditorSelection) (ro : bool) (marks marks' : RangeSet.t) :
  deleteBracketPair E (mkState d sel ro marks) = deleteBracketPair E (mkState d sel ro marks').
Proof.
  unfold deleteBracketPair, config. cbn [readOnly doc selection].
  destruct ro; [reflexivity|].
  match goal with
  | |- match updateByRange ?s ?f None with _ => _ end =
       match updateByRange ?s' ?g None with _ => _ end =>
      assert (Hu : updateByRange s f None = updateByRange s' g None);
        [apply updateByRange_ext; [reflexivity | reflexivity |] | now rewrite Hu]
  end.
  intros range _. unfold deleteBracketPairRange. cbn [doc].
  destruct (rangeEmpty range); [|reflexivity].
  now apply deleteBracketPairLoop_doc.
Qed.

(** Property X4.  On a writable state [deleteBracketPair] returns [false], and
    dispatches nothing, exactly when some range of the selection is not a
    caret standing between a configured token and that token's closer: one
    such range keeps every other pair from being deleted. *)
Theorem deleteBracketPair_declines_iff (E : Env) (state : EditorState) :
  readOnly state = false ->
  let tokens := configBrackets (config E state (head (main (selection state)))) in
  deleteBracketPair E state = Some (false, None) <->
  exists range, In range (ranges (selection state)) /\
    (rangeEmpty range = false \/
     forall token, In token tokens ->
       token <> prevChar (doc state) (head range) \/
       nextChar (doc state) (head range) <> closingOf token).
Proof.
  intros Hro tokens. unfold deleteBracketPair. rewrite Hro. fold tokens.
  assert (Hnull : updateByRange state (deleteBracketPairRange state tokens) None = Null <->
                  exists range, In range (ranges (selection state)) /\
                    (rangeEmpty range = false \/
                     forall token, In token tokens ->
                       token <> prevChar (doc state) (head range) \/
                       nextChar (doc state) (head range) <> closingOf token)).
  { rewrite updateByRange_null_iff. split; intros [range [Hin H]]; exists range; split; auto.
    - unfold deleteBracketPairRange in H. destruct (rangeEmpty range); [|now left].
      right. now apply deleteBracketPairLoop_dont.
    - unfold deleteBracketPairRange. destruct (rangeEmpty range); [|reflexivity].
      apply deleteBracketPairLoop_dont. destruct H as [H|H]; [discriminate|exact H]. }
  rewrite <- Hnull.
  destruct (updateByRange state (deleteBracketPairRange state tokens) None);
    split; intros H; try discriminate; reflexivity.
Qed.

Lemma deleteBracketPair_declines_iff_witness :
  deleteBracketPair plainEnv
    (mkState [40; 41; 32; 40; 93] (mkSelection [cursor 1; cursor 4] 0) false []) =
  Some (false, None).
Proof.
  apply (deleteBracketPair_declines_iff plainEnv
           (mkState [40; 41; 32; 40; 93] (mkSelection [cursor 1; cursor 4] 0) false [])
           eq_refl).
  exists (cursor 4). split; [right; now left|].
  right. intros token Hin. cbn in Hin.
  destruct Hin as [<- | [<- | [<- | [<- | [<- | []]]]]];
    (left; discriminate) || (right; discriminate).
Defined.

Lemma slice_length_le (s : JS.str) (a b : Z) : JS.length (JS.slice s a b) <= JS.length s.
Proof.
  unfold JS.slice, JS.length. rewrite List.length_firstn, List.length_skipn. lia.
Qed.

Lemma sliceString_length_doc (d : JS.str) (f t : Z) :
  JS.length (Text.sliceString d f t) <= Z.max 0 (JS.length d - Z.max 0 f).
Proof.
  unfold Text.sliceString, JS.length. rewrite List.length_firstn, List.length_skipn. lia.
Qed.

Lemma nextChar_length_le (d : JS.str) (pos : Z) :
  0 <= pos -> JS.length (nextChar d pos) <= Z.max 0 (JS.length d - pos).
Proof.
  intros Hpos. unfold nextChar.
  pose proof (slice_length_le (Text.sliceString d pos (pos + 2)) 0
                (JS.codePointSize (JS.codePointAt (Text.sliceString d pos (pos + 2)) 0))).
  pose proof (sliceString_length_doc d pos (pos + 2)). lia.
Qed.

Lemma prevChar_length_le (d : JS.str) (pos : Z) : JS.length (prevChar d pos) <= Z.max 0 pos.
Proof.
  unfold prevChar.
  pose proof (sliceString_length d (pos - 2) pos) as H.
  destruct (_ =? _).
  - lia.
  - pose proof (slice_length_le (Text.sliceString d (pos - 2) pos) 1
                  (JS.length (Text.sliceString d (pos - 2) pos))).
    unfold JS.sliceFrom. lia.
Qed.

(** A closer is one code point: one code unit, or two for a code point
    beyond the basic plane. *)
Lemma closing_length (ch : Z) :
  1 <= JS.length (closing ch) <= 2 /\ (65536 <= ch -> JS.length (closing ch) = 2).
Proof.
  destruct (Z.eq_dec ch 40) as [->|H1]; [split; [cbn; lia | lia]|].
  destruct (Z.eq_dec ch 91) as [->|H2]; [split; [cbn; lia | lia]|].
  destruct (Z.eq_dec ch 123) as [->|H3]; [split; [cbn; lia | lia]|].
  destruct (Z.eq_dec ch 60) as [->|H4]; [split; [cbn; lia | lia]|].
  rewrite closing_outside_table by assumption. rewrite fromCodePoint_length.
  destruct (Z.ltb_spec ch 128).
  - destruct (Z.leb_spec ch 65535); lia.
  - destruct (Z.leb_spec (ch + 1) 65535); lia.
Qed.

Lemma closingOf_length (tok : JS.str) : 1 <= JS.length (closingOf tok) <= 2.
Proof.
  unfold closingOf. destruct (JS.codePointAt tok 0) as [ch|].
  - apply closing_length.
  - cbn. lia.
Qed.

(** A token of one code point is no longer than its closer. *)
Lemma closingOf_covers (tok : JS.str) :
  JS.length tok <= JS.codePointSize (JS.codePointAt tok 0) ->
  JS.length tok <= JS.length (closingOf tok).
Proof.
  intros H. pose proof (closingOf_length tok) as Hc.
  unfold closingOf in *. destruct (JS.codePointAt tok 0) as [ch|] eqn:Ecp.
  - cbn [JS.codePointSize] in H. destruct (Z.ltb_spec ch 65536); [lia|].
    destruct (closing_length ch) as [_ H2]. rewrite H2 by lia. lia.
  - cbn in *. lia.
Qed.

(** The transaction [deleteBracketPair] dispatches for a single caret
    between a token and its closer. *)
Lemma deleteBracketPair_single_caret (E : Env) (state : EditorState) (pos : Z) (token : JS.str) :
  readOnly state = false ->
  selection state = mkSelection [cursor pos] 0 ->
  In token (configBrackets (config E state pos)) ->
  token <> [] ->
  prevChar (doc state) pos = token ->
  nextChar (doc state) pos = closingOf token ->
  0 < JS.length token <= pos /\ pos + JS.length token <= JS.length (doc state) /\
  deleteBracketPair E state =
    Some (true, Some (mkTransaction
                        (singleChange (pos - JS.length token) (pos + JS.length token) []
                                      (JS.length (doc state)))
                        (Some (mkSelection [cursor (pos - JS.length token)] 0))
                        [] true None)).
Proof.
  intros Hro Hsel Hin Hne Hprev Hnext.
  assert (Hlen : 0 < JS.length token).
  { destruct token; [contradiction|]. rewrite length_cons. pose proof (length_nonneg token). lia. }
  assert (Hlo : JS.length token <= pos).
  { pose proof (prevChar_length_le (doc state) pos) as H. rewrite Hprev in H. lia. }
  assert (Hhi : pos + JS.length token <= JS.length (doc state)).
  { pose proof (nextChar_length_le (doc state) pos ltac:(lia)) as H. rewrite Hnext in H.
    pose proof (prevChar_one_code_point (doc state) pos) as H1. rewrite Hprev in H1.
    pose proof (closingOf_covers token H1). lia. }
  split; [lia|]. split; [exact Hhi|].
  unfold deleteBracketPair. rewrite Hro, Hsel. cbn [main mainIndex ranges nth head cursor].
  rewrite (updateByRange_single state _ None (cursor pos)) by now rewrite Hsel.
  unfold deleteBracketPairRange. rewrite rangeEmpty_cursor. cbn [head cursor].
  rewrite Hprev.
  rewrite (deleteBracketPairLoop_found state (cursor pos) token _ Hin Hnext).
  cbn [rrChanges rrEffects rrRange head cursor].
  unfold Text.length.
  rewrite ofSpecs_single by lia.
  rewrite Hsel. reflexivity.
Qed.

(** Property X5.  With a single caret between a configured token and that token's
    closer, on a writable state, [deleteBracketPair] returns [true] and
    dispatches a transaction that removes as many code units after the caret
    as the token has, and the token before it; the caret ends where the
    token started.  The transaction carries no effect and no user event. *)
Theorem deleteBracketPair_between_pair (E : Env) (state : EditorState) (pos : Z) (token : JS.str) :
  readOnly state = false ->
  selection state = mkSelection [cursor pos] 0 ->
  In token (configBrackets (config E state pos)) ->
  token <> [] ->
  prevChar (doc state) pos = token ->
  nextChar (doc state) pos = closingOf token ->
  exists tr,
    deleteBracketPair E state = Some (true, Some tr) /\
    effects tr = [] /\ userEvent tr = None /\ scrollIntoView tr = true /\
    doc (applyTransaction state tr) =
      firstn (Z.to_nat (pos - JS.length token)) (doc state) ++
      skipn (Z.to_nat (pos + JS.length token)) (doc state) /\
    selection (applyTransaction state tr) = mkSelection [cursor (pos - JS.length token)] 0.
Proof.
  intros Hro Hsel Hin Hne Hprev Hnext.
  destruct (deleteBracketPair_single_caret E state pos token Hro Hsel Hin Hne Hprev Hnext)
    as [Hlo [Hhi Hd]].
  eexists. split; [exact Hd|].
  cbn [effects userEvent scrollIntoView]. repeat (split; [reflexivity|]).
  unfold applyTransaction. cbn [doc selection changes trSelection].
  split; [|reflexivity].
  unfold singleChange. rewrite apply_single by lia. reflexivity.
Qed.

Lemma deleteBracketPair_between_pair_witness :
  exists tr,
    deleteBracketPair plainEnv (mkState [97; 91; 93; 98] (mkSelection [cursor 2] 0) false []) =
      Some (true, Some tr) /\
    doc (applyTransaction (mkState [97; 91; 93; 98] (mkSelection [cursor 2] 0) false []) tr) =
      [97; 98] /\
    selection (applyTransaction (mkState [97; 91; 93; 98] (mkSelection [cursor 2] 0) false []) tr) =
      mkSelection [cursor 1] 0.
Proof.
  destruct (deleteBracketPair_between_pair plainEnv
              (mkState [97; 91; 93; 98] (mkSelection [cursor 2] 0) false []) 2 [91]
              eq_refl eq_refl ltac:(right; left; reflexivity) ltac:(discriminate)
              eq_refl eq_refl) as [tr [H1 [_ [_ [_ [H2 H3]]]]]].
  exists tr. split; [exact H1|]. split; [exact H2 | exact H3].
Defined.

Lemma changeByRangeLoop_no_effects (len : Z) (results : list RangeResult) :
  (forall r, In r results -> rrEffects r = []) ->
  forall changes ranges cs rs effs,
    changeByRangeLoop len results changes ranges [] = Some (cs, rs, effs) -> effs = [].
Proof.
  induction results as [|r rest IH]; intros Hall changes ranges cs rs effs H.
  - cbn in H. now injection H as _ _ <-.
  - cbn [changeByRangeLoop] in H. rewrite (Hall r (or_introl eq_refl)) in H.
    cbn [mapEffects] in H.
    destruct (Change.ofSpecs _ _) as [newChanges|]; [|discriminate].
    destruct (Change.map _ _ _) as [newMapped|]; [|discriminate].
    destruct (Change.mapDesc _ _ _) as [mapBy|]; [|discriminate].
    destruct (mapRanges _ _) as [ranges'|]; [|discriminate].
    destruct (mapSelectionRange _ _) as [range'|]; [|discriminate].
    destruct (Change.compose _ _) as [changes'|]; [|discriminate].
    cbn [app] in H.
    apply (IH (fun r' Hr' => Hall r' (or_intror Hr')) _ _ _ _ _ H).
Qed.

(** Property X6.  Whenever [deleteBracketPair] returns [true], every range of the
    selection was a caret between a configured token and its closer, and the
    transaction it dispatched asks to scroll the selection into view and
    carries neither an effect nor a user event (the [userEvent] the callback
    puts in its result is not part of what [changeByRange] returns). *)
Theorem deleteBracketPair_transaction (E : Env) (state : EditorState) (tr : Transaction) :
  deleteBracketPair E state = Some (true, Some tr) ->
  readOnly state = false /\
  effects tr = [] /\ userEvent tr = None /\ scrollIntoView tr = true /\
  forall range, In range (ranges (selection state)) ->
    rangeEmpty range = true /\
    In (prevChar (doc state) (head range))
       (configBrackets (config E state (head (main (selection state))))) /\
    nextChar (doc state) (head range) = closingOf (prevChar (doc state) (head range)).
Proof.
  unfold deleteBracketPair. destruct (readOnly state); [discriminate|].
  set (tokens := configBrackets (config E state (head (main (selection state))))).
  destruct (updateByRange state (deleteBracketPairRange state tokens) None) as [tr'| |] eqn:Eu;
    try discriminate.
  intros H. injection H as ->. split; [reflexivity|].
  unfold updateByRange in Eu.
  destruct (existsb _ (ranges (selection state))) eqn:Ex; [discriminate|].
  assert (Hno : forall r, In r (List.map (fun range =>
                        outcomeResult (deleteBracketPairRange state tokens range))
                      (ranges (selection state))) -> rrEffects r = []).
  { intros r Hr. apply in_map_iff in Hr as [range [<- _]].
    unfold deleteBracketPairRange. destruct (rangeEmpty range); [|reflexivity].
    destruct (deleteBracketPairLoop state range _ tokens) as [r|r0] eqn:El; [|reflexivity].
    apply deleteBracketPairLoop_handled in El as [token [_ [_ [_ ->]]]]. reflexivity. }
  unfold changeByRange in Eu.
  destruct (List.map _ (ranges (selection state))) as [|result1 rest]; [discriminate|].
  destruct (Change.ofSpecs _ _) as [changes|]; [|discriminate].
  rewrite (Hno result1 (or_introl eq_refl)) in Eu.
  destruct (changeByRangeLoop _ rest changes _ _) as [[[cs rs] effs]|] eqn:Em; [|discriminate].
  injection Eu as <-. cbn [effects userEvent scrollIntoView].
  split; [|split; [reflexivity | split; [reflexivity|]]].
  - apply (changeByRangeLoop_no_effects _ rest (fun r Hr => Hno r (or_intror Hr)) _ _ _ _ _ Em).
  - intros range Hin.
    assert (Hd : isDont (deleteBracketPairRange state tokens range) = false).
    { destruct (isDont _) eqn:Ed; [|reflexivity].
      assert (existsb (fun range => isDont (deleteBracketPairRange state tokens range))
                      (ranges (selection state)) = true) by (apply existsb_exists; eauto).
      congruence. }
    unfold deleteBracketPairRange in Hd. destruct (rangeEmpty range); [|discriminate].
    split; [reflexivity|].
    destruct (deleteBracketPairLoop state range _ tokens) as [r|r0] eqn:El; [|discriminate].
    apply deleteBracketPairLoop_handled in El as [token [Hin' [Heq [Hn _]]]].
    subst token. split; assumption.
Qed.

Lemma deleteBracketPair_transaction_witness :
  effects (mkTransaction [(3, Some [])] (Some (mkSelection [cursor 0] 0)) [] true None) = [] /\
  nextChar (doc threeQuotes) 2 = closingOf (prevChar (doc threeQuotes) 2).
Proof.
  destruct (deleteBracketPair_transaction plainEnv threeQuotes
              (mkTransaction [(3, Some [])] (Some (mkSelection [cursor 0] 0)) [] true None)
              eq_refl) as [_ [H1 [_ [_ H2]]]].
  split; [exact H1|].
  exact (proj2 (proj2 (H2 (cursor 2) (or_intror (or_introl eq_refl))))).
Defined.

(** ** What is intercepted *)

Lemma insertBracketLoop_null (E : Env) (state : EditorState) (bracket : JS.str)
  (conf : CloseBracketConfig) (tokens rest : list JS.str) :
  ~ In bracket rest ->
  (closedBracketAt state (rangeFrom (main (selection state))) = false \/
   forall tok, In tok rest -> closingOf tok <> bracket) ->
  insertBracketLoop E state bracket conf tokens rest = Null.
Proof.
  induction rest as [|tok rest IH]; intros Hnot Hcl; [reflexivity|].
  cbn [insertBracketLoop].
  assert (Et : JS.eqb bracket tok = false).
  { apply eqb_neq. intros ->. apply Hnot. now left. }
  rewrite Et.
  assert (Ec : JS.eqb bracket (closingOf tok) &&
               closedBracketAt state (rangeFrom (main (selection state))) = false).
  { destruct Hcl as [Hm | Hc].
    - rewrite Hm. apply andb_false_r.
    - apply andb_false_iff. left. apply eqb_neq. intros ->. now apply (Hc tok); [left|]. }
  rewrite Ec. apply IH.
  - intros H. apply Hnot. now right.
  - destruct Hcl as [Hm | Hc]; [now left | right]. intros t Ht. apply Hc. now right.
Qed.

(** Property X7.  [insertBracket] returns [null] for every string that is not a
    configured token, unless that string is the closer of a configured token
    and the start of the main range is tracked: ordinary text is never
    intercepted, and a closer is not intercepted away from a tracked one. *)
Theorem insertBracket_null (E : Env) (state : EditorState) (bracket : JS.str) :
  let tokens := configBrackets (config E state (head (main (selection state)))) in
  ~ In bracket tokens ->
  (closedBracketAt state (rangeFrom (main (selection state))) = false \/
   forall tok, In tok tokens -> closingOf tok <> bracket) ->
  insertBracket E state bracket = Null.
Proof.
  intros tokens Hnot Hcl. unfold insertBracket. now apply insertBracketLoop_null.
Qed.

Lemma insertBracket_null_witness :
  insertBracket plainEnv openedParen [97] = Null /\
  insertBracket plainEnv (mkState [40; 41] (mkSelection [cursor 1] 0) false []) [41] = Null.
Proof.
  split.
  - apply (insertBracket_null plainEnv openedParen [97]).
    + cbn. intros [H | [H | [H | [H | [H | []]]]]]; discriminate.
    + right. cbn. intros tok [<- | [<- | [<- | [<- | [<- | []]]]]]; discriminate.
  - apply (insertBracket_null plainEnv (mkState [40; 41] (mkSelection [cursor 1] 0) false []) [41]).
    + cbn. intros [H | [H | [H | [H | [H | []]]]]]; discriminate.
    + left. reflexivity.
Defined.

(** Property X8.  The input handler leaves the view as it is whenever it returns
    [false].  It returns [true] only outside a composition, on a writable
    state, for an insertion that replaces exactly the main range by at most
    one code point (nothing, one code unit, or a surrogate pair) and for
    which [insertBracket] built a transaction; the view is then the result
    of dispatching that transaction. *)
Theorem inputHandler_contract
  (E : Env) (view view' : EditorView) (from to : Z) (insert : JS.str) :
  (inputHandler E view from to insert = Some (false, view') -> view' = view) /\
  (inputHandler E view from to insert = Some (true, view') ->
   (if android E then composing view else compositionStarted view) = false /\
   readOnly (viewState view) = false /\
   from = rangeFrom (main (selection (viewState view))) /\
   to = rangeTo (main (selection (viewState view))) /\
   (wellFormed insert ->
    insert = [] \/ (exists c, insert = [c]) \/
    exists hi lo, insert = [hi; lo] /\ JS.surrogateHigh hi = true /\ JS.surrogateLow lo = true) /\
   exists tr, insertBracket E (viewState view) insert = Ok tr /\ view' = dispatch view tr).
Proof.
  unfold inputHandler.
  destruct (if android E then composing view else compositionStarted view) eqn:Ec.
  { cbn [orb]. split; intros H; [now injection H as <- | discriminate]. }
  destruct (readOnly (viewState view)) eqn:Ero.
  { cbn [orb]. split; intros H; [now injection H as <- | discriminate]. }
  cbn [orb].
  destruct (2 <? JS.length insert) eqn:E2.
  { cbn [orb]. split; intros H; [now injection H as <- | discriminate]. }
  destruct ((JS.length insert =? 2) && (JS.codePointSize (JS.codePointAt insert 0) =? 1)) eqn:Es.
  { cbn [orb]. split; intros H; [now injection H as <- | discriminate]. }
  destruct (from =? rangeFrom (main (selection (viewState view)))) eqn:Ef.
  2:{ cbn [orb negb]. split; intros H; [now injection H as <- | discriminate]. }
  destruct (to =? rangeTo (main (selection (viewState view)))) eqn:Et.
  2:{ cbn [orb negb]. split; intros H; [now injection H as <- | discriminate]. }
  cbn [orb negb].
  destruct (insertBracket E (viewState view) insert) as [tr| |] eqn:Ei.
  - split; intros H; [discriminate|]. injection H as <-.
    apply Z.eqb_eq in Ef, Et. apply Z.ltb_ge in E2.
    repeat (split; [reflexivity || assumption|]).
    split; [|exists tr; split; reflexivity].
    intros Hwf. destruct insert as [|c [|c' rest]]; [now left | right; left; eauto |].
    right; right. destruct rest as [|c'' rest].
    + exists c, c'. split; [reflexivity|].
      change (JS.length [c; c'] =? 2) with true in Es. cbn [andb] in Es.
      rewrite codePointSize_two in Es by now inversion Hwf.
      destruct (JS.surrogateHigh c), (JS.surrogateLow c'); cbn [andb] in Es; try discriminate.
      split; reflexivity.
    + rewrite !length_cons in E2. pose proof (length_nonneg rest). lia.
  - split; intros H; [now injection H as <- | discriminate].
  - split; intros H; discriminate.
Qed.

Lemma inputHandler_contract_witness :
  mkView emptyDoc false false = mkView emptyDoc false false /\
  exists tr, insertBracket plainEnv emptyDoc [40] = Ok tr /\
    mkView (mkState [40; 41] (mkSelection [cursor 1] 0) false [(1, 2)]) false false =
    dispatch (mkView emptyDoc false false) tr.
Proof.
  split.
  - exact (proj1 (inputHandler_contract plainEnv (mkView emptyDoc false false)
                    (mkView emptyDoc false false) 0 0 [97]) eq_refl).
  - destruct (proj2 (inputHandler_contract plainEnv (mkView emptyDoc false false)
                       (mkView (mkState [40; 41] (mkSelection [cursor 1] 0) false [(1, 2)])
                               false false) 0 0 [40]) eq_refl)
      as [_ [_ [_ [_ [_ H]]]]].
    exact H.
Defined.

(** ** Wrapping a selection *)

Ltac settle_comparisons :=
  repeat first
    [ progress cbn [orb andb negb app List.rev rev Change.addSection Change.from Change.to
                    Change.insert]
    | match goal with
      | |- context [?x <? ?y] => destruct (Z.ltb_spec x y); try lia
      | |- context [?x <=? ?y] => destruct (Z.leb_spec x y); try lia
      | |- context [?x =? ?y] => destruct (Z.eqb_spec x y); try lia
      end ].

(** The change set of two insertions, one at each end of a range. *)
Lemma ofSpecs_wrap (len f t : Z) (open close : JS.str) :
  0 <= f < t -> t <= len -> open <> [] -> close <> [] ->
  Change.ofSpecs [insertAt f open; insertAt t close] len =
  Some (Change.emptySet f ++ [(0, Some open); (t - f, None); (0, Some close)] ++
        Change.emptySet (len - t)).
Proof.
  intros Hft Ht Ho Hc.
  assert (Hlo : 0 < JS.length open).
  { destruct open; [contradiction|]. rewrite length_cons. pose proof (length_nonneg open). lia. }
  assert (Hlc : 0 < JS.length close).
  { destruct close; [contradiction|]. rewrite length_cons. pose proof (length_nonneg close). lia. }
  unfold Change.ofSpecs, Change.ofFrom, insertAt, Change.emptySet.
  settle_comparisons; rewrite ?Z.sub_0_r, ?Z.sub_diag; reflexivity.
Qed.

Lemma apply_wrap (d : JS.str) (f t : Z) (open close : JS.str) :
  0 <= f <= t -> t <= JS.length d ->
  Change.apply (Change.emptySet f ++ [(0, Some open); (t - f, None); (0, Some close)] ++
                Change.emptySet (JS.length d - t)) d =
  firstn (Z.to_nat f) d ++ open ++ Text.sliceString d f t ++ close ++ skipn (Z.to_nat t) d.
Proof.
  intros Hft Ht. rewrite apply_emptySet_app. f_equal.
  cbn [app Change.apply skipn Z.to_nat]. f_equal.
  unfold Text.sliceString. rewrite Z.max_r by lia. f_equal. f_equal.
  rewrite skipn_skipn. replace (Z.to_nat (t - f) + Z.to_nat f)%nat with (Z.to_nat t) by lia.
  rewrite <- (app_nil_r (Change.emptySet _)), apply_emptySet_app. cbn [Change.apply].
  rewrite app_nil_r. apply firstn_all2. unfold JS.length. rewrite List.length_skipn. lia.
Qed.

Lemma rangeEmpty_false (range : SelectionRange) :
  rangeEmpty range = false -> rangeFrom range < rangeTo range.
Proof.
  unfold rangeEmpty, rangeFrom, rangeTo. intros H. apply Z.eqb_neq in H. lia.
Qed.

(** Property X9.  With one non-empty range selected, [handleOpen] never looks at the
    text around it: it puts the opening bracket before the selected text and
    the closer after it, keeps the same text selected in the same direction,
    and tracks the closer. *)
Theorem handleOpen_wraps_selection
  (state : EditorState) (open close closeBefore : JS.str) (range : SelectionRange) :
  ranges (selection state) = [range] ->
  rangeEmpty range = false ->
  0 <= rangeFrom range -> rangeTo range <= JS.length (doc state) ->
  open <> [] -> close <> [] ->
  exists tr,
    handleOpen state open close closeBefore = Ok tr /\
    userEvent tr = Some InputType /\
    let state' := applyTransaction state tr in
    doc state' =
      firstn (Z.to_nat (rangeFrom range)) (doc state) ++ open ++
      sliceDoc state (rangeFrom range) (rangeTo range) ++ close ++
      skipn (Z.to_nat (rangeTo range)) (doc state) /\
    ranges (selection state') =
      [mkRange (anchor range + JS.length open) (head range + JS.length open)] /\
    sliceDoc state' (rangeFrom range + JS.length open) (rangeTo range + JS.length open) =
      sliceDoc state (rangeFrom range) (rangeTo range) /\
    closedBracketAt state' (rangeTo range + JS.length open) = true.
Proof.
  intros Hone Hne Hf Ht Ho Hc.
  pose proof (rangeEmpty_false range Hne) as Hlt.
  unfold handleOpen. rewrite (updateByRange_single state _ _ range Hone).
  unfold handleOpenRange. rewrite Hne. cbn [negb rrChanges rrRange rrEffects].
  unfold Text.length. rewrite ofSpecs_wrap by (assumption || lia).
  eexists. split; [reflexivity|]. split; [reflexivity|].
  cbv zeta. unfold applyTransaction.
  cbn [changes trSelection effects doc selection ranges].
  assert (Hdoc : Change.apply
            (Change.emptySet (rangeFrom range) ++
             [(0, Some open); (rangeTo range - rangeFrom range, None); (0, Some close)] ++
             Change.emptySet (JS.length (doc state) - rangeTo range)) (doc state) =
          firstn (Z.to_nat (rangeFrom range)) (doc state) ++ open ++
          sliceDoc state (rangeFrom range) (rangeTo range) ++ close ++
          skipn (Z.to_nat (rangeTo range)) (doc state)).
  { apply apply_wrap; lia. }
  rewrite Hdoc.
  destruct (split_at (doc state) (rangeFrom range) ltac:(lia)) as [_ Hl].
  assert (Hmid : JS.length (sliceDoc state (rangeFrom range) (rangeTo range)) =
                 rangeTo range - rangeFrom range).
  { unfold sliceDoc, Text.sliceString, JS.length in *.
    rewrite List.length_firstn, List.length_skipn. lia. }
  split; [reflexivity|]. split; [reflexivity|]. split.
  - unfold sliceDoc at 1. cbn [doc].
    set (pre := firstn (Z.to_nat (rangeFrom range)) (doc state)) in *.
    set (mid := sliceDoc state (rangeFrom range) (rangeTo range)) in *.
    replace (pre ++ open ++ mid ++ close ++ skipn (Z.to_nat (rangeTo range)) (doc state))
      with ((pre ++ open) ++ mid ++ close ++ skipn (Z.to_nat (rangeTo range)) (doc state))
      by now rewrite <- app_assoc.
    replace (rangeFrom range + JS.length open) with (JS.length (pre ++ open))
      by (rewrite length_app; lia).
    replace (rangeTo range + JS.length open) with (JS.length (pre ++ open) + JS.length mid)
      by (rewrite length_app; lia).
    apply sliceString_mid.
  - unfold bracketState_update. cbn [effects fold_left].
    apply closedBracketAt_added. unfold Text.length.
    rewrite !length_app, Hl, Hmid.
    pose proof (length_nonneg open). pose proof (length_nonneg close).
    pose proof (length_nonneg (skipn (Z.to_nat (rangeTo range)) (doc state))). lia.
Qed.

Lemma handleOpen_wraps_selection_witness :
  exists tr,
    handleOpen (mkState [97; 98; 99] (mkSelection [mkRange 3 1] 0) false []) [40] [41] [] = Ok tr /\
    doc (applyTransaction (mkState [97; 98; 99] (mkSelection [mkRange 3 1] 0) false []) tr) =
      [97; 40; 98; 99; 41] /\
    ranges (selection (applyTransaction
                         (mkState [97; 98; 99] (mkSelection [mkRange 3 1] 0) false []) tr)) =
      [mkRange 4 2].
Proof.
  destruct (handleOpen_wraps_selection
              (mkState [97; 98; 99] (mkSelection [mkRange 3 1] 0) false []) [40] [41] []
              (mkRange 3 1) eq_refl eq_refl ltac:(vm_compute; discriminate)
              ltac:(vm_compute; discriminate) ltac:(discriminate) ltac:(discriminate))
    as [tr [H1 [_ [H2 [H3 _]]]]].
  exists tr. split; [exact H1|]. split; [exact H2 | exact H3].
Defined.

(** Property X10.  On a selection of non-empty ranges only, [handleSame] is
    [handleOpen] with the token as its own closer: the syntax tree, the
    characters around the ranges, the tracker and the triple-token option
    play no part. *)
Theorem handleSame_on_selections
  (E : Env) (state : EditorState) (token closeBefore : JS.str) (allowTriple : bool) :
  (forall range, In range (ranges (selection state)) -> rangeEmpty range = false) ->
  handleSame E state token allowTriple = handleOpen state token token closeBefore.
Proof.
  intros Hall. unfold handleSame, handleOpen.
  apply updateByRange_ext; [reflexivity | reflexivity |].
  intros range Hin. unfold handleSameRange, handleOpenRange.
  now rewrite (Hall range Hin).
Qed.

Lemma handleSame_on_selections_witness :
  handleSame oneNodeEnv (mkState [97; 98; 99] (mkSelection [mkRange 0 1; mkRange 3 2] 1) false [])
             [34] true =
  handleOpen (mkState [97; 98; 99] (mkSelection [mkRange 0 1; mkRange 3 2] 1) false [])
             [34] [34] [].
Proof.
  apply (handleSame_on_selections oneNodeEnv
           (mkState [97; 98; 99] (mkSelection [mkRange 0 1; mkRange 3 2] 1) false [])
           [34] [] true).
  intros range [<- | [<- | []]]; reflexivity.
Defined.

(** Property X11.  [handleOpen] returns [null] exactly when some caret of the
    selection stands before a character that is neither white space nor
    listed in [closeBefore]; a non-empty range never makes it give up, and
    one such caret is enough for no range to get its bracket. *)
Theorem handleOpen_null_iff (state : EditorState) (open close closeBefore : JS.str) :
  handleOpen state open close closeBefore = Null <->
  exists range, In range (ranges (selection state)) /\
    rangeEmpty range = true /\
    nextChar (doc state) (head range) <> [] /\
    JS.testSpace (nextChar (doc state) (head range)) = false /\
    JS.indexOf closeBefore (nextChar (doc state) (head range)) <= -1.
Proof.
  unfold handleOpen. rewrite updateByRange_null_iff.
  assert (Hd : forall range,
            isDont (handleOpenRange state open close closeBefore range) = true <->
            rangeEmpty range = true /\
            closesBefore closeBefore (nextChar (doc state) (head range)) = false).
  { intros range. unfold handleOpenRange.
    destruct (rangeEmpty range); cbn [negb isDont].
    - destruct (closesBefore closeBefore (nextChar (doc state) (head range)));
        cbn [isDont]; intuition discriminate.
    - intuition discriminate. }
  assert (Hc : forall next, closesBefore closeBefore next = false <->
            next <> [] /\ JS.testSpace next = false /\ JS.indexOf closeBefore next <= -1).
  { intros next. split.
    - intros H. repeat split.
      + intros ->. discriminate.
      + destruct (JS.testSpace next) eqn:Es; [|reflexivity].
        assert (closesBefore closeBefore next = true) by (apply closesBefore_iff; auto).
        congruence.
      + destruct (Z_le_gt_dec (JS.indexOf closeBefore next) (-1)); [assumption|].
        assert (closesBefore closeBefore next = true) by (apply closesBefore_iff; right; right; lia).
        congruence.
    - intros [H1 [H2 H3]]. apply not_true_is_false. intros H.
      apply closesBefore_iff in H as [H | [H | H]]; [contradiction | congruence | lia]. }
  split; intros [range [Hin H]]; exists range; (split; [exact Hin|]).
  - apply Hd in H as [He Hn]. split; [exact He|]. now apply Hc.
  - apply Hd. destruct H as [He Hn]. split; [exact He|]. now apply Hc.
Qed.

Lemma handleOpen_null_iff_witness :
  handleOpen (mkState [40; 97] (mkSelection [mkRange 0 1; cursor 1] 0) false [])
             [91] [93] defaultBefore = Null.
Proof.
  apply (handleOpen_null_iff (mkState [40; 97] (mkSelection [mkRange 0 1; cursor 1] 0) false [])
           [91] [93] defaultBefore).
  exists (cursor 1). split; [right; now left|].
  split; [reflexivity|]. split; [discriminate|]. split; [reflexivity|].
  vm_compute. discriminate.
Defined.

(** ** Looking for an enclosing string *)

Lemma probablyInStringLoop_iff (state : EditorState) (pos : Z) (quoteToken : JS.str)
  (fuel : nat) :
  forall node,
    probablyInStringLoop state pos quoteToken node fuel = true <->
    exists k n, (k < fuel)%nat /\ ancestor k node = Some n /\
      sliceDoc state (nodeFrom n) (nodeFrom n + JS.length quoteToken) = quoteToken /\
      forall j m, (j < k)%nat -> ancestor j node = Some m -> nodeTo m = pos.
Proof.
  induction fuel as [|fuel IH]; intros node; cbn [probablyInStringLoop].
  - split; [discriminate|]. intros [k [n [Hk _]]]. inversion Hk.
  - destruct (JS.eqb (sliceDoc state (nodeFrom node) (nodeFrom node + JS.length quoteToken))
                     quoteToken) eqn:Es.
    + apply eqb_eq in Es. split; [intros _|reflexivity].
      exists O, node. split; [apply Nat.lt_0_succ|]. split; [reflexivity|].
      split; [exact Es|]. intros j m Hj. inversion Hj.
    + apply eqb_neq in Es.
      assert (Hstep : forall k n, ancestor k node = Some n ->
                sliceDoc state (nodeFrom n) (nodeFrom n + JS.length quoteToken) = quoteToken ->
                exists k' parent, k = S k' /\ nodeParent node = Some parent /\
                                  ancestor k' parent = Some n).
      { intros [|k'] n Ha Hn.
        - cbn in Ha. injection Ha as <-. contradiction.
        - cbn [ancestor] in Ha. destruct (nodeParent node) as [parent|]; [|discriminate].
          exists k', parent. auto. }
      destruct (nodeTo node =? pos) eqn:Et.
      * apply Z.eqb_eq in Et.
        destruct (nodeParent node) as [parent|] eqn:Ep.
        -- rewrite IH. split.
           ++ intros [k [n [Hk [Ha [Hn Hall]]]]]. exists (S k), n.
              split; [now apply -> Nat.succ_lt_mono|].
              split; [cbn [ancestor]; now rewrite Ep|]. split; [exact Hn|].
              intros [|j] m Hj Hm.
              ** cbn in Hm. now injection Hm as <-.
              ** cbn [ancestor] in Hm. rewrite Ep in Hm.
                 apply (Hall j m); [now apply Nat.succ_lt_mono | exact Hm].
           ++ intros [k [n [Hk [Ha [Hn Hall]]]]].
              destruct (Hstep k n Ha Hn) as [k' [parent' [-> [Hp Ha']]]].
              rewrite ?Ep in Hp. injection Hp as <-.
              exists k', n. split; [now apply Nat.succ_lt_mono|]. split; [exact Ha'|].
              split; [exact Hn|]. intros j m Hj Hm.
              apply (Hall (S j) m); [now apply -> Nat.succ_lt_mono|].
              cbn [ancestor]. now rewrite Ep.
        -- split; [discriminate|]. intros [k [n [Hk [Ha [Hn Hall]]]]].
           destruct (Hstep k n Ha Hn) as [k' [parent' [_ [Hp _]]]]. discriminate.
      * apply Z.eqb_neq in Et. split; [discriminate|].
        intros [k [n [Hk [Ha [Hn Hall]]]]].
        destruct (Hstep k n Ha Hn) as [k' [parent' [-> _]]].
        exfalso. apply Et. apply (Hall O node); [apply Nat.lt_0_succ | reflexivity].
Qed.

(** Property X12.  [probablyInString] answers [true] exactly when, among the
    innermost node ending before the position and its next four ancestors,
    some node starts with the quote token while every node below it ends at
    the position.  A node further up than that is never looked at. *)
Theorem probablyInString_iff (E : Env) (state : EditorState) (pos : Z) (quoteToken : JS.str) :
  probablyInString E state pos quoteToken = true <->
  exists k n, (k < 5)%nat /\
    ancestor k (resolveInner E (doc state) pos (-1)) = Some n /\
    sliceDoc state (nodeFrom n) (nodeFrom n + JS.length quoteToken) = quoteToken /\
    forall j m, (j < k)%nat ->
      ancestor j (resolveInner E (doc state) pos (-1)) = Some m -> nodeTo m = pos.
Proof.
  unfold probablyInString. apply probablyInStringLoop_iff.
Qed.

Lemma probablyInString_iff_witness :
  probablyInString oneNodeEnv (mkState [34; 97] (mkSelection [cursor 2] 0) false []) 2 [34] = true.
Proof.
  apply (probablyInString_iff oneNodeEnv (mkState [34; 97] (mkSelection [cursor 2] 0) false [])
           2 [34]).
  exists 0%nat, (ChildNode 0 2 (TopNode 0 2)).
  split; [apply Nat.lt_0_succ|]. split; [reflexivity|]. split; [reflexivity|].
  intros j m Hj. inversion Hj.
Defined.

(** ** Tokens of several characters *)

(** Property X13.  A string of more than two code units is never the closer of a
    token, nor its own closer: [insertBracket] treats it, when it is a
    configured token (a triple quote, say), as an opening bracket whose
    closer is the closer of its first character, and returns [null]
    otherwise. *)
Theorem insertBracket_long_token (E : Env) (state : EditorState) (bracket : JS.str) :
  let conf := config E state (head (main (selection state))) in
  2 < JS.length bracket ->
  closingOf bracket <> bracket /\
  insertBracket E state bracket =
    if JS.arrayIncludes (configBrackets conf) bracket
    then handleOpen state bracket (closingOf bracket) (configBefore conf)
    else Null.
Proof.
  intros conf Hlen.
  assert (Hne : forall tok, closingOf tok <> bracket).
  { intros tok H. pose proof (closingOf_length tok) as Hc. rewrite H in Hc. lia. }
  split; [apply Hne|].
  unfold insertBracket, JS.arrayIncludes. fold conf.
  apply insertBracketLoop_open. intros tok _. apply Hne.
Qed.

Lemma insertBracket_long_token_witness :
  insertBracket oneNodeEnv emptyDoc [34; 34; 34] =
  handleOpen emptyDoc [34; 34; 34] [34] defaultBefore.
Proof.
  exact (proj2 (insertBracket_long_token oneNodeEnv emptyDoc [34; 34; 34] ltac:(vm_compute; reflexivity))).
Defined.

(** ** The tracker *)

Lemma map_marks (rs : RangeSet.t) (cs : Change.Set_) (x : Z * Z) :
  In x (RangeSet.map rs cs) -> fst x < snd x.
Proof.
  induction rs as [|r rest IH]; cbn [RangeSet.map]; [intros []|].
  destruct (RangeSet.mapRange cs r) as [r'|] eqn:Er; [|exact IH].
  intros [<- | H]; [|now apply IH].
  unfold RangeSet.mapRange in Er.
  destruct (Change.mapPos cs (fst r) 1 Change.Simple) as [f| |]; try discriminate.
  destruct (Change.mapPos cs (snd r) (-1) Change.Simple) as [t| |]; try discriminate.
  destruct (Z.ltb_spec t f); [discriminate|].
  destruct (Z.eqb_spec f t); [discriminate|].
  cbn [orb] in Er. injection Er as <-. cbn [fst snd]. lia.
Qed.

Lemma applyEffects_marks (effs : list StateEffect) :
  forall rs, (forall x, In x rs -> fst x < snd x) ->
  forall x, In x (fold_left applyEffect effs rs) -> fst x < snd x.
Proof.
  induction effs as [|e effs IH]; intros rs Hrs x; cbn [fold_left]; [apply Hrs|].
  apply IH. intros y Hy. destruct e as [v|v]; cbn [applyEffect] in Hy.
  - apply add_In in Hy as [-> | Hy]; [cbn; lia | now apply Hrs].
  - unfold RangeSet.filter in Hy. apply filter_In in Hy as [Hy _]. now apply Hrs.
Qed.

(** Property X14.  The tracker never holds an empty or inverted mark: if every
    stored mark covers at least one position before a transaction, so does
    every mark stored after it, whatever the transaction.  A mark whose text
    was deleted is dropped rather than kept empty, and a new mark covers
    one position. *)
Theorem bracketState_marks_nonempty (state : EditorState) (tr : Transaction) :
  (forall x, In x (bracketState state) -> fst x < snd x) ->
  forall x, In x (bracketState (applyTransaction state tr)) -> fst x < snd x.
Proof.
  intros _. unfold applyTransaction, bracketState_update. cbn [bracketState].
  apply applyEffects_marks. intros y. apply map_marks.
Qed.

Lemma bracketState_marks_nonempty_witness :
  In (3, 4) (bracketState (applyTransaction caretAfterAb openParenAfterAb)) /\
  fst (3, 4) < snd (3, 4).
Proof.
  assert (Hin : In (3, 4) (bracketState (applyTransaction caretAfterAb openParenAfterAb)))
    by (left; reflexivity).
  split; [exact Hin|].
  apply (bracketState_marks_nonempty caretAfterAb openParenAfterAb); [|exact Hin].
  intros x [].
Defined.

(** ** Same-token pairs *)

(** Property X15.  A caret keeps [handleSame] from pairing the token, and makes it
    return [null] for the whole selection, when the character after the
    caret is not the token, the caret does not follow an opening pair of a
    triple token, and one of these holds: the character after the caret is a
    word character, the code unit before it is the token or a word
    character, or the position looks like the inside of a string. *)
Theorem handleSame_declines
  (E : Env) (state : EditorState) (token : JS.str) (allowTriple : bool)
  (range : SelectionRange) :
  In range (ranges (selection state)) ->
  rangeEmpty range = true ->
  let pos := head range in
  let next := nextChar (doc state) pos in
  let prev := sliceDoc state (pos - 1) pos in
  next <> token ->
  (allowTriple = false \/
   sliceDoc state (pos - 2 * JS.length token) pos <> token ++ token \/
   nodeStart E state (pos - 2 * JS.length token) = false) ->
  (isWord (charCategorizer E (doc state) pos next) = true \/
   prev = token \/
   isWord (charCategorizer E (doc state) pos prev) = true \/
   probablyInString E state pos token = true) ->
  handleSameRange E state token allowTriple range = Dont range /\
  handleSame E state token allowTriple = Null.
Proof.
  intros Hin He pos next prev Hn Ht Hw.
  assert (Hd : handleSameRange E state token allowTriple range = Dont range).
  { unfold handleSameRange. rewrite He. cbn [negb]. fold pos. fold next.
    apply eqb_neq in Hn. rewrite Hn.
    assert (Et : allowTriple &&
                 JS.eqb (sliceDoc state (pos - 2 * JS.length token) pos) (token ++ token) &&
                 nodeStart E state (pos - 2 * JS.length token) = false).
    { destruct Ht as [-> | [H | H]].
      - reflexivity.
      - apply eqb_neq in H. rewrite H. now rewrite andb_false_r.
      - rewrite H. apply andb_false_r. }
    rewrite Et. fold prev.
    destruct (isWord (charCategorizer E (doc state) pos next)); [reflexivity|]. cbn [negb].
    destruct Hw as [H | [H | [H | H]]].
    - discriminate.
    - apply eqb_eq in H. rewrite H. reflexivity.
    - rewrite H. cbn [negb]. now rewrite andb_false_r.
    - rewrite H. cbn [negb]. now rewrite andb_false_r. }
  split; [exact Hd|].
  apply (updateByRange_dont state _ _ range Hin). now rewrite Hd.
Qed.

Lemma handleSame_declines_witness :
  handleSame plainEnv (mkState [100; 111; 110; 116] (mkSelection [cursor 3] 0) false [])
             [39] false = Null.
Proof.
  exact (proj2 (handleSame_declines plainEnv
                  (mkState [100; 111; 110; 116] (mkSelection [cursor 3] 0) false [])
                  [39] false (cursor 3) (or_introl eq_refl) eq_refl
                  ltac:(discriminate) (or_introl eq_refl) (or_introl eq_refl))).
Defined.

(** Property X16.  Typing a token in front of the same token, tracked and not at the
    start of a syntax node, with a single caret: the document stays as it
    is and the caret moves over one token, or over three when the triple
    token is configured and three tokens follow the caret. *)
Theorem handleSame_skip_distance
  (E : Env) (state : EditorState) (token : JS.str) (allowTriple : bool) (pos : Z) :
  selection state = mkSelection [cursor pos] 0 ->
  nextChar (doc state) pos = token ->
  nodeStart E state pos = false ->
  closedBracketAt state pos = true ->
  exists tr,
    handleSame E state token allowTriple = Ok tr /\
    doc (applyTransaction state tr) = doc state /\
    (allowTriple = true ->
     sliceDoc state pos (pos + JS.length token * 3) = token ++ token ++ token ->
     selection (applyTransaction state tr) =
       mkSelection [cursor (pos + JS.length token * 3)] 0) /\
    (allowTriple = false \/
     sliceDoc state pos (pos + JS.length token * 3) <> token ++ token ++ token ->
     selection (applyTransaction state tr) =
       mkSelection [cursor (pos + JS.length token)] 0).
Proof.
  intros Hsel Hn Hs Hm. unfold handleSame.
  rewrite (updateByRange_single state _ _ (cursor pos)) by now rewrite Hsel.
  rewrite (handleSameRange_skip E state token allowTriple pos Hn Hs Hm).
  cbn [rrChanges rrEffects rrRange].
  rewrite ofSpecs_nil by apply length_nonneg.
  eexists. split; [reflexivity|].
  unfold applyTransaction. cbn [changes doc selection trSelection].
  rewrite Hsel. cbn [mainIndex].
  split; [unfold Text.length; apply apply_emptySet|]. split.
  - intros -> H3. apply eqb_eq in H3. rewrite H3. reflexivity.
  - intros H.
    assert (Et : allowTriple &&
                 JS.eqb (sliceDoc state pos (pos + JS.length token * 3))
                        (token ++ token ++ token) = false).
    { destruct H as [-> | H]; [reflexivity|]. apply eqb_neq in H. rewrite H. apply andb_false_r. }
    rewrite Et, Z.mul_1_r. reflexivity.
Qed.

Lemma handleSame_skip_distance_witness :
  exists tr,
    handleSame oneNodeEnv
      (mkState [97; 34; 34; 34] (mkSelection [cursor 1] 0) false [(1, 2)]) [34] true = Ok tr /\
    selection (applyTransaction
                 (mkState [97; 34; 34; 34] (mkSelection [cursor 1] 0) false [(1, 2)]) tr) =
      mkSelection [cursor 4] 0.
Proof.
  destruct (handleSame_skip_distance oneNodeEnv
              (mkState [97; 34; 34; 34] (mkSelection [cursor 1] 0) false [(1, 2)])
              [34] true 1 eq_refl eq_refl eq_refl eq_refl) as [tr [H1 [_ [H2 _]]]].
  exists tr. split; [exact H1|]. exact (H2 eq_refl eq_refl).
Defined.

(** ** From a key press to the new view *)

Lemma handleOpen_single_caret (state : EditorState) (open close closeBefore : JS.str) (pos : Z) :
  selection state = mkSelection [cursor pos] 0 ->
  0 <= pos <= JS.length (doc state) ->
  open ++ close <> [] ->
  closesBefore closeBefore (nextChar (doc state) pos) = true ->
  handleOpen state open close closeBefore =
  Ok (insertTransaction pos (open ++ close) (JS.length (doc state)) (pos + JS.length open)).
Proof.
  intros Hsel Hpos Hne Hq. unfold handleOpen.
  rewrite (updateByRange_single state _ _ (cursor pos)) by now rewrite Hsel.
  unfold handleOpenRange. rewrite rangeEmpty_cursor. cbn [negb head cursor].
  rewrite Hq. cbn [rrChanges rrEffects rrRange]. unfold insertAt, Text.length.
  rewrite ofSpecs_single by (try lia; now right).
  rewrite Hsel. reflexivity.
Qed.

(** What [nextChar] returns is at most one code point long. *)
Lemma nextChar_one_code_point (d : JS.str) (p : Z) :
  JS.length (nextChar d p) <= JS.codePointSize (JS.codePointAt (nextChar d p) 0).
Proof.
  unfold nextChar.
  set (next := Text.sliceString d p (p + 2)).
  assert (Hn : JS.length next <= 2).
  { pose proof (sliceString_length d p (p + 2)). fold next in H. lia. }
  destruct (codePointSize_cases (JS.codePointAt next 0)) as [E | E]; rewrite E.
  - pose proof (slice_0 next 1 ltac:(lia)) as Hs. rewrite Hs.
    destruct (codePointSize_cases (JS.codePointAt (firstn (Z.to_nat 1) next) 0)) as [-> | ->];
      unfold JS.length; rewrite List.length_firstn; lia.
  - rewrite slice_0 by lia. rewrite firstn_all2 by (unfold JS.length in Hn; lia).
    rewrite E. exact Hn.
Qed.

(** The transaction the input handler dispatches for an opening bracket
    typed at a single caret. *)
Lemma inputHandler_opens_with (E : Env) (view : EditorView) (pos : Z) (open : JS.str) :
  let state := viewState view in
  let conf := config E state pos in
  (if android E then composing view else compositionStarted view) = false ->
  readOnly state = false ->
  selection state = mkSelection [cursor pos] 0 ->
  0 <= pos <= JS.length (doc state) ->
  In open (configBrackets conf) ->
  JS.length open <= JS.codePointSize (JS.codePointAt open 0) ->
  (forall tok, In tok (configBrackets conf) -> closingOf tok <> open) ->
  closesBefore (configBefore conf) (nextChar (doc state) pos) = true ->
  inputHandler E view pos pos open =
  Some (true, dispatch view (insertTransaction pos (open ++ closingOf open)
                                               (JS.length (doc state)) (pos + JS.length open))).
Proof.
  intros state conf Hc Hro Hsel Hpos Hin Hone Hcl Hq.
  assert (Hmain : main (selection state) = cursor pos) by now rewrite Hsel.
  assert (Hne : open ++ closingOf open <> []).
  { pose proof (closingOf_length open) as H. intros E0.
    apply (f_equal JS.length) in E0. rewrite length_app in E0.
    change (JS.length []) with 0 in E0. pose proof (length_nonneg open). lia. }
  assert (Hi : insertBracket E state open =
               Ok (insertTransaction pos (open ++ closingOf open) (JS.length (doc state))
                                     (pos + JS.length open))).
  { unfold insertBracket. rewrite Hmain. cbn [head cursor]. fold conf.
    rewrite insertBracketLoop_open by exact Hcl.
    assert (Ex : existsb (JS.eqb open) (configBrackets conf) = true).
    { apply existsb_exists. exists open. split; [exact Hin | apply eqb_refl]. }
    rewrite Ex. now apply handleOpen_single_caret. }
  unfold inputHandler. fold state. rewrite Hc, Hro, Hmain. cbn [orb].
  unfold rangeFrom, rangeTo. cbn [anchor head cursor].
  rewrite Z.min_id, Z.max_id, Z.eqb_refl. cbn [negb orb].
  pose proof (codePointSize_cases (JS.codePointAt open 0)) as Hsz.
  assert (Hchk : (2 <? JS.length open) ||
                 (JS.length open =? 2) && (JS.codePointSize (JS.codePointAt open 0) =? 1) = false).
  { destruct (Z.ltb_spec 2 (JS.length open)); [lia|]. cbn [orb].
    destruct (Z.eqb_spec (JS.length open) 2); [|reflexivity]. cbn [andb].
    destruct (Z.eqb_spec (JS.codePointSize (JS.codePointAt open 0)) 1); [lia|reflexivity]. }
  rewrite Hchk, Hi. reflexivity.
Qed.

(** Property X17.  Typing an opening bracket: outside a composition, on a writable
    state with a single caret, the input handler takes over the insertion
    of a configured one-code-point token that is no token's closer when the
    caret stands at the end of the document, before white space or before a
    character listed in [before].  The view then holds the token followed
    by its closer, with the caret between them and the closer tracked. *)
Theorem inputHandler_opens (E : Env) (view : EditorView) (pos : Z) (open : JS.str) :
  let state := viewState view in
  let conf := config E state pos in
  let next := nextChar (doc state) pos in
  (if android E then composing view else compositionStarted view) = false ->
  readOnly state = false ->
  selection state = mkSelection [cursor pos] 0 ->
  0 <= pos <= JS.length (doc state) ->
  In open (configBrackets conf) ->
  JS.length open <= JS.codePointSize (JS.codePointAt open 0) ->
  (forall tok, In tok (configBrackets conf) -> closingOf tok <> open) ->
  (next = [] \/ JS.testSpace next = true \/ -1 < JS.indexOf (configBefore conf) next) ->
  exists view',
    inputHandler E view pos pos open = Some (true, view') /\
    composing view' = composing view /\
    compositionStarted view' = compositionStarted view /\
    doc (viewState view') =
      firstn (Z.to_nat pos) (doc state) ++ open ++ closingOf open ++
      skipn (Z.to_nat pos) (doc state) /\
    selection (viewState view') = mkSelection [cursor (pos + JS.length open)] 0 /\
    closedBracketAt (viewState view') (pos + JS.length open) = true.
Proof.
  intros state conf next Hc Hro Hsel Hpos Hin Hone Hcl Hq.
  apply closesBefore_iff in Hq.
  eexists. split; [now apply inputHandler_opens_with|].
  unfold dispatch.
  cbn [composing compositionStarted viewState]. split; [reflexivity|]. split; [reflexivity|].
  fold state.
  destruct (applyTransaction_insert state pos (open ++ closingOf open) (pos + JS.length open) Hpos)
    as [Hd [Hs Hm]].
  { rewrite length_app. pose proof (length_nonneg open).
    pose proof (length_nonneg (closingOf open)). lia. }
  rewrite Hd, <- app_assoc. split; [reflexivity|]. split; assumption.
Qed.

Lemma inputHandler_opens_witness :
  exists view',
    inputHandler plainEnv (mkView caretAfterAb false false) 2 2 [123] = Some (true, view') /\
    doc (viewState view') = [97; 98; 123; 125] /\
    selection (viewState view') = mkSelection [cursor 3] 0.
Proof.
  destruct (inputHandler_opens plainEnv (mkView caretAfterAb false false) 2 [123]
              eq_refl eq_refl eq_refl ltac:(vm_compute; split; discriminate)
              ltac:(right; right; left; reflexivity) ltac:(vm_compute; discriminate))
    as [view' [H1 [_ [_ [H2 [H3 _]]]]]].
  - cbn. intros tok [<- | [<- | [<- | [<- | [<- | []]]]]]; discriminate.
  - left. reflexivity.
  - exists view'. split; [exact H1|]. split; [exact H2 | exact H3].
Defined.

(** The transaction the input handler dispatches for a closer typed at a
    single caret over a tracked closer. *)
Lemma inputHandler_skips_with (E : Env) (view : EditorView) (pos : Z) (close : JS.str) :
  let state := viewState view in
  let conf := config E state pos in
  (if android E then composing view else compositionStarted view) = false ->
  readOnly state = false ->
  selection state = mkSelection [cursor pos] 0 ->
  closedBracketAt state pos = true ->
  (forall tok, In tok (configBrackets conf) -> tok <> close) ->
  (exists tok, In tok (configBrackets conf) /\ closingOf tok = close) ->
  nextChar (doc state) pos = close ->
  inputHandler E view pos pos close = Some (true, dispatch view (closeTransaction state close)).
Proof.
  intros state conf Hc Hro Hsel Hm Hno Hex Hn.
  assert (Hmain : main (selection state) = cursor pos) by now rewrite Hsel.
  assert (Hfrom : rangeFrom (cursor pos) = pos).
  { unfold rangeFrom. cbn [anchor head cursor]. apply Z.min_id. }
  assert (Hi : insertBracket E state close = Ok (closeTransaction state close)).
  { unfold insertBracket. rewrite Hmain. cbn [head cursor]. fold conf.
    destruct (insertBracketLoop_close E state close conf (configBrackets conf)
                (configBrackets conf)) as [tok [_ [_ ->]]].
    - now rewrite Hmain, Hfrom.
    - exact Hno.
    - exact Hex.
    - apply handleClose_ok. rewrite Hsel. intros range [<- | []].
      split; [apply rangeEmpty_cursor | exact Hn]. }
  unfold inputHandler. fold state. rewrite Hc, Hro, Hmain. cbn [orb].
  rewrite Hfrom. unfold rangeTo. cbn [anchor head cursor].
  rewrite Z.max_id, Z.eqb_refl. cbn [negb orb].
  assert (Hchk : (2 <? JS.length close) ||
                 (JS.length close =? 2) && (JS.codePointSize (JS.codePointAt close 0) =? 1) = false).
  { pose proof (nextChar_one_code_point (doc state) pos) as H1. rewrite Hn in H1.
    pose proof (codePointSize_cases (JS.codePointAt close 0)) as Hsz.
    destruct (Z.ltb_spec 2 (JS.length close)); [lia|]. cbn [orb].
    destruct (Z.eqb_spec (JS.length close) 2); [|reflexivity]. cbn [andb].
    destruct (Z.eqb_spec (JS.codePointSize (JS.codePointAt close 0)) 1); [lia|reflexivity]. }
  rewrite Hchk, Hi. reflexivity.
Qed.

(** What the transaction of [handleClose] does to a state with a single
    caret. *)
Lemma applyTransaction_close (state : EditorState) (pos : Z) (close : JS.str) :
  selection state = mkSelection [cursor pos] 0 ->
  let state' := applyTransaction state (closeTransaction state close) in
  doc state' = doc state /\
  selection state' = mkSelection [cursor (pos + JS.length close)] 0 /\
  closedBracketAt state' pos = false.
Proof.
  intros Hsel state'.
  assert (Hfrom : rangeFrom (cursor pos) = pos).
  { unfold rangeFrom. cbn [anchor head cursor]. apply Z.min_id. }
  split; [|split].
  - unfold state', applyTransaction, closeTransaction. cbn [doc changes].
    unfold Text.length. apply apply_emptySet.
  - unfold state', applyTransaction, closeTransaction. cbn [selection trSelection].
    rewrite Hsel. cbn [ranges mainIndex List.map head cursor].
    apply createSelection_single.
  - apply (skips_remove_marks state _ (List.map rangeFrom (ranges (selection state))));
      [reflexivity|].
    rewrite Hsel. cbn [ranges List.map]. rewrite Hfrom. now left.
Qed.

(** Property X18.  Typing a closer over a tracked one: outside a composition, on a
    writable state with a single caret that stands at a tracked position,
    right before the closer of a configured token, the input handler takes
    over the insertion of that closer (when it is not a token itself).  The
    document stays as it is, the caret moves past the closer and the
    position is no longer tracked. *)
Theorem inputHandler_skips (E : Env) (view : EditorView) (pos : Z) (close : JS.str) :
  let state := viewState view in
  let conf := config E state pos in
  (if android E then composing view else compositionStarted view) = false ->
  readOnly state = false ->
  selection state = mkSelection [cursor pos] 0 ->
  closedBracketAt state pos = true ->
  (forall tok, In tok (configBrackets conf) -> tok <> close) ->
  (exists tok, In tok (configBrackets conf) /\ closingOf tok = close) ->
  nextChar (doc state) pos = close ->
  exists view',
    inputHandler E view pos pos close = Some (true, view') /\
    doc (viewState view') = doc state /\
    selection (viewState view') = mkSelection [cursor (pos + JS.length close)] 0 /\
    closedBracketAt (viewState view') pos = false.
Proof.
  intros state conf Hc Hro Hsel Hm Hno Hex Hn.
  eexists. split; [now apply inputHandler_skips_with|].
  unfold dispatch. cbn [viewState]. now apply applyTransaction_close.
Qed.

Lemma inputHandler_skips_witness :
  exists view',
    inputHandler plainEnv (mkView openedParen false false) 1 1 [41] = Some (true, view') /\
    doc (viewState view') = [40; 41] /\
    selection (viewState view') = mkSelection [cursor 2] 0 /\
    closedBracketAt (viewState view') 1 = false.
Proof.
  apply (inputHandler_skips plainEnv (mkView openedParen false false) 1 [41]
           eq_refl eq_refl eq_refl eq_refl).
  - cbn. intros tok [<- | [<- | [<- | [<- | [<- | []]]]]]; discriminate.
  - exists [40]. split; [now left | reflexivity].
  - reflexivity.
Defined.

(** ** The tracker after a pair is deleted *)

Lemma sliceFrom_1 (s : JS.str) : JS.sliceFrom s 1 = skipn 1 s.
Proof.
  unfold JS.sliceFrom, JS.slice, JS.relIndex. pose proof (length_nonneg s) as Hs.
  change (1 <? 0) with false. cbv iota.
  destruct (Z.ltb_spec (JS.length s) 0); [lia|].
  rewrite Z.min_id.
  destruct s as [|c s]; [reflexivity|].
  pose proof (length_nonneg s) as Hs'.
  rewrite length_cons in *. rewrite Z.min_l by lia.
  change (Z.to_nat 1) with 1%nat. apply firstn_all2.
  unfold JS.length. cbn [skipn]. lia.
Qed.

(** What [prevChar] returns is the text right before the position. *)
Lemma prevChar_is_suffix (d : JS.str) (pos : Z) :
  0 <= pos <= JS.length d ->
  Text.sliceString d (pos - JS.length (prevChar d pos)) pos = prevChar d pos.
Proof.
  intros Hpos. unfold prevChar.
  set (prev := Text.sliceString d (pos - 2) pos).
  remember (Z.max 0 (pos - 2)) as m eqn:Em.
  assert (Hm : 0 <= m <= pos /\ pos - 2 <= m) by lia.
  assert (Hprev : prev = firstn (Z.to_nat (pos - m)) (skipn (Z.to_nat m) d)).
  { unfold prev, Text.sliceString. now rewrite <- Em. }
  assert (Hlen : JS.length prev = pos - m).
  { rewrite Hprev. unfold JS.length in *. rewrite List.length_firstn, List.length_skipn. lia. }
  clearbody prev. clear Em.
  destruct (_ =? _).
  - rewrite Hlen. replace (pos - (pos - m)) with m by lia.
    rewrite Hprev. unfold Text.sliceString. now rewrite (Z.max_r 0 m) by lia.
  - rewrite sliceFrom_1.
    assert (Hl1 : JS.length (skipn 1 prev) = JS.length prev - Z.min 1 (JS.length prev)).
    { unfold JS.length. rewrite List.length_skipn. lia. }
    rewrite Hl1, Hlen. rewrite Hprev, skipn_firstn_comm, skipn_skipn.
    unfold Text.sliceString.
    rewrite (Z.max_r 0 (pos - (pos - m - Z.min 1 (pos - m)))) by lia.
    destruct (Z.eq_dec pos m) as [-> | Hneq].
    + rewrite Z.sub_diag. change (Z.min 1 0) with 0. rewrite !Z.sub_0_r, Z.sub_diag.
      reflexivity.
    + f_equal; [|f_equal]; lia.
Qed.

Lemma sliceString_nth (d s : JS.str) (a b k : Z) :
  Text.sliceString d a b = s -> 0 <= a -> a <= k < a + JS.length s ->
  nth_error d (Z.to_nat k) = nth_error s (Z.to_nat (k - a)).
Proof.
  intros Hs Ha Hk. subst s. unfold Text.sliceString, JS.length in *.
  rewrite Z.max_r in * by lia.
  rewrite List.length_firstn in Hk.
  rewrite nth_error_firstn.
  destruct (Nat.ltb_spec (Z.to_nat (k - a)) (Z.to_nat (b - a))); [|lia].
  rewrite nth_error_skipn. f_equal. lia.
Qed.

(** The start of the line is the same in two documents that agree up to a
    position, looked up at that position or beyond it as long as no line
    break stands in between. *)
Lemma lineStart_stable (d d' : JS.str) (p p' : Z) :
  0 <= p' <= p -> p <= JS.length d -> p' <= JS.length d' ->
  (forall k, 0 <= k < p' -> nth_error d' (Z.to_nat k) = nth_error d (Z.to_nat k)) ->
  (forall k, p' <= k < p -> nth_error d (Z.to_nat k) <> Some 10) ->
  Text.lineStart d' p' = Text.lineStart d p /\ Text.lineStart d p <= p'.
Proof.
  intros Hp Hd Hd' Hsame Hno.
  destruct (lineStart_spec d p ltac:(lia)) as [Hs1 [Hs2 Hs3]].
  destruct (lineStart_spec d' p' ltac:(lia)) as [Ht1 [Ht2 Ht3]].
  set (s := Text.lineStart d p) in *. set (s' := Text.lineStart d' p') in *.
  assert (Hle : s <= p').
  { destruct (Z_le_gt_dec s p'); [assumption|]. exfalso.
    destruct Hs2 as [Hs2 | Hs2]; [lia|]. apply (Hno (s - 1)); [lia | exact Hs2]. }
  split; [|exact Hle].
  destruct (Z.lt_trichotomy s s') as [Hlt | [Heq | Hgt]]; [| now symmetry |].
  - exfalso. destruct Ht2 as [Ht2 | Ht2]; [lia|].
    rewrite Hsame in Ht2 by lia. apply (Hs3 (s' - 1)); [lia | lia | exact Ht2].
  - exfalso. destruct Hs2 as [Hs2 | Hs2]; [lia|].
    rewrite <- Hsame in Hs2 by lia. apply (Ht3 (s - 1)); [lia | lia | exact Hs2].
Qed.

Lemma map_In_iff (rs : RangeSet.t) (cs : Change.Set_) (y : Z * Z) :
  In y (RangeSet.map rs cs) <-> exists r, In r rs /\ RangeSet.mapRange cs r = Some y.
Proof.
  induction rs as [|r rest IH]; cbn [RangeSet.map].
  - split; [intros [] | intros [r [[] _]]].
  - destruct (RangeSet.mapRange cs r) as [r'|] eqn:Er.
    + cbn [In]. rewrite IH. split.
      * intros [<- | [x [Hx Hm]]].
        -- exists r. split; [now left | exact Er].
        -- exists x. split; [now right | exact Hm].
      * intros [x [[<- | Hx] Hm]]; [left; congruence | right; eauto].
    + rewrite IH. split.
      * intros [x [Hx Hm]]. exists x. split; [now right | exact Hm].
      * intros [x [[<- | Hx] Hm]]; [congruence | eauto].
Qed.

(** A mark of one position under the deletion of [a, b). *)
Lemma mapRange_deletion (a b len f : Z) :
  0 <= a < b -> b <= len -> 0 <= f -> f + 1 <= len ->
  RangeSet.mapRange (singleChange a b [] len) (f, f + 1) =
  if f + 1 <=? a then Some (f, f + 1)
  else if b <=? f then Some (f - (b - a), f + 1 - (b - a))
  else None.
Proof.
  intros Hab Hb Hf Hf1. unfold RangeSet.mapRange. cbn [fst snd].
  rewrite !mapPos_single by lia.
  unfold Change.tracksDeletion. change (JS.length []) with 0.
  change (1 <? 0) with false. change (-1 <? 0) with true.
  repeat match goal with
         | |- context [?x <? ?y] => destruct (Z.ltb_spec x y); try lia
         | |- context [?x <=? ?y] => destruct (Z.leb_spec x y); try lia
         | |- context [?x =? ?y] => destruct (Z.eqb_spec x y); try lia
         | _ => progress cbn [orb andb]
         end; try reflexivity; try (f_equal; f_equal; lia).
Qed.

(** Property X19.  After Backspace removed the pair around a single caret, the
    tracker holds what it held before, moved along with the text: positions
    before the pair are tracked as they were, positions after it are tracked
    where they moved to, and the mark of the deleted closer is gone.  So the
    closer of an enclosing pair that was tracked is still tracked -- now
    right after the caret.  (The marks are those the package sets: of one
    position each, inside the document; the token holds no line break.) *)
Theorem deleteBracketPair_marks (E : Env) (state : EditorState) (pos : Z) (token : JS.str) :
  readOnly state = false ->
  selection state = mkSelection [cursor pos] 0 ->
  In token (configBrackets (config E state pos)) ->
  token <> [] ->
  ~ In 10 token ->
  prevChar (doc state) pos = token ->
  nextChar (doc state) pos = closingOf token ->
  (forall x, In x (bracketState state) ->
     0 <= fst x /\ snd x = fst x + 1 /\ snd x <= JS.length (doc state)) ->
  exists tr,
    deleteBracketPair E state = Some (true, Some tr) /\
    forall p,
      closedBracketAt (applyTransaction state tr) p =
      closedBracketAt state (if p <? pos - JS.length token then p else p + 2 * JS.length token).
Proof.
  intros Hro Hsel Hin Hne Hnl Hprev Hnext Hmarks.
  destruct (deleteBracketPair_single_caret E state pos token Hro Hsel Hin Hne Hprev Hnext)
    as [Hlo [Hhi Hd]].
  eexists. split; [exact Hd|].
  set (n := JS.length token) in *.
  set (a := pos - n) in *. set (b := pos + n) in *.
  set (len := JS.length (doc state)) in *.
  assert (Hab : 0 <= a < b /\ b <= len /\ b - a = 2 * n) by (unfold a, b; lia).
  assert (Hdoc : Change.apply (singleChange a b [] len) (doc state) =
                 firstn (Z.to_nat a) (doc state) ++ skipn (Z.to_nat b) (doc state)).
  { unfold singleChange, len. rewrite apply_single by lia. reflexivity. }
  assert (Hlen' : JS.length (firstn (Z.to_nat a) (doc state) ++ skipn (Z.to_nat b) (doc state)) =
                  len - 2 * n).
  { unfold len, JS.length in *. rewrite List.length_app, List.length_firstn, List.length_skipn. lia. }
  assert (Hline : Text.lineStart (firstn (Z.to_nat a) (doc state) ++ skipn (Z.to_nat b) (doc state)) a
                  = Text.lineStart (doc state) pos /\
                  Text.lineStart (doc state) pos <= a).
  { apply lineStart_stable; try (unfold a in *; lia).
    - intros k Hk. rewrite nth_error_app1.
      + rewrite nth_error_firstn.
        destruct (Nat.ltb_spec (Z.to_nat k) (Z.to_nat a)); [reflexivity | lia].
      + rewrite List.length_firstn. unfold len, JS.length in *. lia.
    - intros k Hk Hten.
      pose proof (prevChar_is_suffix (doc state) pos ltac:(fold len; lia)) as Hsuf.
      rewrite Hprev in Hsuf. fold n in Hsuf. fold a in Hsuf.
      rewrite (sliceString_nth (doc state) token a pos k Hsuf) in Hten by (fold n; lia).
      apply Hnl. eapply nth_error_In. exact Hten. }
  destruct Hline as [Hline Hs].
  pose proof (lineStart_spec (doc state) pos ltac:(lia)) as [Hs0 _].
  assert (Hmarks' : bracketState
            (applyTransaction state
               (mkTransaction (singleChange a b [] len) (Some (mkSelection [cursor a] 0))
                              [] true None)) =
          RangeSet.map (bracketState state) (singleChange a b [] len)).
  { unfold applyTransaction, bracketState_update.
    cbn [bracketState changes trSelection effects fold_left doc main mainIndex ranges nth
         head cursor].
    rewrite Hsel. cbn [main mainIndex ranges nth head cursor].
    rewrite Hdoc, Hline.
    remember (Text.lineStart (doc state) pos) as s eqn:Es. clear Es Hline.
    assert (Hmap : Change.mapPos (singleChange a b [] len) s (-1) Change.Simple =
                   Change.Mapped s).
    { rewrite mapPos_single by lia.
      destruct (Z.ltb_spec s a); [reflexivity|].
      replace s with a by lia. cbn [Change.tracksDeletion].
      destruct (Z.ltb_spec a b); [|lia]. rewrite Z.eqb_refl. reflexivity. }
    rewrite Hmap. cbn [lineStartMoved]. rewrite Z.eqb_refl. reflexivity. }
  intros p. apply Bool.eq_iff_eq_true. rewrite !closedBracketAt_iff.
  rewrite Hmarks'. unfold applyTransaction at 1. cbn [doc changes]. rewrite Hdoc.
  unfold Text.length. rewrite Hlen'. fold len.
  split.
  - intros [to' [Hin' [Hp Hto]]].
    apply map_In_iff in Hin' as [[f t] [Hr Hm]].
    destruct (Hmarks _ Hr) as [Hf [Ht Htl]]. cbn [fst snd] in *. subst t. fold len in Htl.
    rewrite mapRange_deletion in Hm by lia.
    destruct (Z.leb_spec (f + 1) a).
    + injection Hm as <- <-. destruct (Z.ltb_spec f a); [|lia].
      exists (f + 1). split; [exact Hr | lia].
    + destruct (Z.leb_spec b f); [|discriminate].
      injection Hm as <- <-. destruct (Z.ltb_spec (f - (b - a)) a); [lia|].
      replace (f - (b - a) + 2 * n) with f by lia.
      exists (f + 1). split; [exact Hr | lia].
  - intros [to [Hin' [Hq Hto]]].
    destruct (Hmarks _ Hin') as [Hf [Ht Htl]]. cbn [fst snd] in *. subst to. fold len in Htl.
    exists (p + 1). split; [|destruct (Z.ltb_spec p a); lia].
    apply map_In_iff.
    eexists. split; [exact Hin'|].
    rewrite mapRange_deletion by lia.
    destruct (Z.ltb_spec p a).
    + destruct (Z.leb_spec (p + 1) a); [reflexivity | lia].
    + destruct (Z.leb_spec (p + 2 * n + 1) a); [lia|].
      destruct (Z.leb_spec b (p + 2 * n)); [|lia].
      f_equal. f_equal; lia.
Qed.

Lemma deleteBracketPair_marks_witness :
  exists tr,
    deleteBracketPair plainEnv
      (mkState [40; 40; 41; 41] (mkSelection [cursor 2] 0) false [(2, 3); (3, 4)]) =
      Some (true, Some tr) /\
    closedBracketAt
      (applyTransaction
         (mkState [40; 40; 41; 41] (mkSelection [cursor 2] 0) false [(2, 3); (3, 4)]) tr) 1 = true.
Proof.
  destruct (deleteBracketPair_marks plainEnv
              (mkState [40; 40; 41; 41] (mkSelection [cursor 2] 0) false [(2, 3); (3, 4)])
              2 [40] eq_refl eq_refl ltac:(left; reflexivity) ltac:(discriminate))
    as [tr [H1 H2]].
  - intros [H | []]. discriminate.
  - reflexivity.
  - reflexivity.
  - intros x [<- | [<- | []]]; cbn; lia.
  - exists tr. split; [exact H1|]. rewrite (H2 1). reflexivity.
Defined.

(** Property X20.  Typing an opening bracket and then its closer, both through the
    input handler, leaves exactly the two characters in the document with
    the caret after them, as if the extension were not there: the first key
    press inserts the pair, the second moves over the closer and stops
    tracking it.  (A single caret; a one-character bracket whose closer is
    another character; the bracket is configured before and after the first
    key press, and its closer is not itself a token.) *)
Theorem type_opener_then_closer (E : Env) (view : EditorView) (pos cp : Z) :
  let open := JS.fromCodePoint cp in
  let close := closing cp in
  let state := viewState view in
  let next := nextChar (doc state) pos in
  let state1 := applyTransaction state
                  (insertTransaction pos (open ++ close) (JS.length (doc state))
                                     (pos + JS.length open)) in
  (if android E then composing view else compositionStarted view) = false ->
  readOnly state = false ->
  selection state = mkSelection [cursor pos] 0 ->
  0 <= pos <= JS.length (doc state) ->
  scalarValue cp -> cp <> 55295 -> cp <> 65535 -> cp <> 1114111 ->
  close <> open ->
  In open (configBrackets (config E state pos)) ->
  (forall tok, In tok (configBrackets (config E state pos)) -> closingOf tok <> open) ->
  (next = [] \/ JS.testSpace next = true \/
   -1 < JS.indexOf (configBefore (config E state pos)) next) ->
  In open (configBrackets (config E state1 (pos + JS.length open))) ->
  (forall tok, In tok (configBrackets (config E state1 (pos + JS.length open))) ->
     tok <> close) ->
  exists view1 view2,
    inputHandler E view pos pos open = Some (true, view1) /\
    inputHandler E view1 (pos + JS.length open) (pos + JS.length open) close =
      Some (true, view2) /\
    doc (viewState view2) =
      firstn (Z.to_nat pos) (doc state) ++ open ++ close ++ skipn (Z.to_nat pos) (doc state) /\
    selection (viewState view2) =
      mkSelection [cursor (pos + JS.length open + JS.length close)] 0 /\
    closedBracketAt (viewState view2) (pos + JS.length open) = false.
Proof.
  intros open close state next state1 Hc Hro Hsel Hpos Hcp Hx1 Hx2 Hx3 Hasym Hin Hcl Hq
         Hin1 Hno1.
  destruct (closing_asymmetric cp Hcp Hx1 Hx2 Hx3 Hasym) as [cp' [Hcl' [Hcp' Hlen]]].
  fold open in Hlen. fold close in Hcl'.
  assert (Hclosing : closingOf open = close).
  { unfold closingOf, open. now rewrite codePointAt_fromCodePoint by exact Hcp. }
  assert (Hone : JS.length open <= JS.codePointSize (JS.codePointAt open 0)).
  { unfold open. rewrite codePointAt_fromCodePoint by exact Hcp. rewrite fromCodePoint_length.
    cbn [JS.codePointSize]. destruct (Z.leb_spec cp 65535), (Z.ltb_spec cp 65536); lia. }
  apply closesBefore_iff in Hq.
  pose proof (inputHandler_opens_with E view pos open Hc Hro Hsel Hpos Hin Hone Hcl Hq) as H1.
  rewrite Hclosing in H1. fold state in H1.
  set (tr := insertTransaction pos (open ++ close) (JS.length (doc state))
                               (pos + JS.length open)) in *.
  destruct (applyTransaction_insert state pos (open ++ close) (pos + JS.length open) Hpos)
    as [Hd1 [Hs1 Hm1]].
  { rewrite length_app. pose proof (length_nonneg open). pose proof (length_nonneg close). lia. }
  fold tr in Hd1, Hs1, Hm1. fold state1 in Hd1, Hs1, Hm1.
  destruct (split_at (doc state) pos Hpos) as [_ Hl].
  assert (Hn1 : nextChar (doc state1) (pos + JS.length open) = close).
  { rewrite Hd1, <- app_assoc, app_assoc, Hcl'.
    replace (pos + JS.length open)
      with (JS.length (firstn (Z.to_nat pos) (doc state) ++ open))
      by (rewrite length_app; lia).
    now apply nextChar_codePoint. }
  assert (H2 : inputHandler E (dispatch view tr) (pos + JS.length open) (pos + JS.length open)
                 close =
               Some (true, dispatch (dispatch view tr) (closeTransaction state1 close))).
  { apply inputHandler_skips_with; cbn [dispatch viewState composing compositionStarted];
      fold state; fold state1; try assumption.
    exists open. split; assumption. }
  exists (dispatch view tr), (dispatch (dispatch view tr) (closeTransaction state1 close)).
  split; [exact H1|]. split; [exact H2|].
  cbn [dispatch viewState]. fold state. fold state1.
  destruct (applyTransaction_close state1 (pos + JS.length open) close Hs1) as [Hd2 [Hs2 Hm2]].
  rewrite Hd2, Hd1, <- app_assoc. split; [reflexivity|]. split; assumption.
Qed.

Lemma type_opener_then_closer_witness :
  exists view1 view2,
    inputHandler plainEnv (mkView caretAfterAb false false) 2 2 [40] = Some (true, view1) /\
    inputHandler plainEnv view1 3 3 [41] = Some (true, view2) /\
    doc (viewState view2) = [97; 98; 40; 41] /\
    selection (viewState view2) = mkSelection [cursor 4] 0 /\
    closedBracketAt (viewState view2) 3 = false.
Proof.
  apply (type_opener_then_closer plainEnv (mkView caretAfterAb false false) 2 40
           eq_refl eq_refl eq_refl).
  - vm_compute. split; discriminate.
  - left. lia.
  - lia.
  - lia.
  - lia.
  - discriminate.
  - left. reflexivity.
  - cbn. intros tok [<- | [<- | [<- | [<- | [<- | []]]]]]; discriminate.
  - left. reflexivity.
  - left. reflexivity.
  - cbn. intros tok [<- | [<- | [<- | [<- | [<- | []]]]]]; discriminate.
Defined.
(** ** Several carets *)

(** Two insertions, the second after the first, as [changeByRange] combines
    them: the later one is moved behind the text of the earlier, the earlier
    one stays, and the two compose into one change set. *)
Lemma map_insert_after (len p1 p2 : Z) (t1 t2 : JS.str) :
  0 <= p1 < p2 -> p2 <= len -> t1 <> [] -> t2 <> [] ->
  Change.map (singleChange p2 p2 t2 len) (singleChange p1 p1 t1 len) false =
  Some (singleChange (p2 + JS.length t1) (p2 + JS.length t1) t2 (len + JS.length t1)).
Proof.
  intros Hp Hlen H1 H2.
  pose proof (length_pos t1 H1). pose proof (length_pos t2 H2).
  unfold singleChange, Change.emptySet. rewrite !Z.sub_diag.
  replace (p2 =? 0) with false by lia.
  replace (p2 + JS.length t1 =? 0) with false by lia.
  replace (len + JS.length t1 - (p2 + JS.length t1)) with (len - p2) by lia.
  replace (len - p1 =? 0) with false by lia.
  destruct (Z.eqb_spec p1 0), (Z.eqb_spec (len - p2) 0);
    unfold Change.map, Change.mapSet, Change.turns;
    cbn [app Change.isEmpty List.length Nat.add Nat.mul];
    walk_sections; repeat (f_equal; try lia).
Qed.

Lemma mapDesc_insert_before (len p1 p2 : Z) (t1 t2 : JS.str) :
  0 <= p1 < p2 -> p2 <= len -> t1 <> [] -> t2 <> [] ->
  Change.mapDesc (singleChange p1 p1 t1 len) (singleChange p2 p2 t2 len) true =
  Some (singleChange p1 p1 t1 (len + JS.length t2)).
Proof.
  intros Hp Hlen H1 H2.
  pose proof (length_pos t1 H1). pose proof (length_pos t2 H2).
  unfold singleChange, Change.emptySet. rewrite !Z.sub_diag.
  replace (p2 =? 0) with false by lia.
  replace (len + JS.length t2 - p1 =? 0) with false by lia.
  replace (len - p1 =? 0) with false by lia.
  destruct (Z.eqb_spec p1 0), (Z.eqb_spec (len - p2) 0);
    unfold Change.mapDesc, Change.mapSet, Change.turns;
    cbn [app Change.isEmpty List.length Nat.add Nat.mul];
    walk_sections; repeat (f_equal; try lia).
Qed.

Lemma compose_two_inserts (len p1 p2 : Z) (t1 t2 : JS.str) :
  0 <= p1 < p2 -> p2 <= len -> t1 <> [] -> t2 <> [] ->
  Change.compose (singleChange p1 p1 t1 len)
                 (singleChange (p2 + JS.length t1) (p2 + JS.length t1) t2
                               (len + JS.length t1)) =
  Some (Change.emptySet p1 ++ [(0, Some t1); (p2 - p1, None); (0, Some t2)] ++
        Change.emptySet (len - p2)).
Proof.
  intros Hp Hlen H1 H2.
  pose proof (length_pos t1 H1). pose proof (length_pos t2 H2).
  unfold singleChange, Change.emptySet. rewrite !Z.sub_diag.
  replace (p2 + JS.length t1 =? 0) with false by lia.
  replace (len + JS.length t1 - (p2 + JS.length t1)) with (len - p2) by lia.
  replace (len - p1 =? 0) with false by lia.
  destruct (Z.eqb_spec p1 0), (Z.eqb_spec (len - p2) 0);
    unfold Change.compose, Change.composeSets, Change.turns;
    cbn [app Change.isEmpty List.length Nat.add Nat.mul];
    walk_sections.
  all: repeat (f_equal; try lia).
Qed.


Lemma createSelection_two_carets (a b : Z) (m : nat) :
  0 <= a < b -> createSelection [cursor a; cursor b] m = mkSelection [cursor a; cursor b] m.
Proof.
  intros Hab. unfold createSelection. cbn [needsNormalizing].
  rewrite !rangeEmpty_cursor.
  assert (Hfrom : forall p, rangeFrom (cursor p) = p).
  { intros p. unfold rangeFrom. cbn [anchor head cursor]. apply Z.min_id. }
  assert (Hto : forall p, rangeTo (cursor p) = p).
  { intros p. unfold rangeTo. cbn [anchor head cursor]. apply Z.max_id. }
  rewrite !Hfrom, !Hto.
  destruct (Z.leb_spec b a); [lia|].
  destruct (Z.leb_spec a 0); [|reflexivity].
  unfold normalized, sortByFrom. cbn [tagMain fold_left insertSorted fst].
  rewrite !Hfrom. destruct (Z.ltb_spec b a); [lia|].
  cbn [List.map fst normalizedFrom]. rewrite !rangeEmpty_cursor, !Hfrom, !Hto.
  destruct (Z.leb_spec b a); [lia|].
  destruct m as [|[|m]]; reflexivity.
Qed.

(** Property X21.  With two carets that both stand where a bracket may be closed,
    [handleOpen] gives each its pair in one transaction: the text between
    the carets is untouched, each caret ends between its own two brackets,
    and both closers are tracked. *)
Theorem handleOpen_two_carets
  (state : EditorState) (open close closeBefore : JS.str) (p1 p2 : Z) (m : nat) :
  selection state = mkSelection [cursor p1; cursor p2] m ->
  0 <= p1 < p2 -> p2 <= JS.length (doc state) ->
  open ++ close <> [] ->
  closesBefore closeBefore (nextChar (doc state) p1) = true ->
  closesBefore closeBefore (nextChar (doc state) p2) = true ->
  let lo := JS.length open in
  let d := JS.length open + JS.length close in
  exists tr,
    handleOpen state open close closeBefore = Ok tr /\
    effects tr = [closeBracketEffect (p1 + lo); closeBracketEffect (p2 + d + lo)] /\
    let state' := applyTransaction state tr in
    doc state' =
      firstn (Z.to_nat p1) (doc state) ++ open ++ close ++ sliceDoc state p1 p2 ++
      open ++ close ++ skipn (Z.to_nat p2) (doc state) /\
    selection state' = mkSelection [cursor (p1 + lo); cursor (p2 + d + lo)] m /\
    closedBracketAt state' (p1 + lo) = true /\
    closedBracketAt state' (p2 + d + lo) = true.
Proof.
  intros Hsel Hp Hp2 Hne Hq1 Hq2 lo d.
  assert (Hocpos : 0 < JS.length (open ++ close)) by now apply length_pos.
  set (oc := open ++ close) in *.
  set (len := JS.length (doc state)).
  assert (Hd : JS.length oc = d) by (unfold oc, d; apply length_app).
  assert (Hlo : 0 <= lo) by apply length_nonneg.
  assert (Hlc : 0 <= JS.length close) by apply length_nonneg.
  assert (Hdpos : 0 < d) by lia.
  assert (Hr : forall p, closesBefore closeBefore (nextChar (doc state) p) = true ->
             handleOpenRange state open close closeBefore (cursor p) =
             Handled (mkResult [insertAt p oc] [closeBracketEffect (p + lo)] (cursor (p + lo)))).
  { intros p Hq. unfold handleOpenRange. rewrite rangeEmpty_cursor. cbn [negb head cursor].
    now rewrite Hq. }
  unfold handleOpen, updateByRange, changeByRange. rewrite Hsel.
  cbn [ranges mainIndex existsb List.map].
  rewrite (Hr p1 Hq1), (Hr p2 Hq2).
  cbn [isDont orb outcomeResult rrChanges rrEffects rrRange changeByRangeLoop].
  unfold Text.length, insertAt. fold len.
  rewrite (ofSpecs_single len p1 p1 oc) by (try lia; now right).
  rewrite (ofSpecs_single len p2 p2 oc) by (try lia; now right).
  fold (singleChange p1 p1 oc len). fold (singleChange p2 p2 oc len).
  rewrite (map_insert_after len p1 p2 oc oc) by assumption.
  rewrite (mapDesc_insert_before len p1 p2 oc oc) by assumption.
  rewrite (compose_two_inserts len p1 p2 oc oc) by assumption.
  rewrite Hd.
  cbn [mapRanges mapEffects]. unfold mapSelectionRange, closeBracketEffect_map.
  rewrite !rangeEmpty_cursor.
  assert (Hfrom : forall p, rangeFrom (cursor p) = p).
  { intros p. unfold rangeFrom. cbn [anchor head cursor]. apply Z.min_id. }
  rewrite !Hfrom.
  rewrite !mapPos_single by lia.
  destruct (Z.ltb_spec (p1 + lo) (p2 + d)); [|lia].
  destruct (Z.ltb_spec (p2 + lo) p1); [lia|].
  cbn [Change.tracksDeletion].
  destruct (Z.leb_spec (p2 + lo) p1); [lia|]. cbn [andb].
  destruct (Z.eqb_spec p1 (p2 + lo)); [lia|]. cbn [orb andb].
  rewrite Hd. rewrite Z.sub_diag, Z.sub_0_r.
  replace (p2 + lo + d) with (p2 + d + lo) by lia.
  cbn [app].
  rewrite createSelection_two_carets by lia.
  eexists. split; [reflexivity|]. split; [reflexivity|].
  cbv zeta. unfold applyTransaction.
  cbn [changes trSelection effects doc selection].
  match goal with
  | |- context [Change.apply ?cs (doc state)] => set (newDoc := Change.apply cs (doc state))
  end.
  assert (Hdoc : newDoc =
          firstn (Z.to_nat p1) (doc state) ++ open ++ close ++ sliceDoc state p1 p2 ++
          open ++ close ++ skipn (Z.to_nat p2) (doc state)).
  { transitivity (Change.apply
                    (Change.emptySet p1 ++ [(0, Some oc); (p2 - p1, None); (0, Some oc)] ++
                     Change.emptySet (JS.length (doc state) - p2)) (doc state));
      [reflexivity|].
    rewrite apply_wrap by (fold len; lia). unfold oc, sliceDoc.
    now rewrite <- !app_assoc. }
  clearbody newDoc. subst newDoc. split; [reflexivity|]. split; [reflexivity|].
  assert (Hlen' : Text.length
            (firstn (Z.to_nat p1) (doc state) ++ open ++ close ++ sliceDoc state p1 p2 ++
             open ++ close ++ skipn (Z.to_nat p2) (doc state)) = len + 2 * d).
  { unfold Text.length. rewrite !length_app.
    destruct (split_at (doc state) p1 ltac:(fold len; lia)) as [_ Hl1]. rewrite Hl1.
    assert (Hmid : JS.length (sliceDoc state p1 p2) = p2 - p1).
    { unfold sliceDoc, Text.sliceString, len, JS.length in *.
      rewrite List.length_firstn, List.length_skipn. lia. }
    assert (Hpost : JS.length (skipn (Z.to_nat p2) (doc state)) = len - p2).
    { unfold len, JS.length in *. rewrite List.length_skipn. lia. }
    rewrite Hmid, Hpost. unfold d, lo. lia. }
  unfold bracketState_update. cbn [effects fold_left].
  set (rs := RangeSet.map _ _).
  split.
  - apply closedBracketAt_iff. cbn [bracketState doc]. rewrite Hlen'.
    exists (p1 + lo + 1). split; [|lia].
    cbn [applyEffect]. apply add_In. right. apply add_In. now left.
  - apply closedBracketAt_added. rewrite Hlen'. lia.
Qed.

Lemma handleOpen_two_carets_witness :
  exists tr,
    handleOpen (mkState [32; 32] (mkSelection [cursor 0; cursor 1] 1) false []) [40] [41]
               defaultBefore = Ok tr /\
    doc (applyTransaction (mkState [32; 32] (mkSelection [cursor 0; cursor 1] 1) false []) tr) =
      [40; 41; 32; 40; 41; 32] /\
    selection (applyTransaction (mkState [32; 32] (mkSelection [cursor 0; cursor 1] 1) false [])
                                tr) =
      mkSelection [cursor 1; cursor 4] 1.
Proof.
  destruct (handleOpen_two_carets (mkState [32; 32] (mkSelection [cursor 0; cursor 1] 1) false [])
              [40] [41] defaultBefore 0 1 1%nat eq_refl ltac:(lia) ltac:(vm_compute; discriminate)
              ltac:(discriminate) eq_refl eq_refl) as [tr [H1 [_ [H2 [H3 _]]]]].
  exists tr. split; [exact H1|]. split; [exact H2 | exact H3].
Defined.

(** ** What the transactions never do *)

Lemma addSection_join (rev : list Change.Sect) (len : Z) (ins : option JS.str) :
  Change.addSection rev len ins = Change.addSectionJoin rev len ins false.
Proof. destruct ins; reflexivity. Qed.

Lemma sectionsAll_rev (Q : Z -> option JS.str -> Prop) (rev : list Change.Sect) :
  sectionsAll Q rev -> sectionsAll Q (List.rev rev).
Proof. intros H len ins Hin. apply H. now apply in_rev. Qed.

Lemma sectionsAll_cons (Q : Z -> option JS.str -> Prop) (len : Z) (ins : option JS.str)
  (rev : list Change.Sect) :
  Q len ins -> sectionsAll Q rev -> sectionsAll Q ((len, ins) :: rev).
Proof. intros Hq H l i [Hin | Hin]; [now injection Hin as <- <- | now apply H]. Qed.

Lemma sectionsAll_tail (Q : Z -> option JS.str -> Prop) (x : Change.Sect)
  (rev : list Change.Sect) :
  sectionsAll Q (x :: rev) -> sectionsAll Q rev.
Proof. intros H l i Hin. apply H. now right. Qed.

Lemma sectionsAll_head (Q : Z -> option JS.str -> Prop) (len : Z) (ins : option JS.str)
  (rev : list Change.Sect) :
  sectionsAll Q ((len, ins) :: rev) -> Q len ins.
Proof. intros H. apply H. now left. Qed.

Lemma sectionsAll_nil (Q : Z -> option JS.str -> Prop) : sectionsAll Q [].
Proof. intros l i []. Qed.

(** *** Adding a section *)

Lemma insertsOnly_keep (rev : list Change.Sect) (n : Z) (force : bool) :
  0 <= n -> insertsOnly rev -> insertsOnly (Change.addSectionJoin rev n None force).
Proof.
  intros Hn H. cbn [Change.addSectionJoin]. unfold Change.addSection.
  destruct (n =? 0); [exact H|].
  destruct rev as [|[l [t|]] r].
  - apply sectionsAll_cons; [split; [lia | congruence] | exact H].
  - apply sectionsAll_cons; [split; [lia | congruence] | exact H].
  - destruct (sectionsAll_head _ _ _ _ H) as [Hl _].
    apply sectionsAll_cons; [split; [lia | congruence] | now apply sectionsAll_tail in H].
Qed.

Lemma deletesOnly_keep (rev : list Change.Sect) (n : Z) (force : bool) :
  0 <= n -> deletesOnly rev -> deletesOnly (Change.addSectionJoin rev n None force).
Proof.
  intros Hn H. cbn [Change.addSectionJoin]. unfold Change.addSection.
  destruct (n =? 0); [exact H|].
  destruct rev as [|[l [t|]] r].
  - apply sectionsAll_cons; [split; [lia | discriminate] | exact H].
  - apply sectionsAll_cons; [split; [lia | discriminate] | exact H].
  - destruct (sectionsAll_head _ _ _ _ H) as [Hl _].
    apply sectionsAll_cons; [split; [lia | discriminate] | now apply sectionsAll_tail in H].
Qed.

Lemma insertsOnly_insert (rev : list Change.Sect) (text : JS.str) (force : bool) :
  insertsOnly rev -> insertsOnly (Change.addSectionJoin rev 0 (Some text) force).
Proof.
  intros H. unfold Change.addSectionJoin. change (0 =? 0) with true. cbn [andb].
  destruct (JS.length text =? 0); [exact H|].
  destruct rev as [|[l [t|]] r].
  - apply sectionsAll_cons; [split; [lia | reflexivity] | exact H].
  - destruct (sectionsAll_head _ _ _ _ H) as [_ Hl].
    assert (l = 0) by (apply Hl; discriminate). subst l.
    apply sectionsAll_tail in H. cbn [andb Z.eqb Z.add].
    destruct force; apply sectionsAll_cons; try exact H; split; (lia || reflexivity).
  - apply sectionsAll_cons; [split; [lia | reflexivity] | exact H].
Qed.

Lemma deletesOnly_delete (rev : list Change.Sect) (n : Z) (force : bool) :
  0 <= n -> deletesOnly rev -> deletesOnly (Change.addSectionJoin rev n (Some []) force).
Proof.
  intros Hn H. unfold Change.addSectionJoin. change (JS.length [] =? 0) with true.
  destruct ((n =? 0) && true); [exact H|].
  destruct rev as [|[l [t|]] r].
  - apply sectionsAll_cons; [split; [lia | now intros ? [= <-]] | exact H].
  - destruct (sectionsAll_head _ _ _ _ H) as [Hl Ht].
    assert (t = []) by now apply Ht. subst t.
    apply sectionsAll_tail in H. change (JS.length [] =? 0) with true. cbn [andb].
    apply sectionsAll_cons; [split; [lia | now intros ? [= <-]] | exact H].
  - apply sectionsAll_cons; [split; [lia | now intros ? [= <-]] | exact H].
Qed.

(** *** Iterators *)

Lemma insertsOnlyFrom_next (it : Change.Iter) :
  insertsOnly (Change.later it) -> insertsOnlyFrom (Change.next it).
Proof.
  intros H. unfold Change.next. destruct (Change.later it) as [|[l [t|]] r].
  - split; [|split]; cbn; try lia; try reflexivity. apply sectionsAll_nil.
  - destruct (sectionsAll_head _ _ _ _ H) as [Hl Hz].
    split; [|split]; cbn [Change.curLen Change.curIns Change.later];
      [lia | intros _; apply Hz; discriminate | now apply sectionsAll_tail in H].
  - destruct (sectionsAll_head _ _ _ _ H) as [Hl Hz].
    split; [|split]; cbn [Change.curLen Change.curIns Change.later];
      [lia | congruence | now apply sectionsAll_tail in H].
Qed.

Lemma deletesOnlyFrom_next (it : Change.Iter) :
  deletesOnly (Change.later it) -> deletesOnlyFrom (Change.next it).
Proof.
  intros H. unfold Change.next. destruct (Change.later it) as [|[l [t|]] r].
  - split; [|split]; cbn; try lia; try reflexivity. apply sectionsAll_nil.
  - destruct (sectionsAll_head _ _ _ _ H) as [Hl Hz].
    split; [|split]; cbn [Change.curLen Change.curText Change.later];
      [lia | now apply Hz | now apply sectionsAll_tail in H].
  - destruct (sectionsAll_head _ _ _ _ H) as [Hl Hz].
    split; [|split]; cbn [Change.curLen Change.curText Change.later];
      [lia | reflexivity | now apply sectionsAll_tail in H].
Qed.

Lemma insertsOnlyFrom_iter (cs : Change.Set_) : insertsOnly cs -> insertsOnlyFrom (Change.iter cs).
Proof. intros H. now apply insertsOnlyFrom_next. Qed.

Lemma deletesOnlyFrom_iter (cs : Change.Set_) : deletesOnly cs -> deletesOnlyFrom (Change.iter cs).
Proof. intros H. now apply deletesOnlyFrom_next. Qed.

Lemma insertsOnlyFrom_forward (it : Change.Iter) (x : Z) :
  insertsOnlyFrom it -> 0 <= x <= Change.curLen it -> insertsOnlyFrom (Change.forward it x).
Proof.
  intros [Hl [Hz H]] Hx. unfold Change.forward.
  destruct (Z.eqb_spec x (Change.curLen it)); [now apply insertsOnlyFrom_next|].
  split; [|split]; cbn [Change.curLen Change.curIns Change.later]; [lia | | exact H].
  intros Hi. specialize (Hz Hi). lia.
Qed.

Lemma deletesOnlyFrom_forward (it : Change.Iter) (x : Z) :
  deletesOnlyFrom it -> 0 <= x <= Change.curLen it -> deletesOnlyFrom (Change.forward it x).
Proof.
  intros [Hl [Hz H]] Hx. unfold Change.forward.
  destruct (Z.eqb_spec x (Change.curLen it)); [now apply deletesOnlyFrom_next|].
  split; [|split]; cbn [Change.curLen Change.curText Change.later]; [lia | exact Hz | exact H].
Qed.

Lemma insertsOnlyFrom_forward2 (it : Change.Iter) (x : Z) :
  insertsOnlyFrom it -> (Change.curIns it = -1 -> 0 <= x <= Change.curLen it) ->
  insertsOnlyFrom (Change.forward2 it x).
Proof.
  intros Hit Hx. unfold Change.forward2.
  destruct (Z.eqb_spec (Change.curIns it) (-1)); [now apply insertsOnlyFrom_forward; auto|].
  destruct Hit as [Hl [Hz H]].
  destruct (x =? Change.curIns it); [now apply insertsOnlyFrom_next|].
  split; [|split]; cbn [Change.curLen Change.curIns Change.later]; [lia | | exact H].
  intros _. now apply Hz.
Qed.

Lemma deletesOnlyFrom_forward2 (it : Change.Iter) (x : Z) :
  deletesOnlyFrom it -> (Change.curIns it = -1 -> 0 <= x <= Change.curLen it) ->
  deletesOnlyFrom (Change.forward2 it x).
Proof.
  intros Hit Hx. unfold Change.forward2.
  destruct (Z.eqb_spec (Change.curIns it) (-1)); [now apply deletesOnlyFrom_forward; auto|].
  destruct Hit as [Hl [Hz H]].
  destruct (x =? Change.curIns it); [now apply deletesOnlyFrom_next|].
  split; [|split]; cbn [Change.curLen Change.curText Change.later]; assumption.
Qed.

(** *** Mapping one change set over another *)

Lemma mapCover_inserts (fuel : nat) :
  forall a posA posB endB a' posA',
    insertsOnlyFrom a ->
    Change.mapCover fuel a posA posB endB = Some (a', posA') ->
    insertsOnlyFrom a'.
Proof.
  induction fuel as [|fuel IH]; intros a posA posB endB a' posA' Ha H;
    cbn [Change.mapCover] in H; destruct (_ && _);
    try (injection H as <- _; assumption); try discriminate.
  apply IH in H; [exact H|]. apply insertsOnlyFrom_next. apply Ha.
Qed.

Lemma mapCover_deletes (fuel : nat) :
  forall a posA posB endB a' posA',
    deletesOnlyFrom a ->
    Change.mapCover fuel a posA posB endB = Some (a', posA') ->
    deletesOnlyFrom a'.
Proof.
  induction fuel as [|fuel IH]; intros a posA posB endB a' posA' Ha H;
    cbn [Change.mapCover] in H; destruct (_ && _);
    try (injection H as <- _; assumption); try discriminate.
  apply IH in H; [exact H|]. apply deletesOnlyFrom_next. apply Ha.
Qed.

Lemma mapPiece_deletes (fuel : nat) :
  forall b posA posB endA len b' posB' len',
    deletesOnlyFrom b -> 0 <= len ->
    Change.mapPiece fuel b posA posB endA len = Some (b', posB', len') ->
    deletesOnlyFrom b' /\ 0 <= len'.
Proof.
  induction fuel as [|fuel IH]; intros b posA posB endA len b' posB' len' Hb Hlen H;
    cbn [Change.mapPiece] in H.
  - destruct (_ && _); [discriminate|]. destruct (_ && _); [discriminate|].
    injection H as <- _ <-. now split.
  - destruct (Z.leb_spec 0 (Change.curIns b)) as [Hi | Hi]; cbn [andb] in H.
    + destruct (_ && _).
      * apply IH in H; [exact H | | lia]. apply deletesOnlyFrom_next. apply Hb.
      * destruct (Z.eqb_spec (Change.curIns b) (-1)); [lia|]. cbn [andb] in H.
        injection H as <- _ <-. now split.
    + destruct (Change.curIns b =? -1); cbn [andb] in H.
      * destruct (Z.ltb_spec posB endA).
        -- destruct Hb as [Hl Hb']. apply IH in H; [exact H | | lia].
           apply deletesOnlyFrom_forward; [now split | lia].
        -- injection H as <- _ <-. now split.
      * injection H as <- _ <-. now split.
Qed.

Lemma mapLoop_inserts (fuel inner : nat) :
  forall a b posA posB before rev cs,
    insertsOnlyFrom a -> insertsOnlyFrom b -> insertsOnly rev ->
    Change.mapLoop fuel inner a b posA posB before rev = Some cs ->
    insertsOnly cs.
Proof.
  induction fuel as [|fuel IH]; intros a b posA posB before rev cs Ha Hb Hrev H;
    cbn [Change.mapLoop] in H; [discriminate|].
  destruct (Z.eqb_spec (Change.curIns a) (-1)) as [Hia | Hia].
  { apply IH in H; [exact H | | exact Hb | exact Hrev].
    apply insertsOnlyFrom_next. apply Ha. }
  destruct ((Change.curIns b =? -1) && (posB <? posA)) eqn:Eskip.
  { apply andb_true_iff in Eskip as [_ Hlt]. apply Z.ltb_lt in Hlt.
    destruct Hb as [Hl Hb'].
    apply IH in H; [exact H | exact Ha | |].
    - apply insertsOnlyFrom_forward; [now split | lia].
    - rewrite addSection_join. apply insertsOnly_keep; [lia | exact Hrev]. }
  destruct (Z.leb_spec 0 (Change.curIns b)) as [Hib | Hib]; cbn [andb] in H.
  - destruct (_ || _).
    + destruct (Change.mapCover _ _ _ _ _) as [[a' posA']|] eqn:Ec; [|discriminate].
      apply mapCover_inserts in Ec; [|exact Ha].
      apply IH in H; [exact H | exact Ec | |].
      * apply insertsOnlyFrom_next. apply Hb.
      * rewrite addSection_join. apply insertsOnly_keep; [exact Hib | exact Hrev].
    + destruct (Z.leb_spec 0 (Change.curIns a)) as [Ha0 | Ha0].
      * assert (Hz : Change.curLen a = 0) by (apply Ha; exact Hia).
        rewrite Hz, Z.add_0_r in H.
        rewrite mapPiece_stop in H.
        -- apply IH in H; [exact H | | exact Hb |].
           ++ apply insertsOnlyFrom_next. apply Ha.
           ++ rewrite addSection_join. now apply insertsOnly_insert.
        -- destruct Hb as [Hl _].
           destruct (0 <=? Change.curIns b), (Z.ltb_spec posA posB),
             (Z.ltb_spec (posB + Change.curLen b) posA); cbn [andb]; try reflexivity; lia.
        -- exact Eskip.
      * destruct (Change.done a && Change.done b); [|discriminate].
        injection H as <-. now apply sectionsAll_rev.
  - destruct (Z.leb_spec 0 (Change.curIns a)) as [Ha0 | Ha0].
    + assert (Hz : Change.curLen a = 0) by (apply Ha; exact Hia).
      rewrite Hz, Z.add_0_r in H.
      rewrite mapPiece_stop in H.
      * apply IH in H; [exact H | | exact Hb |].
        -- apply insertsOnlyFrom_next. apply Ha.
        -- rewrite addSection_join. now apply insertsOnly_insert.
      * destruct (Z.leb_spec 0 (Change.curIns b)); [lia | reflexivity].
      * exact Eskip.
    + destruct (Change.done a && Change.done b); [|discriminate].
        injection H as <-. now apply sectionsAll_rev.
Qed.

Lemma mapLoop_deletes (fuel inner : nat) :
  forall a b posA posB before rev cs,
    deletesOnlyFrom a -> deletesOnlyFrom b -> deletesOnly rev ->
    Change.mapLoop fuel inner a b posA posB before rev = Some cs ->
    deletesOnly cs.
Proof.
  induction fuel as [|fuel IH]; intros a b posA posB before rev cs Ha Hb Hrev H;
    cbn [Change.mapLoop] in H; [discriminate|].
  destruct (Change.curIns a =? -1).
  { apply IH in H; [exact H | | exact Hb | exact Hrev].
    apply deletesOnlyFrom_next. apply Ha. }
  destruct ((Change.curIns b =? -1) && (posB <? posA)) eqn:Eskip.
  { apply andb_true_iff in Eskip as [_ Hlt]. apply Z.ltb_lt in Hlt.
    destruct Hb as [Hl Hb'].
    apply IH in H; [exact H | exact Ha | |].
    - apply deletesOnlyFrom_forward; [now split | lia].
    - rewrite addSection_join. apply deletesOnly_keep; [lia | exact Hrev]. }
  assert (Hfour : forall H4 : match Change.mapPiece inner b posA posB
                                      (posA + Change.curLen a) 0 with
                    | Some (b', posB', len) =>
                        Change.mapLoop fuel inner (Change.next a) b'
                          (posA + Change.curLen a) posB' before
                          (Change.addSection rev len (Some (Change.curText a)))
                    | None => None
                    end = Some cs, deletesOnly cs).
  { intros H4.
    destruct (Change.mapPiece _ _ _ _ _ _) as [[[b' posB'] len]|] eqn:Ep; [|discriminate].
    apply mapPiece_deletes in Ep as [Hb' Hlen]; [ | exact Hb | lia].
    apply IH in H4; [exact H4 | | exact Hb' |].
    - apply deletesOnlyFrom_next. apply Ha.
    - destruct Ha as [_ [-> _]]. rewrite addSection_join. now apply deletesOnly_delete. }
  destruct (Z.leb_spec 0 (Change.curIns b)) as [Hib | Hib]; cbn [andb] in H.
  - destruct (_ || _).
    + destruct (Change.mapCover _ _ _ _ _) as [[a' posA']|] eqn:Ec; [|discriminate].
      apply mapCover_deletes in Ec; [|exact Ha].
      apply IH in H; [exact H | exact Ec | |].
      * apply deletesOnlyFrom_next. apply Hb.
      * rewrite addSection_join. apply deletesOnly_keep; [exact Hib | exact Hrev].
    + destruct (0 <=? Change.curIns a); [now apply Hfour|].
      destruct (Change.done a && Change.done b); [|discriminate].
        injection H as <-. now apply sectionsAll_rev.
  - destruct (0 <=? Change.curIns a); [now apply Hfour|].
    destruct (Change.done a && Change.done b); [|discriminate].
        injection H as <-. now apply sectionsAll_rev.
Qed.

Lemma map_inserts (cs other result : Change.Set_) (before : bool) :
  insertsOnly cs -> insertsOnly other ->
  Change.map cs other before = Some result -> insertsOnly result.
Proof.
  intros Hcs Ho. unfold Change.map, Change.mapSet.
  destruct (Change.isEmpty other); [now intros [= <-]|].
  apply mapLoop_inserts; [now apply insertsOnlyFrom_iter.. | apply sectionsAll_nil].
Qed.

Lemma map_deletes (cs other result : Change.Set_) (before : bool) :
  deletesOnly cs -> deletesOnly other ->
  Change.map cs other before = Some result -> deletesOnly result.
Proof.
  intros Hcs Ho. unfold Change.map, Change.mapSet.
  destruct (Change.isEmpty other); [now intros [= <-]|].
  apply mapLoop_deletes; [now apply deletesOnlyFrom_iter.. | apply sectionsAll_nil].
Qed.

(** *** Composing two change sets *)

Lemma composeLoop_inserts (fuel : nat) :
  forall a b open rev cs,
    insertsOnlyFrom a -> insertsOnlyFrom b -> insertsOnly rev ->
    Change.composeLoop fuel a b open rev = Some cs ->
    insertsOnly cs.
Proof.
  induction fuel as [|fuel IH]; intros a b open rev cs Ha Hb Hrev H;
    cbn [Change.composeLoop] in H; [discriminate|].
  destruct (Change.done a && Change.done b); [injection H as <-; now apply sectionsAll_rev|].
  destruct (Z.eqb_spec (Change.curIns a) 0) as [Hia | Hia].
  { apply IH in H; [exact H | | exact Hb |].
    - apply insertsOnlyFrom_next. apply Ha.
    - assert (Hz : Change.curLen a = 0) by (apply Ha; lia).
      rewrite Hz. now apply insertsOnly_insert. }
  destruct ((Change.curLen b =? 0) && negb (Change.done b)).
  { apply IH in H; [exact H | exact Ha | |].
    - apply insertsOnlyFrom_next. apply Hb.
    - now apply insertsOnly_insert. }
  destruct (Change.done a || Change.done b); [discriminate|].
  assert (Hla : 0 <= Change.curLen a) by apply Ha.
  assert (Hlb : 0 <= Change.curLen b) by apply Hb.
  set (len := Z.min (Change.len2 a) (Change.curLen b)) in *.
  apply IH in H; [exact H | | |].
  - apply insertsOnlyFrom_forward2; [exact Ha|].
    intros Hk. unfold len, Change.len2. rewrite Hk. cbn. lia.
  - apply insertsOnlyFrom_forward; [exact Hb|].
    unfold len, Change.len2. destruct (Z.ltb_spec (Change.curIns a) 0); lia.
  - destruct (Z.eqb_spec (Change.curIns a) (-1)) as [Hk | Hk].
    + destruct (Z.eqb_spec (Change.curIns b) (-1)) as [Hkb | Hkb].
      * apply insertsOnly_keep; [|exact Hrev]. unfold len, Change.len2. rewrite Hk. cbn. lia.
      * assert (Hz : Change.curLen b = 0) by now apply Hb.
        assert (Hl0 : len = 0).
        { unfold len, Change.len2. rewrite Hk, Hz. cbn. lia. }
        rewrite Hl0. now apply insertsOnly_insert.
    + assert (Hz : Change.curLen a = 0) by now apply Ha.
      rewrite Hz.
      replace (if Change.curOff a =? 0 then 0 else 0) with 0
        by now destruct (Change.curOff a =? 0).
      destruct (Change.curIns b =? -1); now apply insertsOnly_insert.
Qed.

Lemma textBit_nil (a : Change.Iter) (len : Z) : Change.curText a = [] -> Change.textBit a len = [].
Proof. intros H. unfold Change.textBit. now rewrite H, skipn_nil, firstn_nil. Qed.

Lemma composeLoop_deletes (fuel : nat) :
  forall a b open rev cs,
    deletesOnlyFrom a -> deletesOnlyFrom b -> deletesOnly rev ->
    Change.composeLoop fuel a b open rev = Some cs ->
    deletesOnly cs.
Proof.
  induction fuel as [|fuel IH]; intros a b open rev cs Ha Hb Hrev H;
    cbn [Change.composeLoop] in H; [discriminate|].
  destruct (Change.done a && Change.done b); [injection H as <-; now apply sectionsAll_rev|].
  assert (Hla : 0 <= Change.curLen a) by apply Ha.
  assert (Hlb : 0 <= Change.curLen b) by apply Hb.
  assert (Hta : Change.curText a = []) by apply Ha.
  assert (Htb : Change.curText b = []) by apply Hb.
  destruct (Change.curIns a =? 0).
  { apply IH in H; [exact H | | exact Hb |].
    - apply deletesOnlyFrom_next. apply Ha.
    - now apply deletesOnly_delete. }
  destruct ((Change.curLen b =? 0) && negb (Change.done b)).
  { apply IH in H; [exact H | exact Ha | |].
    - apply deletesOnlyFrom_next. apply Hb.
    - rewrite Htb. apply deletesOnly_delete; [lia | exact Hrev]. }
  destruct (Change.done a || Change.done b); [discriminate|].
  set (len := Z.min (Change.len2 a) (Change.curLen b)) in *.
  assert (Hlen : 0 <= len <= Change.curLen b).
  { unfold len, Change.len2. destruct (Z.ltb_spec (Change.curIns a) 0); lia. }
  apply IH in H; [exact H | | |].
  - apply deletesOnlyFrom_forward2; [exact Ha|].
    intros Hk. unfold len, Change.len2. rewrite Hk. cbn. lia.
  - now apply deletesOnlyFrom_forward.
  - rewrite Htb, (textBit_nil a len Hta).
    assert (0 <= (if Change.curOff a =? 0 then Change.curLen a else 0))
      by (destruct (Change.curOff a =? 0); lia).
    destruct (Change.curOff b =? 0), (Change.curIns a =? -1), (Change.curIns b =? -1);
      (apply deletesOnly_keep || apply deletesOnly_delete); (lia || exact Hrev).
Qed.

Lemma compose_inserts (cs other result : Change.Set_) :
  insertsOnly cs -> insertsOnly other ->
  Change.compose cs other = Some result -> insertsOnly result.
Proof.
  intros Hcs Ho. unfold Change.compose, Change.composeSets.
  destruct (Change.isEmpty cs); [now intros [= <-]|].
  destruct (Change.isEmpty other); [now intros [= <-]|].
  apply composeLoop_inserts; [now apply insertsOnlyFrom_iter.. | apply sectionsAll_nil].
Qed.

Lemma compose_deletes (cs other result : Change.Set_) :
  deletesOnly cs -> deletesOnly other ->
  Change.compose cs other = Some result -> deletesOnly result.
Proof.
  intros Hcs Ho. unfold Change.compose, Change.composeSets.
  destruct (Change.isEmpty cs); [now intros [= <-]|].
  destruct (Change.isEmpty other); [now intros [= <-]|].
  apply composeLoop_deletes; [now apply deletesOnlyFrom_iter.. | apply sectionsAll_nil].
Qed.

(** *** Building a change set *)

Lemma insertsOnly_rev (rev : list Change.Sect) : insertsOnly rev -> insertsOnly (List.rev rev).
Proof. apply sectionsAll_rev. Qed.

Lemma deletesOnly_rev (rev : list Change.Sect) : deletesOnly rev -> deletesOnly (List.rev rev).
Proof. apply sectionsAll_rev. Qed.

(** A change set built from insertions only replaces no text. *)
Lemma ofFrom_inserts (specs : list Change.Spec) :
  (forall s, In s specs -> Change.from s = Change.to s) ->
  forall len rev pos cs,
    insertsOnly rev ->
    Change.ofFrom specs len rev pos = Some cs ->
    insertsOnly cs.
Proof.
  induction specs as [|s rest IH]; intros Hall len rev pos cs Hrev H; cbn [Change.ofFrom] in H.
  - injection H as <-. apply insertsOnly_rev.
    destruct (Z.ltb_spec pos len); [|exact Hrev].
    change (insertsOnly (Change.addSectionJoin rev (len - pos) None false)).
    apply insertsOnly_keep; [lia | exact Hrev].
  - assert (Hrest : forall s', In s' rest -> Change.from s' = Change.to s')
      by (intros s' Hs'; apply Hall; now right).
    destruct (_ || _); [discriminate|].
    destruct (_ && _); [now apply (IH Hrest len rev pos)|].
    destruct (Change.from s <? pos); [discriminate|].
    apply (IH Hrest _ _ _ _) in H; [exact H|].
    rewrite <- (Hall s (or_introl eq_refl)), Z.sub_diag.
    rewrite addSection_join. apply insertsOnly_insert.
    destruct (Z.ltb_spec pos (Change.from s)); [|exact Hrev].
    rewrite addSection_join. apply insertsOnly_keep; [lia | exact Hrev].
Qed.

(** A change set built from deletions only inserts no text. *)
Lemma ofFrom_deletes (specs : list Change.Spec) :
  (forall s, In s specs -> Change.insert s = []) ->
  forall len rev pos cs,
    deletesOnly rev ->
    Change.ofFrom specs len rev pos = Some cs ->
    deletesOnly cs.
Proof.
  induction specs as [|s rest IH]; intros Hall len rev pos cs Hrev H; cbn [Change.ofFrom] in H.
  - injection H as <-. apply deletesOnly_rev.
    destruct (Z.ltb_spec pos len); [|exact Hrev].
    change (deletesOnly (Change.addSectionJoin rev (len - pos) None false)).
    apply deletesOnly_keep; [lia | exact Hrev].
  - assert (Hrest : forall s', In s' rest -> Change.insert s' = [])
      by (intros s' Hs'; apply Hall; now right).
    destruct (Z.ltb_spec (Change.to s) (Change.from s)); [discriminate|].
    cbn [orb] in H.
    destruct (_ || _); [discriminate|].
    destruct (_ && _); [now apply (IH Hrest len rev pos)|].
    destruct (Change.from s <? pos); [discriminate|].
    apply (IH Hrest _ _ _ _) in H; [exact H|].
    rewrite (Hall s (or_introl eq_refl)).
    rewrite addSection_join. apply deletesOnly_delete; [lia|].
    destruct (Z.ltb_spec pos (Change.from s)); [|exact Hrev].
    rewrite addSection_join. apply deletesOnly_keep; [lia | exact Hrev].
Qed.

(** *** The change set of a transaction *)

Lemma changeByRangeLoop_inserts (len : Z) (results : list RangeResult) :
  (forall r, In r results -> forall s, In s (rrChanges r) -> Change.from s = Change.to s) ->
  forall changes ranges effects cs rs effs,
    insertsOnly changes ->
    changeByRangeLoop len results changes ranges effects = Some (cs, rs, effs) ->
    insertsOnly cs.
Proof.
  induction results as [|r rest IH]; intros Hall changes ranges effects cs rs effs Hc H.
  - cbn in H. now injection H as <- _ _.
  - cbn [changeByRangeLoop] in H.
    destruct (Change.ofSpecs _ _) as [newChanges|] eqn:En; [|discriminate].
    destruct (Change.map _ _ _) as [newMapped|] eqn:Em; [|discriminate].
    destruct (Change.mapDesc _ _ _) as [mapBy|]; [|discriminate].
    destruct (mapRanges _ _) as [ranges'|]; [|discriminate].
    destruct (mapSelectionRange _ _) as [range'|]; [|discriminate].
    destruct (Change.compose _ _) as [changes'|] eqn:Eco; [|discriminate].
    destruct (mapEffects effects _) as [effects1|]; [|discriminate].
    destruct (mapEffects (rrEffects r) _) as [effects2|]; [|discriminate].
    apply (ofFrom_inserts _ (Hall r (or_introl eq_refl)) _ _ _ _ (sectionsAll_nil _)) in En.
    apply (map_inserts _ _ _ _ En Hc) in Em.
    apply (compose_inserts _ _ _ Hc Em) in Eco.
    apply (IH (fun r' Hr' => Hall r' (or_intror Hr')) _ _ _ _ _ _ Eco H).
Qed.

Lemma changeByRangeLoop_deletes (len : Z) (results : list RangeResult) :
  (forall r, In r results -> forall s, In s (rrChanges r) -> Change.insert s = []) ->
  forall changes ranges effects cs rs effs,
    deletesOnly changes ->
    changeByRangeLoop len results changes ranges effects = Some (cs, rs, effs) ->
    deletesOnly cs.
Proof.
  induction results as [|r rest IH]; intros Hall changes ranges effects cs rs effs Hc H.
  - cbn in H. now injection H as <- _ _.
  - cbn [changeByRangeLoop] in H.
    destruct (Change.ofSpecs _ _) as [newChanges|] eqn:En; [|discriminate].
    destruct (Change.map _ _ _) as [newMapped|] eqn:Em; [|discriminate].
    destruct (Change.mapDesc _ _ _) as [mapBy|]; [|discriminate].
    destruct (mapRanges _ _) as [ranges'|]; [|discriminate].
    destruct (mapSelectionRange _ _) as [range'|]; [|discriminate].
    destruct (Change.compose _ _) as [changes'|] eqn:Eco; [|discriminate].
    destruct (mapEffects effects _) as [effects1|]; [|discriminate].
    destruct (mapEffects (rrEffects r) _) as [effects2|]; [|discriminate].
    apply (ofFrom_deletes _ (Hall r (or_introl eq_refl)) _ _ _ _ (sectionsAll_nil _)) in En.
    apply (map_deletes _ _ _ _ En Hc) in Em.
    apply (compose_deletes _ _ _ Hc Em) in Eco.
    apply (IH (fun r' Hr' => Hall r' (or_intror Hr')) _ _ _ _ _ _ Eco H).
Qed.

(** The changes of a transaction built over every range, when each
    callback result satisfies [P]. *)
Lemma updateByRange_results (state : EditorState) (f : SelectionRange -> Outcome)
  (P : Change.Spec -> Prop) :
  (forall range r, f range = Handled r -> forall s, In s (rrChanges r) -> P s) ->
  forall r, In r (List.map (fun range => outcomeResult (f range)) (ranges (selection state))) ->
    forall s, In s (rrChanges r) -> P s.
Proof.
  intros H r Hr s Hs. apply in_map_iff in Hr as [range [<- _]].
  destruct (f range) as [r|r0] eqn:Ef; [|destruct Hs].
  now apply (H range r Ef).
Qed.

Lemma updateByRange_inserts (state : EditorState) (f : SelectionRange -> Outcome)
  (event : option UserEvent) (tr : Transaction) :
  (forall range r, f range = Handled r ->
     forall s, In s (rrChanges r) -> Change.from s = Change.to s) ->
  updateByRange state f event = Ok tr -> insertsOnly (changes tr).
Proof.
  intros Hf. pose proof (updateByRange_results state f _ Hf) as Hall.
  unfold updateByRange, changeByRange.
  destruct (existsb _ _); [discriminate|].
  destruct (List.map _ (ranges (selection state))) as [|result1 rest]; [discriminate|].
  destruct (Change.ofSpecs _ _) as [changes0|] eqn:E0; [|discriminate].
  destruct (changeByRangeLoop _ _ _ _ _) as [[[cs rs] effs]|] eqn:El; [|discriminate].
  intros H. injection H as <-. cbn [changes].
  apply (ofFrom_inserts _ (Hall result1 (or_introl eq_refl)) _ _ _ _ (sectionsAll_nil _)) in E0.
  apply (changeByRangeLoop_inserts _ rest (fun r Hr => Hall r (or_intror Hr)) _ _ _ _ _ _ E0 El).
Qed.

Lemma updateByRange_deletes (state : EditorState) (f : SelectionRange -> Outcome)
  (event : option UserEvent) (tr : Transaction) :
  (forall range r, f range = Handled r ->
     forall s, In s (rrChanges r) -> Change.insert s = []) ->
  updateByRange state f event = Ok tr -> deletesOnly (changes tr).
Proof.
  intros Hf. pose proof (updateByRange_results state f _ Hf) as Hall.
  unfold updateByRange, changeByRange.
  destruct (existsb _ _); [discriminate|].
  destruct (List.map _ (ranges (selection state))) as [|result1 rest]; [discriminate|].
  destruct (Change.ofSpecs _ _) as [changes0|] eqn:E0; [|discriminate].
  destruct (changeByRangeLoop _ _ _ _ _) as [[[cs rs] effs]|] eqn:El; [|discriminate].
  intros H. injection H as <-. cbn [changes].
  apply (ofFrom_deletes _ (Hall result1 (or_introl eq_refl)) _ _ _ _ (sectionsAll_nil _)) in E0.
  apply (changeByRangeLoop_deletes _ rest (fun r Hr => Hall r (or_intror Hr)) _ _ _ _ _ _ E0 El).
Qed.

Lemma handleOpenRange_inserts (state : EditorState) (open close closeBefore : JS.str)
  (range : SelectionRange) (r : RangeResult) :
  handleOpenRange state open close closeBefore range = Handled r ->
  forall s, In s (rrChanges r) -> Change.from s = Change.to s.
Proof.
  unfold handleOpenRange.
  destruct (negb (rangeEmpty range)); [|destruct (closesBefore _ _); [|discriminate]];
    intros H; injection H as <-; cbn [rrChanges];
    intros s Hs; repeat (destruct Hs as [<- | Hs]; [reflexivity|]); destruct Hs.
Qed.

Lemma handleSameRange_inserts (E : Env) (state : EditorState) (token : JS.str)
  (allowTriple : bool) (range : SelectionRange) (r : RangeResult) :
  handleSameRange E state token allowTriple range = Handled r ->
  forall s, In s (rrChanges r) -> Change.from s = Change.to s.
Proof.
  unfold handleSameRange.
  repeat match goal with
         | |- context [if ?c then _ else _] => destruct c
         end;
    intros H; try discriminate; injection H as <-; cbn [rrChanges];
    intros s Hs; repeat (destruct Hs as [<- | Hs]; [reflexivity|]); destruct Hs.
Qed.

Lemma emptySet_inserts (n : Z) : 0 <= n -> insertsOnly (Change.emptySet n).
Proof.
  intros Hn. unfold Change.emptySet. destruct (n =? 0); [apply sectionsAll_nil|].
  apply sectionsAll_cons; [split; [lia | congruence] | apply sectionsAll_nil].
Qed.

Lemma insertBracketLoop_inserts (E : Env) (state : EditorState) (bracket : JS.str)
  (conf : CloseBracketConfig) (tokens rest : list JS.str) (tr : Transaction) :
  insertBracketLoop E state bracket conf tokens rest = Ok tr ->
  insertsOnly (changes tr).
Proof.
  induction rest as [|tok rest IH]; cbn [insertBracketLoop]; [discriminate|].
  destruct (JS.eqb bracket tok).
  - destruct (JS.eqb (closingOf tok) tok); intros H.
    + apply updateByRange_inserts in H; [exact H|].
      intros range r. apply handleSameRange_inserts.
    + apply updateByRange_inserts in H; [exact H|].
      intros range r. apply handleOpenRange_inserts.
  - destruct (_ && _); [|exact IH].
    unfold handleClose. destruct (existsb _ _); [discriminate|].
    intros H. injection H as <-. cbn [changes]. apply emptySet_inserts. apply length_nonneg.
Qed.

(** Property X22.  No transaction of [insertBracket] removes text: in its change set
    every section that replaces something replaces an empty stretch of the
    document, for any selection and any configuration. *)
Theorem insertBracket_never_deletes
  (E : Env) (state : EditorState) (bracket : JS.str) (tr : Transaction) (len : Z) (text : JS.str) :
  insertBracket E state bracket = Ok tr ->
  In (len, Some text) (changes tr) -> len = 0.
Proof.
  intros H Hin. unfold insertBracket in H.
  apply insertBracketLoop_inserts in H.
  destruct (H len (Some text) Hin) as [_ Hz]. apply Hz. discriminate.
Qed.

Lemma insertBracket_never_deletes_witness :
  In (0, Some [40; 41]) (changes openParenAfterAb) /\ 0 = 0.
Proof.
  assert (Hin : In (0, Some [40; 41]) (changes openParenAfterAb)) by (right; left; reflexivity).
  split; [exact Hin|].
  exact (insertBracket_never_deletes plainEnv caretAfterAb [40] openParenAfterAb 0 [40; 41]
           eq_refl Hin).
Defined.

(** Property X23.  No transaction of [deleteBracketPair] inserts text: in its change
    set every section that replaces something replaces it by nothing.  This
    holds of the pairs of several carets as well, also where two pairs
    share a character and their deletions are composed. *)
Theorem deleteBracketPair_never_inserts
  (E : Env) (state : EditorState) (tr : Transaction) (len : Z) (text : JS.str) :
  deleteBracketPair E state = Some (true, Some tr) ->
  In (len, Some text) (changes tr) -> text = [].
Proof.
  unfold deleteBracketPair. destruct (readOnly state); [discriminate|].
  destruct (updateByRange state _ None) as [tr'| |] eqn:Eu; try discriminate.
  intros H Hin. injection H as ->.
  apply updateByRange_deletes in Eu.
  - destruct (Eu len (Some text) Hin) as [_ Ht]. now apply Ht.
  - intros range r Hr s Hs. unfold deleteBracketPairRange in Hr.
    destruct (rangeEmpty range); [|discriminate].
    apply deleteBracketPairLoop_handled in Hr as [token [_ [_ [_ ->]]]].
    cbn [rrChanges] in Hs. destruct Hs as [<- | []]. reflexivity.
Qed.

Lemma deleteBracketPair_never_inserts_witness :
  deleteBracketPair plainEnv threeQuotes =
    Some (true, Some (mkTransaction [(3, Some [])] (Some (mkSelection [cursor 0] 0))
                                    [] true None)) /\
  ([] : JS.str) = [].
Proof.
  split; [reflexivity|].
  exact (deleteBracketPair_never_inserts plainEnv threeQuotes
           (mkTransaction [(3, Some [])] (Some (mkSelection [cursor 0] 0)) [] true None)
           3 [] eq_refl (or_introl eq_refl)).
Defined.

(** ** Which handler takes a string *)

Lemma insertBracketLoop_untracked (E : Env) (state : EditorState) (bracket : JS.str)
  (conf : CloseBracketConfig) (tokens rest : list JS.str) :
  closedBracketAt state (rangeFrom (main (selection state))) = false ->
  insertBracketLoop E state bracket conf tokens rest =
  if existsb (JS.eqb bracket) rest then
    if JS.eqb (closingOf bracket) bracket
    then handleSame E state bracket (JS.arrayIncludes tokens (bracket ++ bracket ++ bracket))
    else handleOpen state bracket (closingOf bracket) (configBefore conf)
  else Null.
Proof.
  intros Hm. induction rest as [|tok rest IH]; [reflexivity|].
  cbn [insertBracketLoop existsb]. rewrite Hm, andb_false_r.
  destruct (JS.eqb bracket tok) eqn:Et; cbn [orb]; [|exact IH].
  apply eqb_eq in Et. subst tok. reflexivity.
Qed.

(** Property X24.  While the start of the main range is not tracked, [insertBracket]
    only asks whether the string is a configured token: a token that is its
    own closer goes to [handleSame], with triple tokens allowed exactly when
    the tripled token is configured too; any other token goes to
    [handleOpen] with its closer; everything else gives [null]. *)
Theorem insertBracket_untracked (E : Env) (state : EditorState) (bracket : JS.str) :
  closedBracketAt state (rangeFrom (main (selection state))) = false ->
  let conf := config E state (head (main (selection state))) in
  let tokens := configBrackets conf in
  insertBracket E state bracket =
  if JS.arrayIncludes tokens bracket then
    if JS.eqb (closingOf bracket) bracket
    then handleSame E state bracket (JS.arrayIncludes tokens (bracket ++ bracket ++ bracket))
    else handleOpen state bracket (closingOf bracket) (configBefore conf)
  else Null.
Proof.
  intros Hm conf tokens. unfold insertBracket, JS.arrayIncludes.
  now apply insertBracketLoop_untracked.
Qed.

Lemma insertBracket_untracked_witness :
  insertBracket oneNodeEnv emptyDoc [34] = handleSame oneNodeEnv emptyDoc [34] true /\
  insertBracket plainEnv emptyDoc [34] = handleSame plainEnv emptyDoc [34] false /\
  insertBracket plainEnv emptyDoc [91] = handleOpen emptyDoc [91] [93] defaultBefore.
Proof.
  split; [|split].
  - exact (insertBracket_untracked oneNodeEnv emptyDoc [34] eq_refl).
  - exact (insertBracket_untracked plainEnv emptyDoc [34] eq_refl).
  - exact (insertBracket_untracked plainEnv emptyDoc [91] eq_refl).
Defined.

(** Property X25.  At the start of a syntax node that begins with the token, typing
    the token with a single caret always inserts a new pair in front of it,
    whether or not the position is tracked and whatever stands before the
    caret: the node-start test comes before the skip. *)
Theorem handleSame_at_node_start
  (E : Env) (state : EditorState) (token : JS.str) (allowTriple : bool) (pos : Z) :
  selection state = mkSelection [cursor pos] 0 ->
  0 <= pos <= JS.length (doc state) ->
  token <> [] ->
  nextChar (doc state) pos = token ->
  nodeStart E state pos = true ->
  exists tr,
    handleSame E state token allowTriple = Ok tr /\
    let state' := applyTransaction state tr in
    doc state' =
      firstn (Z.to_nat pos) (doc state) ++ token ++ token ++ skipn (Z.to_nat pos) (doc state) /\
    selection state' = mkSelection [cursor (pos + JS.length token)] 0 /\
    closedBracketAt state' (pos + JS.length token) = true.
Proof.
  intros Hsel Hpos Hne Hn Hs.
  assert (Hr : handleSameRange E state token allowTriple (cursor pos) =
               Handled (mkResult [insertAt pos (token ++ token)]
                                 [closeBracketEffect (pos + JS.length token)]
                                 (cursor (pos + JS.length token)))).
  { unfold handleSameRange. rewrite rangeEmpty_cursor. cbn [negb head cursor].
    rewrite Hn, eqb_refl, Hs. reflexivity. }
  assert (Hne2 : token ++ token <> []) by (destruct token; [contradiction | discriminate]).
  rewrite (handleSame_insert E state token allowTriple pos (token ++ token)
             (pos + JS.length token) Hsel Hpos Hne2 Hr).
  eexists. split; [reflexivity|]. cbv zeta.
  destruct (applyTransaction_insert state pos (token ++ token) (pos + JS.length token) Hpos)
    as [Hd [Hs' Hm]].
  { rewrite length_app. pose proof (length_nonneg token). lia. }
  rewrite Hd, <- app_assoc. split; [reflexivity|]. split; assumption.
Qed.

Lemma handleSame_at_node_start_witness :
  exists tr,
    handleSame oneNodeEnv (mkState [34; 97; 34] (mkSelection [cursor 0] 0) false [(0, 1)])
               [34] true = Ok tr /\
    doc (applyTransaction
           (mkState [34; 97; 34] (mkSelection [cursor 0] 0) false [(0, 1)]) tr) =
      [34; 34; 34; 97; 34].
Proof.
  destruct (handleSame_at_node_start oneNodeEnv
              (mkState [34; 97; 34] (mkSelection [cursor 0] 0) false [(0, 1)]) [34] true 0
              eq_refl ltac:(vm_compute; split; discriminate) ltac:(discriminate)
              eq_refl eq_refl) as [tr [H1 [H2 _]]].
  exists tr. split; [exact H1 | exact H2].
Defined.

(** ** Configuration *)

Lemma insertBracketLoop_before (E : Env) (state : EditorState) (bracket : JS.str)
  (conf conf' : CloseBracketConfig) (tokens rest : list JS.str) :
  configBefore conf = configBefore conf' ->
  insertBracketLoop E state bracket conf tokens rest =
  insertBracketLoop E state bracket conf' tokens rest.
Proof.
  intros Hb. induction rest as [|tok rest IH]; [reflexivity|].
  cbn [insertBracketLoop]. now rewrite Hb, IH.
Qed.

(** The loop of [insertBracket] reads the syntax tree and the character
    categories of the editor, not its language data. *)
Lemma insertBracketLoop_env
  (ld ld' : JS.str -> Z -> option CloseBracketConfig)
  (ri : JS.str -> Z -> Z -> SyntaxNode) (cc : JS.str -> Z -> JS.str -> CharCategory)
  (an : bool) (state : EditorState) (bracket : JS.str)
  (conf : CloseBracketConfig) (tokens rest : list JS.str) :
  insertBracketLoop (mkEnv ld ri cc an) state bracket conf tokens rest =
  insertBracketLoop (mkEnv ld' ri cc an) state bracket conf tokens rest.
Proof.
  induction rest as [|tok rest IH]; [reflexivity|].
  cbn [insertBracketLoop]. rewrite IH. reflexivity.
Qed.

(** Property X26.  What the configuration falls back to.  Without language
    data [insertBracket] behaves as with the default configuration given
    explicitly.  An empty [before] string is treated like a missing one: the
    default list of characters applies.  An empty [brackets] array is not:
    [insertBracket] then returns [null] for every string and
    [deleteBracketPair] returns [false]. *)
Theorem configuration_fallbacks
  (ld ld' : JS.str -> Z -> option CloseBracketConfig)
  (ri : JS.str -> Z -> Z -> SyntaxNode) (cc : JS.str -> Z -> JS.str -> CharCategory)
  (an : bool) (state : EditorState) (bracket : JS.str)
  (bs : option (list JS.str)) (b : option JS.str) :
  let pos := head (main (selection state)) in
  (ld (doc state) pos = None -> ld' (doc state) pos = Some defaults ->
   insertBracket (mkEnv ld ri cc an) state bracket =
   insertBracket (mkEnv ld' ri cc an) state bracket) /\
  (ld (doc state) pos = Some (mkConfig bs (Some [])) ->
   ld' (doc state) pos = Some (mkConfig bs None) ->
   insertBracket (mkEnv ld ri cc an) state bracket =
   insertBracket (mkEnv ld' ri cc an) state bracket) /\
  (ld (doc state) pos = Some (mkConfig (Some []) b) ->
   insertBracket (mkEnv ld ri cc an) state bracket = Null /\
   (readOnly state = false -> ranges (selection state) <> [] ->
    deleteBracketPair (mkEnv ld ri cc an) state = Some (false, None))).
Proof.
  intros pos. split; [|split].
  - intros H H'. unfold insertBracket, config. cbn [languageDataAt]. fold pos.
    rewrite H, H'. reflexivity.
  - intros H H'. unfold insertBracket, config. cbn [languageDataAt]. fold pos.
    rewrite H, H'. cbn [configBrackets brackets].
    transitivity (insertBracketLoop (mkEnv ld ri cc an) state bracket (mkConfig bs None)
                    (match bs with Some toks => toks | None => defaultBrackets end)
                    (match bs with Some toks => toks | None => defaultBrackets end)).
    + now apply insertBracketLoop_before.
    + apply insertBracketLoop_env.
  - intros H. split.
    + unfold insertBracket, config. cbn [languageDataAt]. fold pos. rewrite H. reflexivity.
    + intros Hro Hne. unfold deleteBracketPair, config. cbn [languageDataAt]. fold pos.
      rewrite Hro, H. cbn [configBrackets brackets].
      destruct (ranges (selection state)) as [|range rest] eqn:Er; [contradiction|].
      rewrite (updateByRange_dont state _ None range); [reflexivity | rewrite Er; now left |].
      unfold deleteBracketPairRange. destruct (rangeEmpty range); reflexivity.
Qed.

Lemma configuration_fallbacks_witness :
  insertBracket (mkEnv (fun _ _ => Some (mkConfig None (Some []))) (resolveInner plainEnv)
                       (charCategorizer plainEnv) false)
                (mkState [41] (mkSelection [cursor 0] 0) false []) [40] =
  insertBracket plainEnv (mkState [41] (mkSelection [cursor 0] 0) false []) [40] /\
  insertBracket (mkEnv (fun _ _ => Some (mkConfig (Some []) None)) (resolveInner plainEnv)
                       (charCategorizer plainEnv) false) emptyDoc [40] = Null.
Proof.
  split.
  - transitivity (insertBracket (mkEnv (fun _ _ => Some (mkConfig None None))
                                       (resolveInner plainEnv) (charCategorizer plainEnv) false)
                                (mkState [41] (mkSelection [cursor 0] 0) false []) [40]).
    + exact (proj1 (proj2 (configuration_fallbacks
                             (fun _ _ => Some (mkConfig None (Some [])))
                             (fun _ _ => Some (mkConfig None None))
                             (resolveInner plainEnv) (charCategorizer plainEnv) false
                             (mkState [41] (mkSelection [cursor 0] 0) false []) [40] None None))
                   eq_refl eq_refl).
    + reflexivity.
  - exact (proj1 (proj2 (proj2 (configuration_fallbacks
                                  (fun _ _ => Some (mkConfig (Some []) None))
                                  (fun _ _ => None)
                                  (resolveInner plainEnv) (charCategorizer plainEnv) false
                                  emptyDoc [40] None None)) eq_refl)).
Defined.
(** ** The loops over sections have turns enough *)

















